(** * go-lox: scanner, parser, printer and interpreter of Lox expressions

    A shallow embedding of the Go sources [scanner.go], the parser and AST
    printer, and [interpreter.go], with the properties proved about them.

    Conventions of the embedding.
    - Go methods that mutate their receiver are functions in a state monad
      over the receiver ([prog]); a computation ends in a normal return, in a
      [panic] of the program's own, in a run-time panic of Go (an index or a
      slice bound out of range, a failed type assertion), or it runs out of
      the fuel that bounds the loops and the recursion of the model.
    - [float64] is IEEE 754 binary64 as specified by [SpecFloat]; strings are
      byte strings; cursors into the source and into the token slice are
      natural numbers, line numbers are integers.
    - [strconv.ParseFloat] and the [%v] rendering of a [float64] by [fmt]
      belong to Go's library: they are parameters of the development. *)

From Stdlib Require Import List String Ascii ZArith Lia Bool Arith.
From Stdlib Require Import DecimalString SpecFloat.
Import ListNotations.

Open Scope string_scope.
Open Scope nat_scope.

(** ** Outcomes and the state monad *)

Inductive outcome (E A : Type) : Type :=
| Ret (a : A)      (* normal return *)
| Panic (e : E)    (* [panic(e)] with an error value of the program *)
| Fault            (* run-time panic of Go: index or slice bound out of range,
                      failed type assertion *)
| Stuck.           (* the model ran out of fuel *)

Arguments Ret {E A} a.
Arguments Panic {E A} e.
Arguments Fault {E A}.
Arguments Stuck {E A}.

Definition prog (St E A : Type) : Type := St -> outcome E (A * St).

Definition ret {St E A} (a : A) : prog St E A := fun s => Ret (a, s).

Definition bind {St E A B} (m : prog St E A) (k : A -> prog St E B) : prog St E B :=
  fun s =>
    match m s with
    | Ret (a, s') => k a s'
    | Panic e => Panic e
    | Fault => Fault
    | Stuck => Stuck
    end.

Definition panic {St E A} (e : E) : prog St E A := fun _ => Panic e.
Definition fault {St E A} : prog St E A := fun _ => Fault.
Definition stuck {St E A} : prog St E A := fun _ => Stuck.
Definition get_state {St E} : prog St E St := fun s => Ret (s, s).
Definition modify {St E} (f : St -> St) : prog St E unit := fun s => Ret (tt, f s).

Declare Scope prog_scope.
Delimit Scope prog_scope with prog.
Notation "x <- m ;; k" := (bind m (fun x => k))
  (at level 61, m at next level, right associativity) : prog_scope.
Notation "m ;; k" := (bind m (fun _ => k))
  (at level 61, right associativity) : prog_scope.
Open Scope prog_scope.

(** [for cond() { body() }]: the condition is tested first; an iteration that
    is due when the fuel is spent leaves the model stuck. *)
Fixpoint while {St E} (cond : prog St E bool) (body : prog St E unit)
         (fuel : nat) {struct fuel} : prog St E unit :=
  b <- cond ;;
  if b then
    match fuel with
    | O => stuck
    | S fuel' => body ;; while cond body fuel'
    end
  else ret tt.

(** [refines o1 o2]: more fuel does not change an outcome that was reached. *)
Definition refines {E A} (o1 o2 : outcome E A) : Prop := o1 <> Stuck -> o2 = o1.

(** ** Numbers *)

Definition float64 : Type := spec_float.

Definition prec64 : Z := 53.
Definition emax64 : Z := 1024.

Definition fadd : float64 -> float64 -> float64 := SFadd prec64 emax64.
Definition fsub : float64 -> float64 -> float64 := SFsub prec64 emax64.
Definition fmul : float64 -> float64 -> float64 := SFmul prec64 emax64.
Definition fdiv : float64 -> float64 -> float64 := SFdiv prec64 emax64.
Definition fneg : float64 -> float64 := SFopp.
Definition feq : float64 -> float64 -> bool := SFeqb.
Definition flt : float64 -> float64 -> bool := SFltb.
Definition fle : float64 -> float64 -> bool := SFleb.

Definition float_of_Z (z : Z) : float64 := binary_normalize prec64 emax64 z 0 false.

Definition fzero : float64 := S754_zero false.
Definition fnan : float64 := S754_nan.

(** [%d] of an [int]. *)
Definition fmt_int (z : Z) : string := NilZero.string_of_int (Z.to_int z).

Definition fmt_bool (b : bool) : string := if b then "true" else "false".

(** ** Tokens (scanner.go) *)

Inductive TokenType : Set :=
  (* Single-character tokens. *)
  | LEFT_PAREN | RIGHT_PAREN | LEFT_BRACE | RIGHT_BRACE
  | COMMA | DOT | MINUS | PLUS | SEMICOLON | SLASH | STAR
  (* One or two character tokens. *)
  | BANG | BANG_EQUAL | EQUAL | EQUAL_EQUAL
  | GREATER | GREATER_EQUAL | LESS | LESS_EQUAL
  (* Literals *)
  | IDENTIFIER | STRING | NUMBER
  (* Keywords *)
  | AND | CLASS | ELSE | FALSE | FUN | FOR | IF | NIL | OR
  | PRINT | RETURN | SUPER | THIS | TRUE | VAR | WHILE
  (* signals when we parsed all tokens *)
  | EOF.

Scheme Equality for TokenType.

(** Modelled from the spec: the [String] method of [TokenType] is generated by
    [stringer] (the [go:generate] line of scanner.go) and is not among the
    sources; it renders a kind as the name of its constant. *)
Definition TokenType_String (t : TokenType) : string :=
  match t with
  | LEFT_PAREN => "LEFT_PAREN" | RIGHT_PAREN => "RIGHT_PAREN"
  | LEFT_BRACE => "LEFT_BRACE" | RIGHT_BRACE => "RIGHT_BRACE"
  | COMMA => "COMMA" | DOT => "DOT" | MINUS => "MINUS" | PLUS => "PLUS"
  | SEMICOLON => "SEMICOLON" | SLASH => "SLASH" | STAR => "STAR"
  | BANG => "BANG" | BANG_EQUAL => "BANG_EQUAL"
  | EQUAL => "EQUAL" | EQUAL_EQUAL => "EQUAL_EQUAL"
  | GREATER => "GREATER" | GREATER_EQUAL => "GREATER_EQUAL"
  | LESS => "LESS" | LESS_EQUAL => "LESS_EQUAL"
  | IDENTIFIER => "IDENTIFIER" | STRING => "STRING" | NUMBER => "NUMBER"
  | AND => "AND" | CLASS => "CLASS" | ELSE => "ELSE" | FALSE => "FALSE"
  | FUN => "FUN" | FOR => "FOR" | IF => "IF" | NIL => "NIL" | OR => "OR"
  | PRINT => "PRINT" | RETURN => "RETURN" | SUPER => "SUPER" | THIS => "THIS"
  | TRUE => "TRUE" | VAR => "VAR" | WHILE => "WHILE"
  | EOF => "EOF"
  end.

Definition keywords : list (string * TokenType) :=
  [ ("and", AND); ("class", CLASS); ("else", ELSE); ("false", FALSE);
    ("fun", FUN); ("for", FOR); ("if", IF); ("nil", NIL); ("or", OR);
    ("print", PRINT); ("return", RETURN); ("super", SUPER); ("this", THIS);
    ("true", TRUE); ("var", VAR); ("while", WHILE) ].

(** [keywords[k]] with the [ok] flag: the keys of the map are distinct. *)
Fixpoint lookup (k : string) (m : list (string * TokenType)) : option TokenType :=
  match m with
  | [] => None
  | (k', v) :: m' => if String.eqb k k' then Some v else lookup k m'
  end.

(** The dynamic values of the program: what an [interface{}] holds in a token
    literal, in a [Literal] node and as the result of an evaluation. *)
Inductive value : Type :=
| VNil
| VNum (f : float64)
| VStr (s : string)
| VBool (b : bool).

Record Token : Type := NewToken {
  Type_ : TokenType;
  Lexeme : string;
  Literal_ : value;
  Line : Z
}.

Definition nonEOF (tok : Token) : Prop := Type_ tok <> EOF.

Definition isEOF (tok : Token) : bool := TokenType_beq (Type_ tok) EOF.

(** [fmt.Sprintf("%v", x)] of a dynamic value, given the rendering of numbers. *)
Definition fmt_value (FormatFloat : float64 -> string) (v : value) : string :=
  match v with
  | VNil => "<nil>"
  | VNum f => FormatFloat f
  | VStr s => s
  | VBool b => fmt_bool b
  end.

(** [Token.String]. *)
Definition Token_String (FormatFloat : float64 -> string) (t : Token) : string :=
  TokenType_String (Type_ t) ++ " " ++ Lexeme t ++ " " ++ fmt_value FormatFloat (Literal_ t).

(** ** Bytes and slices *)

Definition NUL : ascii := "000"%char.
Definition LF : ascii := "010"%char.
Definition TAB : ascii := "009"%char.
Definition CR : ascii := "013"%char.
Definition QUOTE : ascii := "034"%char.

Definition isDigit (c : ascii) : bool :=
  (("0" <=? c) && (c <=? "9"))%char.

Definition isAlpha (c : ascii) : bool :=
  ((("a" <=? c) && (c <=? "z")) || (("A" <=? c) && (c <=? "Z")) || (c =? "_"))%char.

Definition isAlphaNumeric (c : ascii) : bool := isAlpha c || isDigit c.

(** [src[lo:hi]]; Go panics unless [lo <= hi <= len(src)]. *)
Definition slice (src : string) (lo hi : nat) : option string :=
  if (lo <=? hi) && (hi <=? String.length src)
  then Some (substring lo (hi - lo) src)
  else None.

(** ** The scanner (scanner.go) *)

Module Scanner.

Record t : Type := Build {
  source : string;
  start : nat;
  current : nat;   (* points at the character currently being considered *)
  line : Z;
  tokens : list Token;
  errors : list string
}.

Definition NewScanner (src : string) : t :=
  {| source := src; start := 0; current := 0; line := 0%Z; tokens := []; errors := [] |}.

Definition set_start (n : nat) (s : t) : t :=
  {| source := source s; start := n; current := current s; line := line s;
     tokens := tokens s; errors := errors s |}.
Definition set_current (n : nat) (s : t) : t :=
  {| source := source s; start := start s; current := n; line := line s;
     tokens := tokens s; errors := errors s |}.
Definition set_line (l : Z) (s : t) : t :=
  {| source := source s; start := start s; current := current s; line := l;
     tokens := tokens s; errors := errors s |}.
Definition set_tokens (ts : list Token) (s : t) : t :=
  {| source := source s; start := start s; current := current s; line := line s;
     tokens := ts; errors := errors s |}.
Definition set_errors (es : list string) (s : t) : t :=
  {| source := source s; start := start s; current := current s; line := line s;
     tokens := tokens s; errors := es |}.

(** The scanner never calls [panic]. *)
Definition M (A : Type) : Type := prog t Empty_set A.

(** [fmt.Errorf("Line: %d, %s", line, message)], kept as its text. *)
Definition lineError (line : Z) (message : string) : string :=
  "Line: " ++ fmt_int line ++ ", " ++ message.

Definition error (message : string) : M unit :=
  modify (fun s => set_errors (errors s ++ [lineError (line s) message]) s).

Definition isAtEnd : M bool :=
  s <- get_state ;; ret (String.length (source s) <=? current s).

(** [s.source[i]]. *)
Definition byteAt (i : nat) : M ascii :=
  s <- get_state ;;
  match String.get i (source s) with
  | Some c => ret c
  | None => fault
  end.

Definition advance : M ascii :=
  s <- get_state ;;
  c <- byteAt (current s) ;;
  modify (set_current (current s + 1)) ;;
  ret c.

Definition peek : M ascii :=
  e <- isAtEnd ;;
  if e then ret NUL else s <- get_state ;; byteAt (current s).

Definition peekNext : M ascii :=
  s <- get_state ;;
  if String.length (source s) <=? current s + 1 then ret NUL
  else byteAt (current s + 1).

Definition match_ (expected : ascii) : M bool :=
  e <- isAtEnd ;;
  if e then ret false else
  s <- get_state ;;
  c <- byteAt (current s) ;;
  if negb (c =? expected)%char then ret false else
  advance ;; ret true.

(** [s.source[lo:hi]]. *)
Definition sourceSlice (lo hi : nat) : M string :=
  s <- get_state ;;
  match slice (source s) lo hi with
  | Some x => ret x
  | None => fault
  end.

Definition addTokenLiteral (typ : TokenType) (literal : value) : M unit :=
  s <- get_state ;;
  lexeme <- sourceSlice (start s) (current s) ;;
  modify (fun s => set_tokens (tokens s ++ [NewToken typ lexeme literal (line s)]) s).

Definition addToken (typ : TokenType) : M unit := addTokenLiteral typ VNil.

Definition incLine : M unit := modify (fun s => set_line (line s + 1)%Z s).

Section WithLibrary.

(** [strconv.ParseFloat(x, 64)], its error dropped as [number] drops it. *)
Variable ParseFloat : string -> float64.

Definition identifier (fuel : nat) : M unit :=
  while (c <- peek ;; ret (isAlphaNumeric c)) (advance ;; ret tt) fuel ;;
  s <- get_state ;;
  text <- sourceSlice (start s) (current s) ;;
  match lookup text keywords with
  | Some typ => addToken typ
  | None => addToken IDENTIFIER
  end.

Definition string_ (fuel : nat) : M unit :=
  while (c <- peek ;;
         if negb (c =? QUOTE)%char then e <- isAtEnd ;; ret (negb e) else ret false)
        (c <- peek ;;
         (if (c =? LF)%char then incLine else ret tt) ;;
         advance ;; ret tt)
        fuel ;;
  e <- isAtEnd ;;
  if e then error "Unterminated string." else
  advance ;; (* we consume the second quote *)
  s <- get_state ;;
  (* [s.current-1] is negative, and the slice panics, when [s.current] is 0 *)
  match current s with
  | O => fault
  | S c1 =>
      text <- sourceSlice (start s + 1) c1 ;;
      addTokenLiteral STRING (VStr text)
  end.

Definition number (fuel : nat) : M unit :=
  while (c <- peek ;; ret (isDigit c)) (advance ;; ret tt) fuel ;;
  c <- peek ;;
  (if (c =? ".")%char
   then c' <- peekNext ;;
        if isDigit c'
        then advance ;;
             while (c <- peek ;; ret (isDigit c)) (advance ;; ret tt) fuel
        else ret tt
   else ret tt) ;;
  s <- get_state ;;
  text <- sourceSlice (start s) (current s) ;;
  addTokenLiteral NUMBER (VNum (ParseFloat text)).

Definition scanToken (fuel : nat) : M unit :=
  c <- advance ;;
  (* lexems of length 1 *)
  if (c =? "(")%char then addToken LEFT_PAREN
  else if (c =? ")")%char then addToken RIGHT_PAREN
  else if (c =? "{")%char then addToken LEFT_BRACE
  else if (c =? "}")%char then addToken RIGHT_BRACE
  else if (c =? ",")%char then addToken COMMA
  else if (c =? ".")%char then addToken DOT
  else if (c =? "-")%char then addToken MINUS
  else if (c =? "+")%char then addToken PLUS
  else if (c =? ";")%char then addToken SEMICOLON
  else if (c =? "*")%char then addToken STAR
  (* lexems of length 1 or 2 *)
  else if (c =? "!")%char then
    b <- match_ "=" ;; if b then addToken BANG_EQUAL else addToken BANG
  else if (c =? "=")%char then
    b <- match_ "=" ;; if b then addToken EQUAL_EQUAL else addToken EQUAL
  else if (c =? "<")%char then
    b <- match_ "=" ;; if b then addToken LESS_EQUAL else addToken LESS
  else if (c =? ">")%char then
    b <- match_ "=" ;; if b then addToken GREATER_EQUAL else addToken GREATER
  (* handle comment or division *)
  else if (c =? "/")%char then
    b <- match_ "/" ;;
    if b then
      while (c <- peek ;;
             if negb (c =? LF)%char then e <- isAtEnd ;; ret (negb e) else ret false)
            (advance ;; ret tt) fuel
    else addToken SLASH
  (* ignore white space *)
  else if (c =? " ")%char || (c =? TAB)%char || (c =? CR)%char then ret tt
  else if (c =? LF)%char then incLine
  (* handle string literals *)
  else if (c =? QUOTE)%char then string_ fuel
  else if isDigit c then number fuel
  else if isAlpha c then identifier fuel
  else error "Unexpected character.".

(** The loop of [ScanTokens]: [for !s.isAtEnd() { s.start = s.current; s.scanToken() }]. *)
Definition loopCond : M bool := e <- isAtEnd ;; ret (negb e).

Definition loopBody (fuel : nat) : M unit :=
  modify (fun s => set_start (current s) s) ;; scanToken fuel.

Definition scanLoop (fuel : nat) : M unit := while loopCond (loopBody fuel) fuel.

Definition appendEOF : M unit :=
  modify (fun s => set_tokens (tokens s ++ [NewToken EOF EmptyString VNil (line s)]) s).

(** [ScanTokens] on a fresh scanner, with a bound on the iterations of each
    loop.  No loop runs more often than the source has bytes, and a larger
    bound changes nothing ([scanLoop_total], [ScanTokensFuel_refines]). *)
Definition ScanTokensFuel (fuel : nat) (src : string)
  : outcome Empty_set (list Token * list string) :=
  match (scanLoop fuel ;; appendEOF ;; s <- get_state ;; ret (tokens s, errors s))
          (NewScanner src) with
  | Ret (r, _) => Ret r
  | Panic e => Panic e
  | Fault => Fault
  | Stuck => Stuck
  end.

Definition ScanTokens (src : string) : outcome Empty_set (list Token * list string) :=
  ScanTokensFuel (String.length src) src.

End WithLibrary.

(** *** Notions used to state and prove the properties of the scanner *)

Definition atEnd (s : t) : bool := String.length (source s) <=? current s.

Definition curByte (s : t) : ascii :=
  match String.get (current s) (source s) with Some c => c | None => NUL end.

Definition skip (s : t) : t := set_current (current s + 1) s.

Definition peekByte (s : t) : ascii := if atEnd s then NUL else curByte s.

Definition matches (expected : ascii) (s : t) : bool :=
  negb (atEnd s) && (curByte s =? expected)%char.

Definition lexeme (s : t) : string := substring (start s) (current s - start s) (source s).

Definition pushToken (typ : TokenType) (literal : value) (s : t) : t :=
  set_tokens (tokens s ++ [NewToken typ (lexeme s) literal (line s)])%list s.

(** [advanced s s']: the loops of the scanner only move the cursor forward,
    within the source, and count lines. *)
Definition advanced (s s' : t) : Prop :=
  source s' = source s /\ start s' = start s /\
  tokens s' = tokens s /\ errors s' = errors s /\
  current s <= current s' /\
  (current s <= String.length (source s) -> current s' <= String.length (source s)).

(** [ext s s']: what a piece of [scanToken] may do to the scanner. *)
Definition ext (s s' : t) : Prop :=
  source s' = source s /\
  current s <= current s' /\
  (current s <= String.length (source s) -> current s' <= String.length (source s)) /\
  (exists new, tokens s' = (tokens s ++ new)%list /\ Forall nonEOF new) /\
  (exists errs, errors s' = (errors s ++ errs)%list).

(** [ready s]: the bounds of the current lexeme are in order. *)
Definition ready (s : t) : Prop := start s <= current s <= String.length (source s).

(** The three shapes of loop conditions and bodies. *)
Definition testPeek (p : ascii -> bool) (s : t) : bool := p (peekByte s).

Definition testUntil (stop : ascii) (s : t) : bool :=
  negb (peekByte s =? stop)%char && negb (atEnd s).

Definition eofToken (l : Z) : Token := NewToken EOF EmptyString VNil l.

(** The bytes on which [scanToken] does not report an unexpected character. *)
Definition startsLexeme (c : ascii) : bool :=
  existsb (Ascii.eqb c)
    ["("; ")"; "{"; "}"; ","; "."; "-"; "+"; ";"; "*"; "!"; "="; "<"; ">"; "/";
     " "; TAB; CR; LF; QUOTE]%char
  || isDigit c || isAlpha c.

(** Blank bytes, and sources made of them only. *)
Definition isSpace (c : ascii) : bool :=
  ((c =? " ") || (c =? TAB) || (c =? CR) || (c =? LF))%char.

Fixpoint allSpace (src : string) : bool :=
  match src with
  | EmptyString => true
  | String c src' => isSpace c && allSpace src'
  end.

End Scanner.

(** ** Expressions (the AST of the parser) *)

Inductive Expr : Type :=
| Binary (Operator : Token) (Left Right : Expr)
| Unary (Operator : Token) (Right : Expr)
| Literal (Value : value)
| Grouping (Expr_ : Expr).

(** ** The parser *)

Module Parser.

Record t : Type := Build {
  tokens : list Token;
  current : nat
}.

Definition NewParser (toks : list Token) : t := {| tokens := toks; current := 0 |}.

Definition set_current (n : nat) (p : t) : t := {| tokens := tokens p; current := n |}.

(** [ParseError], by its message. *)
Definition ParseError : Type := string.

Definition M (A : Type) : Type := prog t ParseError A.

(** [p.tokens[i]]. *)
Definition tokenAt (i : nat) : M Token :=
  p <- get_state ;;
  match nth_error (tokens p) i with
  | Some tok => ret tok
  | None => fault
  end.

Definition isAtEnd : M bool :=
  p <- get_state ;;
  tok <- tokenAt (current p) ;;
  ret (TokenType_beq (Type_ tok) EOF).

Definition peek : M Token :=
  p <- get_state ;; tokenAt (current p).

(** [p.tokens[p.current-1]]: the index is negative when [p.current] is 0. *)
Definition previous : M Token :=
  p <- get_state ;;
  match current p with
  | O => fault
  | S i => tokenAt i
  end.

Definition advance : M Token :=
  e <- isAtEnd ;;
  (if negb e then modify (fun p => set_current (current p + 1) p) else ret tt) ;;
  previous.

Definition checkTokenType (tokenType : TokenType) : M bool :=
  e <- isAtEnd ;;
  if e then ret false else
  p <- get_state ;;
  tok <- tokenAt (current p) ;;
  ret (TokenType_beq (Type_ tok) tokenType).

Fixpoint match_ (tokenTypes : list TokenType) : M bool :=
  match tokenTypes with
  | [] => ret false
  | typ :: rest =>
      b <- checkTokenType typ ;;
      if b then advance ;; ret true else match_ rest
  end.

Definition error (token : Token) (message : string) : ParseError :=
  Lexeme token ++ " " ++ TokenType_String (Type_ token) ++ " " ++ fmt_int (Line token)
    ++ " at '" ++ message ++ "'".

Definition consume (tokenType : TokenType) (message : string) : M Token :=
  b <- checkTokenType tokenType ;;
  if b then advance else
  tok <- peek ;; panic (error tok message).

(** The loop shared by the four binary levels:
    [for p.match(types...) { expr = Binary{p.previous(), expr, operand()} }]. *)
Fixpoint binaryLoop (types : list TokenType) (operand : M Expr)
         (fuel : nat) (expr : Expr) {struct fuel} : M Expr :=
  b <- match_ types ;;
  if b then
    match fuel with
    | O => stuck
    | S fuel' =>
        op <- previous ;;
        right <- operand ;;
        binaryLoop types operand fuel' (Binary op expr right)
    end
  else ret expr.

Section Grammar.

(** The call of [expression] inside [primary]. *)
Variable expression : M Expr.

(* primary        -> NUMBER | STRING | "true" | "false" | "nil" | "(" expression ")" *)
Definition primary : M Expr :=
  b <- match_ [NUMBER; STRING] ;;
  if b then tok <- previous ;; ret (Literal (Literal_ tok)) else
  b <- match_ [TRUE] ;;
  if b then ret (Literal (VBool true)) else
  b <- match_ [FALSE] ;;
  if b then ret (Literal (VBool false)) else
  b <- match_ [NIL] ;;
  if b then ret (Literal (VStr "null")) else
  b <- match_ [LEFT_PAREN] ;;
  if b then
    expr <- expression ;;
    consume RIGHT_PAREN "Expect ')' after expression." ;;
    ret (Grouping expr)
  else
  tok <- peek ;; panic (error tok "Expect expression").

(* unary          -> ("-" | "!") unary | primary *)
Fixpoint unary (fuel : nat) {struct fuel} : M Expr :=
  b <- match_ [MINUS; BANG] ;;
  if negb b then primary else
  match fuel with
  | O => stuck
  | S fuel' =>
      op <- previous ;;
      right <- unary fuel' ;;
      ret (Unary op right)
  end.

(* factor         -> unary (("*" | "/") unary)* *)
Definition factor (fuel : nat) : M Expr :=
  expr <- unary fuel ;;
  binaryLoop [STAR; SLASH; AND] (unary fuel) fuel expr.

(* term           -> factor (("+" | "-") factor)* *)
Definition term (fuel : nat) : M Expr :=
  expr <- factor fuel ;;
  binaryLoop [PLUS; MINUS; OR] (factor fuel) fuel expr.

(* comparison     -> term ((">" | ">=" | "<" | "<=") term) * *)
Definition comparison (fuel : nat) : M Expr :=
  expr <- term fuel ;;
  binaryLoop [GREATER; GREATER_EQUAL; LESS; LESS_EQUAL] (term fuel) fuel expr.

(* equality       -> comparison (("==" | "!=") comparison)* *)
Definition equality (fuel : nat) : M Expr :=
  expr <- comparison fuel ;;
  binaryLoop [EQUAL_EQUAL; BANG_EQUAL] (comparison fuel) fuel expr.

End Grammar.

Fixpoint expression (fuel : nat) {struct fuel} : M Expr :=
  match fuel with
  | O => stuck
  | S fuel' => equality (expression fuel') fuel
  end.

(** [Parse]: the deferred function turns a recovered [ParseError] into the
    error result; any other recovered value fails its type assertion and the
    call panics. *)
Definition ParseFuel (fuel : nat) (p : t)
  : outcome Empty_set (option Expr * option ParseError) :=
  match expression fuel p with
  | Ret (expr, _) => Ret (Some expr, None)
  | Panic err => Ret (None, Some err)
  | Fault => Fault
  | Stuck => Stuck
  end.

(** No loop and no recursion of the parser runs more often than there are
    tokens, and a larger bound changes nothing ([expression_parses],
    [ParseFuel_refines]). *)
Definition Parse (p : t) : outcome Empty_set (option Expr * option ParseError) :=
  ParseFuel (S (List.length (tokens p))) p.

(** *** Notions used to state and prove the properties of the parser *)

Definition tokenHere (p : t) (tok : Token) : Prop :=
  nth_error (tokens p) (current p) = Some tok.

Definition skip (p : t) : t := set_current (current p + 1) p.

(** [accepts types tok]: [match] consumes [tok] when called with [types]. *)
Definition accepts (types : list TokenType) (tok : Token) : bool :=
  negb (TokenType_beq (Type_ tok) EOF) && existsb (TokenType_beq (Type_ tok)) types.

(** An end-of-input token lies at the cursor or after it. *)
Definition guarded (p : t) : Prop :=
  exists j tok, current p <= j /\ nth_error (tokens p) j = Some tok /\ Type_ tok = EOF.

Definition room (p : t) : nat := List.length (tokens p) - current p.

Definition grammarError (p : t) (err : ParseError) : Prop :=
  exists tok message,
    err = error tok message /\ In tok (tokens p) /\
    (message = "Expect expression" \/ message = "Expect ')' after expression.").

(** [good p o]: an outcome reached from the state [p] is a return in a
    guarded state of the same tokens with the cursor not moved back, or the
    panic of a violation of the grammar. *)
Definition good {A} (p : t) (o : outcome ParseError (A * t)) : Prop :=
  (exists a p', o = Ret (a, p') /\ tokens p' = tokens p /\
                current p <= current p' /\ guarded p') \/
  (exists err, o = Panic err /\ grammarError p err).

Definition parses {A} (m : M A) (p : t) : Prop := good p (m p).

(** The four binary levels of the grammar, with the operators and the
    operand rule of each. *)
Inductive Level : Set := Factor | Term | Comparison | Equality.

Definition operators (l : Level) : list TokenType :=
  match l with
  | Factor => [STAR; SLASH; AND]
  | Term => [PLUS; MINUS; OR]
  | Comparison => [GREATER; GREATER_EQUAL; LESS; LESS_EQUAL]
  | Equality => [EQUAL_EQUAL; BANG_EQUAL]
  end.

Definition levelRule (sub : M Expr) (l : Level) : nat -> M Expr :=
  match l with
  | Factor => factor sub
  | Term => term sub
  | Comparison => comparison sub
  | Equality => equality sub
  end.

Definition operandRule (sub : M Expr) (l : Level) : nat -> M Expr :=
  match l with
  | Factor => unary sub
  | Term => factor sub
  | Comparison => term sub
  | Equality => comparison sub
  end.

End Parser.

(** ** The AST printer *)

Module AstPrinter.

Section WithLibrary.

(** [fmt.Sprintf("%v", f)] for a [float64]. *)
Variable FormatFloat : float64 -> string.

(** [parenthesize], on the renderings of the sub-expressions. *)
Definition parenthesize (name : string) (parts : list string) : string :=
  "(" ++ name ++ String.concat EmptyString (map (fun part => " " ++ part) parts) ++ ")".

Definition visitLiteralExpr (v : value) : string :=
  match v with
  | VNil => "nil"
  | _ => fmt_value FormatFloat v
  end.

Fixpoint Print (expr : Expr) : string :=
  match expr with
  | Binary op l r => parenthesize (Lexeme op) [Print l; Print r]
  | Grouping e => parenthesize "group" [Print e]
  | Literal v => visitLiteralExpr v
  | Unary op r => parenthesize (Lexeme op) [Print r]
  end.

End WithLibrary.

End AstPrinter.

(** ** The interpreter (interpreter.go) *)

Module Interpreter.

(** [RuntimeError], by its message. *)
Definition RuntimeError : Type := string.

(** The interpreter has no state: its methods return or panic. *)
Definition M (A : Type) : Type := outcome RuntimeError A.

Definition bindM {A B} (m : M A) (k : A -> M B) : M B :=
  match m with
  | Ret a => k a
  | Panic e => Panic e
  | Fault => Fault
  | Stuck => Stuck
  end.

Declare Scope eval_scope.
Delimit Scope eval_scope with eval.
Notation "x <- m ;; k" := (bindM m (fun x => k))
  (at level 61, m at next level, right associativity) : eval_scope.
Notation "m ;; k" := (bindM m (fun _ => k))
  (at level 61, right associativity) : eval_scope.

Definition isTruthy (obj : value) : bool :=
  match obj with
  | VNil => false
  | VBool v => v
  | _ => true
  end.

(** [reflect.DeepEqual] on two non-nil dynamic values: equal dynamic types,
    and [==] on the contents. *)
Definition DeepEqual (a b : value) : bool :=
  match a, b with
  | VNil, VNil => true
  | VNum x, VNum y => feq x y
  | VStr x, VStr y => String.eqb x y
  | VBool x, VBool y => Bool.eqb x y
  | _, _ => false
  end.

Definition isEqual (a b : value) : bool :=
  match a, b with
  | VNil, VNil => true
  | VNil, _ => false
  | _, _ => DeepEqual a b
  end.

(** [v.(float64)]: the type assertion panics on any other dynamic type. *)
Definition asFloat (v : value) : M float64 :=
  match v with
  | VNum f => Ret f
  | _ => Fault
  end.

Section WithLibrary.

(** [fmt.Sprintf("%v", f)] for a [float64]. *)
Variable FormatFloat : float64 -> string.

Definition checkNumberOperands (token : Token) (left right : value) : M unit :=
  match left, right with
  | VNum _, VNum _ => Ret tt
  | _, _ => Panic ("Operands must be numbers: " ++ Token_String FormatFloat token)
  end.

Definition checkNumberOperand (token : Token) (operand : value) : M unit :=
  match operand with
  | VNum _ => Ret tt
  | _ => Panic ("Operand must be number: " ++ Token_String FormatFloat token)
  end.

Local Open Scope eval_scope.

(** [left.(float64) op right.(float64)] after [checkNumberOperands]. *)
Definition arith (token : Token) (left right : value)
           (op : float64 -> float64 -> value) : M value :=
  checkNumberOperands token left right ;;
  x <- asFloat left ;;
  y <- asFloat right ;;
  Ret (op x y).

Definition visitUnaryExpr (Operator : Token) (operand : value) : M value :=
  match Type_ Operator with
  | MINUS =>
      checkNumberOperand Operator operand ;;
      x <- asFloat operand ;;
      Ret (VNum (fneg x))
  | BANG => Ret (VBool (negb (isTruthy operand)))
  (* we should never reach this as we handled all unary operators *)
  | _ => Ret VNil
  end.

Definition visitBinaryExpr (Operator : Token) (left right : value) : M value :=
  match Type_ Operator with
  | MINUS => arith Operator left right (fun x y => VNum (fsub x y))
  | SLASH => arith Operator left right (fun x y => VNum (fdiv x y))
  | STAR => arith Operator left right (fun x y => VNum (fmul x y))
  | PLUS =>
      match left, right with
      | VNum x, VNum y => Ret (VNum (fadd x y))
      | VStr x, VStr y => Ret (VStr (x ++ y))
      | _, _ => Panic ("Operands must be two numbers or two strings: "
                         ++ Token_String FormatFloat Operator)
      end
  | GREATER => arith Operator left right (fun x y => VBool (flt y x))
  | GREATER_EQUAL => arith Operator left right (fun x y => VBool (fle y x))
  | LESS => arith Operator left right (fun x y => VBool (flt x y))
  | LESS_EQUAL => arith Operator left right (fun x y => VBool (fle x y))
  | EQUAL_EQUAL => Ret (VBool (isEqual left right))
  | BANG_EQUAL => Ret (VBool (negb (isEqual left right)))
  | OR => Ret (VBool (isTruthy left || isTruthy right))
  | AND => Ret (VBool (isTruthy left && isTruthy right))
  (* we should never reach this as we handled all binary operators *)
  | _ => Ret VNil
  end.

(** [evaluate]: the dispatch of [accept] on the node, and the four visit
    methods; both operands of a binary node are evaluated, left first, before
    the operator is looked at. *)
Fixpoint evaluate (expr : Expr) : M value :=
  match expr with
  | Literal v => Ret v
  | Grouping e => evaluate e
  | Unary op r =>
      operand <- evaluate r ;;
      visitUnaryExpr op operand
  | Binary op l r =>
      left <- evaluate l ;;
      right <- evaluate r ;;
      visitBinaryExpr op left right
  end.


End WithLibrary.

End Interpreter.

(** ** Running a source text

    The three stages in a row, as the properties of source texts need them:
    scan, parse the tokens with a fresh parser, evaluate the tree. *)

Section Pipeline.

Variable ParseFloat : string -> float64.
Variable FormatFloat : float64 -> string.

Inductive run_result : Type :=
| Evaluated (expr : Expr) (r : Interpreter.M value)
| SyntaxError (err : Parser.ParseError)
| Crashed.

Definition parseSource (src : string) : outcome Empty_set (option Expr * option Parser.ParseError) :=
  match Scanner.ScanTokens ParseFloat src with
  | Ret (toks, _) => Parser.Parse (Parser.NewParser toks)
  | Panic e => Panic e
  | Fault => Fault
  | Stuck => Stuck
  end.

Definition evaluateSource (src : string) : run_result :=
  match parseSource src with
  | Ret (Some expr, _) => Evaluated expr (Interpreter.evaluate FormatFloat expr)
  | Ret (None, Some err) => SyntaxError err
  | _ => Crashed
  end.

End Pipeline.

(** ** A reference instance of the library functions

    Used to run the program on examples.  [ParseFloat] reads the decimal
    numerals that the scanner passes to it, a run of digits with an optional
    fraction, and rounds to nearest, ties to even, as [strconv.ParseFloat]
    does.  [FormatFloat] agrees with the [%v] of [fmt] on NaN, the
    infinities, the zeros and the integers below [10^6] in magnitude; on any
    other number it prints the mantissa and binary exponent, as the verb [%b]
    does, where [%v] prints the shortest decimal that reads back. *)

Module Reference.

Definition digitOf (c : ascii) : Z := Z.of_nat (nat_of_ascii c) - 48.

(** The value of the leading digits of [s] appended to [acc], their number
    added to [n], and the rest of [s]. *)
Fixpoint readDigits (s : string) (acc : Z) (n : nat) : Z * nat * string :=
  match s with
  | String c s' =>
      if isDigit c then readDigits s' (10 * acc + digitOf c)%Z (S n) else (acc, n, s)
  | EmptyString => (acc, n, s)
  end.

(** [num / den], correctly rounded. *)
Definition ofRatio (num den : Z) : float64 :=
  match num, den with
  | Zpos n, Zpos d => fdiv (S754_finite false n 0) (S754_finite false d 0)
  | _, _ => fzero
  end.

Definition ParseFloat (s : string) : float64 :=
  let '(ip, _, rest) := readDigits s 0%Z 0 in
  match rest with
  | EmptyString => ofRatio ip 1
  | String c frac =>
      if (c =? ".")%char then
        let '(m, k, rest') := readDigits frac ip 0 in
        match rest' with
        | EmptyString => ofRatio m (10 ^ Z.of_nat k)
        | _ => fzero
        end
      else fzero
  end.

(** [m * 2^e] when it is an integer. *)
Definition integral (m : positive) (e : Z) : option Z :=
  match e with
  | Z0 => Some (Zpos m)
  | Zpos _ => Some (Zpos m * 2 ^ e)%Z
  | Zneg _ =>
      if (Zpos m mod 2 ^ (- e) =? 0)%Z then Some (Zpos m / 2 ^ (- e))%Z else None
  end.

Definition FormatFloat (f : float64) : string :=
  match f with
  | S754_nan => "NaN"
  | S754_infinity s => if s then "-Inf" else "+Inf"
  | S754_zero s => if s then "-0" else "0"
  | S754_finite s m e =>
      (if s then "-" else EmptyString) ++
      match integral m e with
      | Some n =>
          if (n <? 10 ^ 6)%Z then fmt_int n
          else fmt_int (Zpos m) ++ "p" ++ (if (0 <=? e)%Z then "+" else EmptyString) ++ fmt_int e
      | None => fmt_int (Zpos m) ++ "p" ++ (if (0 <=? e)%Z then "+" else EmptyString) ++ fmt_int e
      end
  end.

End Reference.

(** [contains s sub]: [sub] occurs in [s]. *)
Definition contains (s sub : string) : Prop :=
  exists pre post, s = pre ++ sub ++ post.

Definition isNaN (v : value) : bool :=
  match v with
  | VNum S754_nan => true
  | _ => false
  end.

(** ** Notions used to state the further properties

    Of the scanner: the pieces that [scanToken] cuts the source into.  Of
    the parser: where the nodes of a tree come from, and parsers that agree
    up to an end-of-input token.  Of the interpreter: the kinds of values and
    the operators that the visitors have a case for. *)

Module ScannerMore.
Import Scanner.

(** Line feeds: [lfBefore src n] counts them among the first [n] bytes. *)
Definition lfOf (c : ascii) : Z := if (c =? LF)%char then 1%Z else 0%Z.

Fixpoint lfBefore (src : string) (n : nat) : Z :=
  match n, src with
  | S n', String c src' => (lfOf c + lfBefore src' n')%Z
  | _, _ => 0%Z
  end.

Fixpoint allChars (p : ascii -> bool) (s : string) : bool :=
  match s with
  | EmptyString => true
  | String c s' => p c && allChars p s'
  end.

Definition notQuote (c : ascii) : bool := negb (c =? QUOTE)%char.
Definition notLF (c : ascii) : bool := negb (c =? LF)%char.

(** [stepped s s']: one byte consumed, a line feed counted. *)
Definition stepped (s s' : t) : Prop :=
  source s' = source s /\ start s' = start s /\
  tokens s' = tokens s /\ errors s' = errors s /\
  current s' = current s + 1 /\
  line s' = (line s + lfOf (curByte s))%Z.

(** [run pred s s']: a loop of the scanner went from [s] to [s'] over bytes
    that satisfy [pred], counting the line feeds among them. *)
Definition run (pred : ascii -> bool) (s s' : t) : Prop :=
  advanced s s' /\
  line s' = (line s + lfBefore (source s) (current s') - lfBefore (source s) (current s))%Z /\
  (forall i, current s <= i < current s' ->
     exists c, String.get i (source s) = Some c /\ pred c = true).

(** [s.source[i]] when it is read behind a test of [isAtEnd]: the byte, or
    the zero byte of [peek] and [peekNext] past the end. *)
Definition byteOr (src : string) (i : nat) : ascii :=
  match String.get i src with Some c => c | None => NUL end.

(** The lexemes of the tokens that [scanToken] adds without a look at the
    text: the cases of its switch. *)
Definition punctuation (typ : TokenType) : option string :=
  match typ with
  | LEFT_PAREN => Some "(" | RIGHT_PAREN => Some ")"
  | LEFT_BRACE => Some "{" | RIGHT_BRACE => Some "}"
  | COMMA => Some "," | DOT => Some "." | MINUS => Some "-" | PLUS => Some "+"
  | SEMICOLON => Some ";" | STAR => Some "*" | SLASH => Some "/"
  | BANG => Some "!" | BANG_EQUAL => Some "!="
  | EQUAL => Some "=" | EQUAL_EQUAL => Some "=="
  | LESS => Some "<" | LESS_EQUAL => Some "<="
  | GREATER => Some ">" | GREATER_EQUAL => Some ">="
  | _ => None
  end.

(** The text of an identifier: a letter, then letters and digits. *)
Definition isIdentifierText (text : string) : bool :=
  match text with
  | EmptyString => false
  | String c rest => isAlpha c && allChars isAlphaNumeric rest
  end.

Fixpoint dropDigits (text : string) : string :=
  match text with
  | EmptyString => EmptyString
  | String c rest => if isDigit c then dropDigits rest else text
  end.

(** The text of a number: digits, then possibly a dot and digits. *)
Definition isNumeral (text : string) : bool :=
  match text, dropDigits text with
  | String c _, EmptyString => isDigit c
  | String c _, String dot frac =>
      isDigit c && (dot =? ".")%char && (0 <? String.length frac) && allChars isDigit frac
  | EmptyString, _ => false
  end.

Section WithLibrary.

Variable ParseFloat : string -> float64.

(** [tokenOK tok]: the lexeme and the literal of a token fit its type. *)
Definition tokenOK (tok : Token) : Prop :=
  match Type_ tok with
  | EOF => False
  | NUMBER =>
      isNumeral (Lexeme tok) = true /\ Literal_ tok = VNum (ParseFloat (Lexeme tok))
  | STRING =>
      exists body, Lexeme tok = String QUOTE (body ++ String QUOTE EmptyString)
                   /\ allChars notQuote body = true /\ Literal_ tok = VStr body
  | IDENTIFIER =>
      isIdentifierText (Lexeme tok) = true /\ lookup (Lexeme tok) keywords = None
      /\ Literal_ tok = VNil
  | typ =>
      (punctuation typ = Some (Lexeme tok) \/ lookup (Lexeme tok) keywords = Some typ)
      /\ Literal_ tok = VNil
  end.

(** [munched typ next]: a token of type [typ] could not have taken the byte
    [next] that follows it. *)
Definition munched (typ : TokenType) (next : ascii) : bool :=
  match typ with
  | BANG | EQUAL | LESS | GREATER => negb (next =? "=")%char
  | SLASH => negb (next =? "/")%char
  | NUMBER => negb (isDigit next)
  | IDENTIFIER | AND | CLASS | ELSE | FALSE | FUN | FOR | IF | NIL | OR
  | PRINT | RETURN | SUPER | THIS | TRUE | VAR | WHILE => negb (isAlphaNumeric next)
  | _ => true
  end.

(** What one call of [scanToken] makes of the bytes it consumes. *)
Inductive piece : Type :=
| Blank
| Tok (tok : Token)
| Err (e : string).

(** [describes src lo hi p]: [p] is what [scanToken] makes of [src[lo:hi]]. *)
Definition describes (src : string) (lo hi : nat) (p : piece) : Prop :=
  let text := substring lo (hi - lo) src in
  match p with
  | Blank =>
      (exists c, text = String c EmptyString /\ isSpace c = true) \/
      (exists body, text = String "/" (String "/" body) /\ allChars notLF body = true
                    /\ (hi = String.length src \/ byteOr src hi = LF))
  | Tok tok =>
      Lexeme tok = text /\ Line tok = lfBefore src hi /\ tokenOK tok
      /\ munched (Type_ tok) (byteOr src hi) = true
  | Err e =>
      (e = lineError (lfBefore src hi) "Unexpected character."
       /\ exists c, text = String c EmptyString /\ startsLexeme c = false) \/
      (e = lineError (lfBefore src hi) "Unterminated string."
       /\ hi = String.length src
       /\ exists body, text = String QUOTE body /\ allChars notQuote body = true)
  end.

(** [covers src lo segs]: the pieces [segs], each with the offset of its end,
    follow one another from [lo] to the end of [src]. *)
Fixpoint covers (src : string) (lo : nat) (segs : list (nat * piece)) : Prop :=
  match segs with
  | [] => lo = String.length src
  | (hi, p) :: rest =>
      lo < hi <= String.length src /\ describes src lo hi p /\ covers src hi rest
  end.

Definition tokenOf (seg : nat * piece) : list Token :=
  match snd seg with Tok tok => [tok] | _ => [] end.

Definition errorOf (seg : nat * piece) : list string :=
  match snd seg with Err e => [e] | _ => [] end.

Definition tokensOf (segs : list (nat * piece)) : list Token := flat_map tokenOf segs.
Definition errorsOf (segs : list (nat * piece)) : list string := flat_map errorOf segs.

(** [result s s' p]: an iteration of the loop of [ScanTokens] went from [s]
    to [s'] and made [p]. *)
Definition result (s s' : t) (p : piece) : Prop :=
  source s' = source s /\
  current s < current s' <= String.length (source s) /\
  line s' = lfBefore (source s) (current s') /\
  tokens s' = (tokens s ++ tokenOf (current s', p))%list /\
  errors s' = (errors s ++ errorOf (current s', p))%list /\
  describes (source s) (current s) (current s') p.

End WithLibrary.

(** The line feeds of a source. *)
Definition lineFeeds (src : string) : Z := lfBefore src (String.length src).

Fixpoint ascending (xs : list Z) : Prop :=
  match xs with
  | x :: (y :: _) as rest => (x <= y)%Z /\ ascending rest
  | _ => True
  end.

End ScannerMore.

Module ParserMore.
Import Parser.

(** The token kinds that can begin an expression. *)
Definition starters : list TokenType :=
  [MINUS; BANG; NUMBER; STRING; TRUE; FALSE; NIL; LEFT_PAREN].

(** The level whose rule is the operand rule of a level: the next tighter one. *)
Definition tighter (l : Level) : option Level :=
  match l with
  | Factor => None
  | Term => Some Factor
  | Comparison => Some Term
  | Equality => Some Comparison
  end.

(** [fromTokens toks expr]: every operator of the tree is a token of [toks]
    of a kind that the rule which builds the node accepts, and every literal
    is a boolean, the string that stands for [nil], or the literal of a
    NUMBER or STRING token of [toks]. *)
Fixpoint fromTokens (toks : list Token) (expr : Expr) : Prop :=
  match expr with
  | Binary op l r =>
      In op toks /\
      (exists lv, In (Type_ op) (operators lv)) /\
      fromTokens toks l /\ fromTokens toks r
  | Unary op r =>
      In op toks /\ (Type_ op = MINUS \/ Type_ op = BANG) /\ fromTokens toks r
  | Literal v =>
      v = VBool true \/ v = VBool false \/ v = VStr "null" \/
      exists tok, In tok toks /\ (Type_ tok = NUMBER \/ Type_ tok = STRING) /\
                  v = Literal_ tok
  | Grouping e => fromTokens toks e
  end.

(** [builds m]: what [m] returns is built from the tokens, which it leaves
    as they are. *)
Definition builds (m : M Expr) : Prop :=
  forall p expr p', m p = Ret (expr, p') ->
    tokens p' = tokens p /\ fromTokens (tokens p) expr.

(** Two parsers on token slices that agree up to an end-of-input token at
    index [n], with the same cursor, at or before it. *)
Definition sameUpTo (n : nat) (p q : t) : Prop :=
  current p = current q /\ current p <= n /\
  (exists tok, nth_error (tokens p) n = Some tok /\ Type_ tok = EOF) /\
  (forall i, i <= n -> nth_error (tokens p) i = nth_error (tokens q) i).

Definition sameOutcome {A} (n : nat) (o1 o2 : outcome ParseError (A * t)) : Prop :=
  match o1, o2 with
  | Ret (a, p'), Ret (b, q') => a = b /\ sameUpTo n p' q'
  | Panic e1, Panic e2 => e1 = e2
  | Fault, Fault => True
  | Stuck, Stuck => True
  | _, _ => False
  end.

Definition agrees {A} (n : nat) (m : M A) : Prop :=
  forall p q, sameUpTo n p q -> sameOutcome n (m p) (m q).

End ParserMore.

Module InterpreterMore.

(** The kind of a dynamic value: its dynamic type in Go. *)
Inductive Kind : Set := KNil | KNum | KStr | KBool.

Definition kindOf (v : value) : Kind :=
  match v with
  | VNil => KNil
  | VNum _ => KNum
  | VStr _ => KStr
  | VBool _ => KBool
  end.

(** The binary operators that [visitBinaryExpr] sends through
    [checkNumberOperands], each with what it computes on two numbers. *)
Definition numericOp (typ : TokenType) : option (float64 -> float64 -> value) :=
  match typ with
  | MINUS => Some (fun x y => VNum (fsub x y))
  | SLASH => Some (fun x y => VNum (fdiv x y))
  | STAR => Some (fun x y => VNum (fmul x y))
  | GREATER => Some (fun x y => VBool (flt y x))
  | GREATER_EQUAL => Some (fun x y => VBool (fle y x))
  | LESS => Some (fun x y => VBool (flt x y))
  | LESS_EQUAL => Some (fun x y => VBool (fle x y))
  | _ => None
  end.

(** The operator kinds that the two [switch] statements of the interpreter
    have a case for. *)
Definition handledUnary : list TokenType := [MINUS; BANG].

Definition handledBinary : list TokenType :=
  [MINUS; SLASH; STAR; PLUS; GREATER; GREATER_EQUAL; LESS; LESS_EQUAL;
   EQUAL_EQUAL; BANG_EQUAL; OR; AND].

(** Every operator of the tree has a case in the interpreter. *)
Fixpoint operatorsHandled (expr : Expr) : Prop :=
  match expr with
  | Binary op l r =>
      In (Type_ op) handledBinary /\ operatorsHandled l /\ operatorsHandled r
  | Unary op r => In (Type_ op) handledUnary /\ operatorsHandled r
  | Literal _ => True
  | Grouping e => operatorsHandled e
  end.

(** No literal of the tree holds the absent value. *)
Fixpoint literalsPresent (expr : Expr) : Prop :=
  match expr with
  | Binary _ l r => literalsPresent l /\ literalsPresent r
  | Unary _ r => literalsPresent r
  | Literal v => v <> VNil
  | Grouping e => literalsPresent e
  end.

End InterpreterMore.

(** * Properties *)

(** ** The monad, strings and token kinds *)

Lemma bind_Ret {St E A B} (m : prog St E A) (k : A -> prog St E B) s a s' :
  m s = Ret (a, s') -> bind m k s = k a s'.
Proof. intros H. unfold bind. now rewrite H. Qed.

Lemma get_lt (s : string) : forall i : nat, i < String.length s -> exists c, String.get i s = Some c.
Proof.
  induction s as [|a s IH]; cbn; intros i Hi; [lia|].
  destruct i as [|i]; [now exists a|]. apply IH. lia.
Qed.

Lemma get_ge (s : string) : forall i, String.length s <= i -> String.get i s = None.
Proof.
  induction s as [|a s IH]; cbn; intros i Hi; [reflexivity|].
  destruct i as [|i]; [lia|]. apply IH. lia.
Qed.

Lemma refines_refl {E A} (o : outcome E A) : refines o o.
Proof. now intros _. Qed.

Lemma bind_refines {St E A B} (m1 m2 : prog St E A) (k1 k2 : A -> prog St E B) s :
  refines (m1 s) (m2 s) ->
  (forall a s', refines (k1 a s') (k2 a s')) ->
  refines (bind m1 k1 s) (bind m2 k2 s).
Proof.
  intros Hm Hk. unfold bind. destruct (m1 s) as [[a s']| | |] eqn:Hm1.
  - rewrite Hm by discriminate. apply Hk.
  - rewrite Hm by discriminate. apply refines_refl.
  - rewrite Hm by discriminate. apply refines_refl.
  - intros H. now destruct H.
Qed.

Lemma while_refines {St E} (cond : prog St E bool) (body1 body2 : prog St E unit) :
  (forall s, refines (body1 s) (body2 s)) ->
  forall n m, n <= m -> forall s, refines (while cond body1 n s) (while cond body2 m s).
Proof.
  intros Hb. induction n as [|n IH]; intros m Hm s.
  - destruct m as [|m]; cbn [while]; apply bind_refines; try apply refines_refl;
      intros [|] s'; try apply refines_refl; intros H; now destruct H.
  - destruct m as [|m]; [lia|]. cbn [while].
    apply bind_refines; [apply refines_refl|]. intros [|] s'; [|apply refines_refl].
    apply bind_refines; [apply Hb|]. intros _ s''. apply IH. lia.
Qed.

Lemma bind_Panic {St E A B} (m : prog St E A) (k : A -> prog St E B) s e :
  m s = Panic e -> bind m k s = Panic e.
Proof. intros H. unfold bind. now rewrite H. Qed.

Lemma append_assoc (a b c : string) : ((a ++ b) ++ c = a ++ (b ++ c))%string.
Proof. induction a as [|x a IH]; cbn; [reflexivity|now rewrite IH]. Qed.

Lemma TokenType_beq_spec (a b : TokenType) : reflect (a = b) (TokenType_beq a b).
Proof.
  destruct (TokenType_beq a b) eqn:H; constructor.
  - now apply internal_TokenType_dec_bl.
  - intros ->. rewrite internal_TokenType_dec_lb in H; congruence.
Qed.

Lemma TokenType_beq_refl (a : TokenType) : TokenType_beq a a = true.
Proof. now destruct (TokenType_beq_spec a a). Qed.

(** ** The scanner *)

Module ScannerFacts.
Import Scanner.

Lemma isAtEnd_eq s : isAtEnd s = Ret (atEnd s, s).
Proof. reflexivity. Qed.

Lemma byteAt_current s : current s < String.length (source s) ->
  byteAt (current s) s = Ret (curByte s, s).
Proof.
  intros H. unfold byteAt, curByte, bind, get_state, fault, ret.
  destruct (get_lt (source s) (current s) H) as [c ->]. reflexivity.
Qed.

Lemma advance_eq s : current s < String.length (source s) ->
  advance s = Ret (curByte s, skip s).
Proof.
  intros H. unfold advance. 
  rewrite (bind_Ret _ _ s s s eq_refl).
  rewrite (bind_Ret _ _ s _ _ (byteAt_current s H)). reflexivity.
Qed.

Lemma atEnd_false s : atEnd s = false <-> current s < String.length (source s).
Proof. unfold atEnd. rewrite Nat.leb_gt. reflexivity. Qed.

Lemma atEnd_true s : atEnd s = true <-> String.length (source s) <= current s.
Proof. unfold atEnd. rewrite Nat.leb_le. reflexivity. Qed.

Lemma peek_eq s : peek s = Ret (peekByte s, s).
Proof.
  unfold peek, peekByte. rewrite (bind_Ret _ _ s _ _ (isAtEnd_eq s)).
  destruct (atEnd s) eqn:He; [reflexivity|].
  rewrite (bind_Ret _ _ s s s eq_refl).
  apply byteAt_current. now apply atEnd_false.
Qed.

Lemma peekNext_total s : exists c, peekNext s = Ret (c, s).
Proof.
  unfold peekNext. rewrite (bind_Ret _ _ s s s eq_refl).
  destruct (String.length (source s) <=? current s + 1) eqn:He.
  - now exists NUL.
  - apply Nat.leb_gt in He. unfold byteAt, bind, get_state, fault, ret.
    destruct (get_lt (source s) (current s + 1) He) as [c ->]. now exists c.
Qed.

Lemma match_eq expected s :
  match_ expected s = Ret (matches expected s, if matches expected s then skip s else s).
Proof.
  unfold match_, matches. rewrite (bind_Ret _ _ s _ _ (isAtEnd_eq s)).
  destruct (atEnd s) eqn:He; [reflexivity|]. cbn [negb andb].
  apply atEnd_false in He.
  rewrite (bind_Ret _ _ s s s eq_refl).
  rewrite (bind_Ret _ _ s _ _ (byteAt_current s He)).
  destruct (curByte s =? expected)%char; cbn [negb]; [|reflexivity].
  rewrite (bind_Ret _ _ s _ _ (advance_eq s He)). reflexivity.
Qed.

Lemma sourceSlice_eq lo hi s : lo <= hi <= String.length (source s) ->
  sourceSlice lo hi s = Ret (substring lo (hi - lo) (source s), s).
Proof.
  intros [H1 H2]. unfold sourceSlice, slice.
  rewrite (bind_Ret _ _ s s s eq_refl).
  apply Nat.leb_le in H1, H2. now rewrite H1, H2.
Qed.

Lemma addTokenLiteral_eq typ literal s :
  start s <= current s <= String.length (source s) ->
  addTokenLiteral typ literal s = Ret (tt, pushToken typ literal s).
Proof.
  intros H. unfold addTokenLiteral.
  rewrite (bind_Ret _ _ s s s eq_refl).
  rewrite (bind_Ret _ _ s _ _ (sourceSlice_eq _ _ s H)). reflexivity.
Qed.

Lemma ext_refl s : ext s s.
Proof.
  repeat split; auto.
  - exists []. now rewrite app_nil_r.
  - exists []. now rewrite app_nil_r.
Qed.

Lemma ext_trans s1 s2 s3 : ext s1 s2 -> ext s2 s3 -> ext s1 s3.
Proof.
  intros (A1 & A2 & A3 & (n1 & A4 & A5) & (e1 & A6)) (B1 & B2 & B3 & (n2 & B4 & B5) & (e2 & B6)).
  repeat split.
  - congruence.
  - lia.
  - rewrite A1 in B3. intros H. apply B3. auto.
  - exists (n1 ++ n2)%list. rewrite B4, A4, app_assoc. split; [reflexivity|].
    apply Forall_app. now split.
  - exists (e1 ++ e2)%list. now rewrite B6, A6, app_assoc.
Qed.

Lemma ext_advanced s s' : advanced s s' -> ext s s'.
Proof.
  intros (A1 & A2 & A3 & A4 & A5 & A6). repeat split; auto.
  - exists []. now rewrite app_nil_r.
  - exists []. now rewrite app_nil_r.
Qed.

Lemma ext_skip s : current s < String.length (source s) -> ext s (skip s).
Proof.
  intros H. repeat split; cbn; try lia.
  - exists []. now rewrite app_nil_r.
  - exists []. now rewrite app_nil_r.
Qed.

Lemma ext_set_line l s : ext s (set_line l s).
Proof.
  repeat split; cbn; auto.
  - exists []. now rewrite app_nil_r.
  - exists []. now rewrite app_nil_r.
Qed.

Lemma ext_pushToken typ literal s : typ <> EOF -> ext s (pushToken typ literal s).
Proof.
  intros H. repeat split; cbn; auto.
  - eexists. split; [reflexivity|]. repeat constructor. exact H.
  - exists []. now rewrite app_nil_r.
Qed.

Lemma ext_set_errors e s : ext s (set_errors (errors s ++ [e])%list s).
Proof.
  repeat split; cbn; auto.
  - exists []. now rewrite app_nil_r.
  - now exists [e].
Qed.

Lemma advanced_refl s : advanced s s.
Proof. repeat split; auto. Qed.

Lemma advanced_trans s1 s2 s3 : advanced s1 s2 -> advanced s2 s3 -> advanced s1 s3.
Proof.
  intros (A1 & A2 & A3 & A4 & A5 & A6) (B1 & B2 & B3 & B4 & B5 & B6).
  repeat split; try congruence; try lia.
  rewrite A1 in B6. intros H. apply B6. auto.
Qed.

Lemma advanced_step l s :
  current s < String.length (source s) -> advanced s (set_line l (skip s)).
Proof. intros H. repeat split; cbn; lia. Qed.

(** The loops of the scanner: the condition only looks at the scanner, holds
    only before the end of the source, and the body consumes one byte. *)
Lemma scan_while (cond : M bool) (body : M unit) (test : t -> bool) :
  (forall s, cond s = Ret (test s, s)) ->
  (forall s, test s = true -> current s < String.length (source s)) ->
  (forall s, test s = true -> exists l, body s = Ret (tt, set_line l (skip s))) ->
  forall fuel s, String.length (source s) - current s <= fuel ->
    exists s', while cond body fuel s = Ret (tt, s') /\ advanced s s' /\ test s' = false.
Proof.
  intros Hc Ht Hb. induction fuel as [|fuel IH]; intros s Hf.
  - exists s. cbn [while]. rewrite (bind_Ret _ _ s _ _ (Hc s)).
    destruct (test s) eqn:E.
    + apply Ht in E. lia.
    + repeat split; auto.
  - cbn [while]. rewrite (bind_Ret _ _ s _ _ (Hc s)).
    destruct (test s) eqn:E.
    + destruct (Hb s E) as [l Hl]. pose proof (Ht s E) as Hlt.
      rewrite (bind_Ret _ _ s _ _ Hl).
      destruct (IH (set_line l (skip s))) as (s' & H1 & H2 & H3).
      { cbn. lia. }
      exists s'. split; [exact H1|]. split; [|exact H3].
      eapply advanced_trans; [|exact H2]. now apply advanced_step.
    + exists s. repeat split; auto.
Qed.

Lemma cond_peek_eq (p : ascii -> bool) s :
  (c <- peek ;; ret (p c)) s = Ret (testPeek p s, s).
Proof. now rewrite (bind_Ret _ _ s _ _ (peek_eq s)). Qed.

Lemma cond_until_eq (stop : ascii) s :
  (c <- peek ;; if negb (c =? stop)%char then e <- isAtEnd ;; ret (negb e) else ret false) s
  = Ret (testUntil stop s, s).
Proof.
  rewrite (bind_Ret _ _ s _ _ (peek_eq s)). unfold testUntil.
  destruct (peekByte s =? stop)%char; cbn [negb andb]; [reflexivity|].
  now rewrite (bind_Ret _ _ s _ _ (isAtEnd_eq s)).
Qed.

Lemma testPeek_not_atEnd (p : ascii -> bool) s :
  p NUL = false -> testPeek p s = true -> current s < String.length (source s).
Proof.
  intros Hp. unfold testPeek, peekByte. destruct (atEnd s) eqn:E.
  - congruence.
  - intros _. now apply atEnd_false.
Qed.

Lemma testUntil_not_atEnd (stop : ascii) s :
  testUntil stop s = true -> current s < String.length (source s).
Proof.
  unfold testUntil. intros H. apply andb_prop in H. destruct H as [_ H].
  apply atEnd_false. now destruct (atEnd s).
Qed.

Lemma body_advance_eq s : current s < String.length (source s) ->
  exists l, (advance ;; ret tt) s = Ret (tt, set_line l (skip s)).
Proof.
  intros H. exists (line s). now rewrite (bind_Ret _ _ s _ _ (advance_eq s H)).
Qed.

Lemma body_string_eq s : current s < String.length (source s) ->
  exists l, (c <- peek ;; (if (c =? LF)%char then incLine else ret tt) ;; advance ;; ret tt) s
            = Ret (tt, set_line l (skip s)).
Proof.
  intros H. rewrite (bind_Ret _ _ s _ _ (peek_eq s)).
  destruct (peekByte s =? LF)%char.
  - exists (line s + 1)%Z. unfold incLine.
    rewrite (bind_Ret _ _ s tt (set_line (line s + 1)%Z s) eq_refl).
    rewrite (bind_Ret _ _ _ _ _ (advance_eq (set_line (line s + 1)%Z s) H)). reflexivity.
  - exists (line s).
    rewrite (bind_Ret _ _ s tt s eq_refl).
    rewrite (bind_Ret _ _ _ _ _ (advance_eq s H)). reflexivity.
Qed.

Lemma while_peek (p : ascii -> bool) fuel s :
  p NUL = false -> String.length (source s) - current s <= fuel ->
  exists s', while (c <- peek ;; ret (p c)) (advance ;; ret tt) fuel s = Ret (tt, s')
             /\ advanced s s' /\ testPeek p s' = false.
Proof.
  intros Hp Hf. apply scan_while; auto.
  - apply cond_peek_eq.
  - intros s0. now apply testPeek_not_atEnd.
  - intros s0 H. apply body_advance_eq. now apply (testPeek_not_atEnd p).
Qed.

Lemma while_until_advance (stop : ascii) fuel s :
  String.length (source s) - current s <= fuel ->
  exists s', while (c <- peek ;;
                    if negb (c =? stop)%char then e <- isAtEnd ;; ret (negb e) else ret false)
                   (advance ;; ret tt) fuel s = Ret (tt, s')
             /\ advanced s s' /\ testUntil stop s' = false.
Proof.
  intros Hf. apply scan_while; auto.
  - apply cond_until_eq.
  - apply testUntil_not_atEnd.
  - intros s0 H. apply body_advance_eq. now apply (testUntil_not_atEnd stop).
Qed.

Lemma while_string fuel s :
  String.length (source s) - current s <= fuel ->
  exists s', while (c <- peek ;;
                    if negb (c =? QUOTE)%char then e <- isAtEnd ;; ret (negb e) else ret false)
                   (c <- peek ;; (if (c =? LF)%char then incLine else ret tt) ;; advance ;; ret tt)
                   fuel s = Ret (tt, s')
             /\ advanced s s' /\ testUntil QUOTE s' = false.
Proof.
  intros Hf. apply scan_while; auto.
  - apply cond_until_eq.
  - apply testUntil_not_atEnd.
  - intros s0 H. apply body_string_eq. now apply (testUntil_not_atEnd QUOTE).
Qed.

Lemma ready_advanced s s' : ready s -> advanced s s' -> ready s'.
Proof.
  intros [H1 H2] (A1 & A2 & A3 & A4 & A5 & A6). unfold ready.
  rewrite A1, A2. split; [lia|]. apply A6. exact H2.
Qed.

Lemma ready_skip s : start s <= current s -> current s < String.length (source s) -> ready (skip s).
Proof. intros H1 H2. unfold ready. cbn. lia. Qed.

Lemma lookup_keywords_nonEOF text typ : lookup text keywords = Some typ -> typ <> EOF.
Proof.
  unfold keywords. cbn [lookup].
  repeat (destruct (String.eqb text _); [intros [= <-]; discriminate|]).
  discriminate.
Qed.

Lemma addTokenLiteral_spec typ literal s :
  typ <> EOF -> ready s ->
  exists s', addTokenLiteral typ literal s = Ret (tt, s') /\ ext s s'.
Proof.
  intros Ht Hr. exists (pushToken typ literal s). split.
  - now apply addTokenLiteral_eq.
  - now apply ext_pushToken.
Qed.

Lemma addToken_spec typ s :
  typ <> EOF -> ready s -> exists s', addToken typ s = Ret (tt, s') /\ ext s s'.
Proof. apply addTokenLiteral_spec. Qed.

Lemma match_addToken_spec expected typ2 typ1 s :
  typ2 <> EOF -> typ1 <> EOF -> ready s ->
  exists s', (b <- match_ expected ;; if b then addToken typ2 else addToken typ1) s = Ret (tt, s')
             /\ ext s s'.
Proof.
  intros H2 H1 Hr. rewrite (bind_Ret _ _ s _ _ (match_eq expected s)).
  destruct (matches expected s) eqn:E.
  - apply andb_prop in E. destruct E as [E _].
    assert (Hlt : current s < String.length (source s))
      by (apply atEnd_false; now destruct (atEnd s)).
    destruct (addToken_spec typ2 (skip s) H2) as (s' & Hs & He).
    { apply ready_skip; [apply Hr|exact Hlt]. }
    exists s'. split; [exact Hs|]. eapply ext_trans; [|exact He]. now apply ext_skip.
  - now apply addToken_spec.
Qed.

Section WithLibrary.

Variable ParseFloat : string -> float64.

Lemma identifier_spec fuel s :
  ready s -> String.length (source s) - current s <= fuel ->
  exists s', identifier fuel s = Ret (tt, s') /\ ext s s'.
Proof.
  intros Hr Hf. unfold identifier.
  destruct (while_peek isAlphaNumeric fuel s eq_refl Hf) as (s1 & H1 & Ha & _).
  rewrite (bind_Ret _ _ s _ _ H1).
  rewrite (bind_Ret _ _ s1 s1 s1 eq_refl).
  pose proof (ready_advanced s s1 Hr Ha) as Hr1.
  rewrite (bind_Ret _ _ s1 _ _ (sourceSlice_eq _ _ s1 Hr1)).
  assert (exists s', (match lookup (substring (start s1) (current s1 - start s1) (source s1)) keywords with
                      | Some typ => addToken typ
                      | None => addToken IDENTIFIER
                      end) s1 = Ret (tt, s') /\ ext s1 s') as (s' & Hs & He).
  { destruct (lookup _ keywords) as [typ|] eqn:Hk.
    - apply addToken_spec; [|exact Hr1]. now apply lookup_keywords_nonEOF in Hk.
    - apply addToken_spec; [discriminate|exact Hr1]. }
  exists s'. split; [exact Hs|].
  eapply ext_trans; [apply ext_advanced; exact Ha|exact He].
Qed.

Lemma string_spec fuel s :
  start s < current s -> current s <= String.length (source s) ->
  String.length (source s) - current s <= fuel ->
  exists s', string_ fuel s = Ret (tt, s') /\ ext s s'.
Proof.
  intros Hs Hc Hf. unfold string_.
  destruct (while_string fuel s Hf) as (s1 & H1 & Ha & _).
  rewrite (bind_Ret _ _ s _ _ H1).
  rewrite (bind_Ret _ _ s1 _ _ (isAtEnd_eq s1)).
  pose proof (ext_advanced s s1 Ha) as He1.
  destruct Ha as (A1 & A2 & A3 & A4 & A5 & A6).
  destruct (atEnd s1) eqn:E.
  - eexists. split; [reflexivity|].
    eapply ext_trans; [exact He1|]. apply ext_set_errors.
  - apply atEnd_false in E.
    rewrite (bind_Ret _ _ s1 _ _ (advance_eq s1 E)).
    rewrite (bind_Ret _ _ (skip s1) (skip s1) (skip s1) eq_refl).
    change (current (skip s1)) with (current s1 + 1). rewrite Nat.add_1_r.
    assert (Hsl : start (skip s1) + 1 <= current s1 <= String.length (source (skip s1))).
    { cbn. lia. }
    rewrite (bind_Ret _ _ (skip s1) _ _ (sourceSlice_eq _ _ (skip s1) Hsl)).
    destruct (addTokenLiteral_spec STRING
                (VStr (substring (start (skip s1) + 1) (current s1 - (start (skip s1) + 1))
                                 (source (skip s1))))
                (skip s1)) as (s' & Hs' & He').
    { discriminate. }
    { apply ready_skip; lia. }
    exists s'. split; [exact Hs'|].
    eapply ext_trans; [exact He1|]. eapply ext_trans; [|exact He']. now apply ext_skip.
Qed.

Lemma number_fraction_spec fuel s :
  String.length (source s) - current s <= fuel ->
  exists s', (if (peekByte s =? ".")%char
              then c' <- peekNext ;;
                   if isDigit c'
                   then advance ;;
                        while (c <- peek ;; ret (isDigit c)) (advance ;; ret tt) fuel
                   else ret tt
              else ret tt) s = Ret (tt, s')
             /\ advanced s s'.
Proof.
  intros Hf.
  destruct (peekByte s =? ".")%char eqn:Ed.
  - destruct (peekNext_total s) as [c' Hc'].
    rewrite (bind_Ret _ _ s _ _ Hc').
    destruct (isDigit c').
    + assert (Hlt : current s < String.length (source s)).
      { apply atEnd_false. unfold peekByte in Ed. now destruct (atEnd s). }
      rewrite (bind_Ret _ _ s _ _ (advance_eq s Hlt)).
      destruct (while_peek isDigit fuel (skip s) eq_refl) as (s' & H1 & Ha & _).
      { cbn. lia. }
      exists s'. split; [exact H1|].
      eapply advanced_trans; [|exact Ha]. apply (advanced_step (line s) s Hlt).
    + exists s. split; [reflexivity|apply advanced_refl].
  - exists s. split; [reflexivity|apply advanced_refl].
Qed.

Lemma number_spec fuel s :
  ready s -> String.length (source s) - current s <= fuel ->
  exists s', number ParseFloat fuel s = Ret (tt, s') /\ ext s s'.
Proof.
  intros Hr Hf. unfold number.
  destruct (while_peek isDigit fuel s eq_refl Hf) as (s1 & H1 & Ha1 & _).
  rewrite (bind_Ret _ _ s _ _ H1).
  rewrite (bind_Ret _ _ s1 _ _ (peek_eq s1)).
  destruct (number_fraction_spec fuel s1) as (s2 & H2 & Ha2).
  { destruct Ha1 as (A1 & A2 & A3 & A4 & A5 & A6). rewrite A1. lia. }
  rewrite (bind_Ret _ _ s1 _ _ H2).
  rewrite (bind_Ret _ _ s2 s2 s2 eq_refl).
  pose proof (advanced_trans _ _ _ Ha1 Ha2) as Ha.
  pose proof (ready_advanced s s2 Hr Ha) as Hr2.
  rewrite (bind_Ret _ _ s2 _ _ (sourceSlice_eq _ _ s2 Hr2)).
  destruct (addTokenLiteral_spec NUMBER
              (VNum (ParseFloat (substring (start s2) (current s2 - start s2) (source s2))))
              s2) as (s' & Hs' & He'); [discriminate|exact Hr2|].
  exists s'. split; [exact Hs'|].
  eapply ext_trans; [apply ext_advanced; exact Ha|exact He'].
Qed.

Lemma comment_spec fuel s :
  ready s -> String.length (source s) - current s <= fuel ->
  exists s', (b <- match_ "/" ;;
              if b then
                while (c <- peek ;;
                       if negb (c =? LF)%char then e <- isAtEnd ;; ret (negb e) else ret false)
                      (advance ;; ret tt) fuel
              else addToken SLASH) s = Ret (tt, s')
             /\ ext s s'.
Proof.
  intros Hr Hf. rewrite (bind_Ret _ _ s _ _ (match_eq "/" s)).
  destruct (matches "/" s) eqn:E.
  - apply andb_prop in E. destruct E as [E _].
    assert (Hlt : current s < String.length (source s))
      by (apply atEnd_false; now destruct (atEnd s)).
    destruct (while_until_advance LF fuel (skip s)) as (s' & H1 & Ha & _).
    { cbn. lia. }
    exists s'. split; [exact H1|].
    eapply ext_trans; [apply ext_skip; exact Hlt|apply ext_advanced; exact Ha].
  - apply addToken_spec; [discriminate|exact Hr].
Qed.

(** What [scanToken] does after its first [advance]. *)
Lemma scanToken_spec fuel s :
  start s <= current s -> current s < String.length (source s) ->
  String.length (source s) - current s <= S fuel ->
  exists s', scanToken ParseFloat fuel s = Ret (tt, s') /\ ext (skip s) s'.
Proof.
  intros Hs Hlt Hf. unfold scanToken.
  rewrite (bind_Ret _ _ s _ _ (advance_eq s Hlt)).
  assert (Hr : ready (skip s)) by now apply ready_skip.
  assert (Hf' : String.length (source (skip s)) - current (skip s) <= fuel) by (cbn; lia).
  repeat (match goal with
          | |- context [if (curByte s =? ?c)%char then _ else _] =>
              destruct (curByte s =? c)%char;
              [first [ apply addToken_spec; [discriminate|exact Hr]
                     | apply match_addToken_spec; [discriminate|discriminate|exact Hr]
                     | apply comment_spec; [exact Hr|exact Hf'] ]|]
          end).
  destruct ((curByte s =? " ")%char || (curByte s =? TAB)%char || (curByte s =? CR)%char).
  { exists (skip s). split; [reflexivity|apply ext_refl]. }
  destruct (curByte s =? LF)%char.
  { eexists. split; [reflexivity|]. apply ext_set_line. }
  destruct (curByte s =? QUOTE)%char.
  { apply string_spec; [cbn; lia|apply Hr|exact Hf']. }
  destruct (isDigit (curByte s)).
  { apply number_spec; [exact Hr|exact Hf']. }
  destruct (isAlpha (curByte s)).
  { apply identifier_spec; [exact Hr|exact Hf']. }
  eexists. split; [reflexivity|]. apply ext_set_errors.
Qed.

Lemma loopCond_eq s : loopCond s = Ret (negb (atEnd s), s).
Proof. reflexivity. Qed.

Lemma ext_set_start n s : ext s (set_start n s).
Proof.
  repeat split; cbn; auto.
  - exists []. now rewrite app_nil_r.
  - exists []. now rewrite app_nil_r.
Qed.

Lemma loopBody_spec fuel s :
  current s < String.length (source s) ->
  String.length (source s) <= S fuel ->
  exists s', loopBody ParseFloat fuel s = Ret (tt, s') /\ ext s s' /\ current s < current s'.
Proof.
  intros Hlt Hf. unfold loopBody.
  rewrite (bind_Ret _ _ s tt (set_start (current s) s) eq_refl).
  destruct (scanToken_spec fuel (set_start (current s) s)) as (s' & Hs & He).
  { cbn. lia. } { exact Hlt. } { cbn. lia. }
  exists s'. split; [exact Hs|]. split.
  - eapply ext_trans; [apply (ext_set_start (current s))|].
    eapply ext_trans; [|exact He]. apply ext_skip. exact Hlt.
  - destruct He as (_ & He & _). cbn in He. lia.
Qed.

Lemma scanLoop_spec fuel : forall n s,
  current s <= String.length (source s) ->
  String.length (source s) - current s <= n ->
  String.length (source s) <= S fuel ->
  exists s', while loopCond (loopBody ParseFloat fuel) n s = Ret (tt, s')
             /\ ext s s' /\ current s' = String.length (source s').
Proof.
  induction n as [|n IH]; intros s Hc Hn Hf; cbn [while];
    rewrite (bind_Ret _ _ s _ _ (loopCond_eq s));
    destruct (atEnd s) eqn:E; cbn [negb].
  - exists s. split; [reflexivity|]. split; [apply ext_refl|]. apply atEnd_true in E. lia.
  - apply atEnd_false in E. lia.
  - exists s. split; [reflexivity|]. split; [apply ext_refl|]. apply atEnd_true in E. lia.
  - apply atEnd_false in E.
    destruct (loopBody_spec fuel s E Hf) as (s1 & H1 & He1 & Hlt1).
    rewrite (bind_Ret _ _ s _ _ H1).
    pose proof He1 as (A1 & A2 & A3 & _).
    destruct (IH s1) as (s' & H2 & He2 & Hend).
    { rewrite A1. apply A3. lia. } { rewrite A1. lia. } { now rewrite A1. }
    exists s'. split; [exact H2|]. split; [|exact Hend].
    eapply ext_trans; [exact He1|exact He2].
Qed.

Lemma ScanTokensFuel_eq fuel src s' :
  scanLoop ParseFloat fuel (NewScanner src) = Ret (tt, s') ->
  ScanTokensFuel ParseFloat fuel src
  = Ret ((tokens s' ++ [eofToken (line s')])%list, errors s').
Proof.
  intros H. unfold ScanTokensFuel. now rewrite (bind_Ret _ _ _ _ _ H).
Qed.

Lemma scanLoop_total src fuel :
  String.length src <= S fuel ->
  exists s', while loopCond (loopBody ParseFloat fuel) (String.length src) (NewScanner src) = Ret (tt, s')
             /\ source s' = src /\ current s' = String.length src
             /\ Forall nonEOF (tokens s').
Proof.
  intros Hf.
  destruct (scanLoop_spec fuel (String.length src) (NewScanner src)) as (s' & H1 & He & Hend).
  { cbn. lia. } { cbn. lia. } { exact Hf. }
  exists s'. split; [exact H1|].
  destruct He as (A1 & _ & _ & (new & A4 & A5) & _). cbn in A1, A4.
  rewrite A1 in Hend. repeat split; auto. now rewrite A4.
Qed.

(** More fuel does not change what the scanner returns. *)
Lemma identifier_refines n m s : n <= m -> refines (identifier n s) (identifier m s).
Proof.
  intros H. unfold identifier. apply bind_refines; [|intros; apply refines_refl].
  apply while_refines; [intros; apply refines_refl|exact H].
Qed.

Lemma string_refines n m s : n <= m -> refines (string_ n s) (string_ m s).
Proof.
  intros H. unfold string_. apply bind_refines; [|intros; apply refines_refl].
  apply while_refines; [intros; apply refines_refl|exact H].
Qed.

Lemma number_refines n m s :
  n <= m -> refines (number ParseFloat n s) (number ParseFloat m s).
Proof.
  intros H. unfold number. apply bind_refines.
  { apply while_refines; [intros; apply refines_refl|exact H]. }
  intros _ s1. apply bind_refines; [apply refines_refl|]. intros c s2.
  apply bind_refines; [|intros; apply refines_refl].
  destruct (c =? ".")%char; [|apply refines_refl].
  apply bind_refines; [apply refines_refl|]. intros c' s3.
  destruct (isDigit c'); [|apply refines_refl].
  apply bind_refines; [apply refines_refl|]. intros _ s4.
  apply while_refines; [intros; apply refines_refl|exact H].
Qed.

Lemma scanToken_refines n m s :
  n <= m -> refines (scanToken ParseFloat n s) (scanToken ParseFloat m s).
Proof.
  intros H. unfold scanToken. apply bind_refines; [apply refines_refl|]. intros c s1.
  assert (Hcomment : forall s2,
    refines ((b <- match_ "/" ;;
              if b then
                while (c <- peek ;;
                       if negb (c =? LF)%char then e <- isAtEnd ;; ret (negb e) else ret false)
                      (advance ;; ret tt) n
              else addToken SLASH) s2)
            ((b <- match_ "/" ;;
              if b then
                while (c <- peek ;;
                       if negb (c =? LF)%char then e <- isAtEnd ;; ret (negb e) else ret false)
                      (advance ;; ret tt) m
              else addToken SLASH) s2)).
  { intros s2. apply bind_refines; [apply refines_refl|]. intros [|] s3; [|apply refines_refl].
    apply while_refines; [intros; apply refines_refl|exact H]. }
  repeat (match goal with
          | |- context [if ?b then _ else _] =>
              destruct b;
              [first [ apply refines_refl | apply Hcomment | now apply string_refines
                     | now apply number_refines | now apply identifier_refines ]|]
          end).
  apply refines_refl.
Qed.

Lemma scanLoop_refines n m s :
  n <= m -> refines (scanLoop ParseFloat n s) (scanLoop ParseFloat m s).
Proof.
  intros H. unfold scanLoop. apply while_refines; [|exact H].
  intros s1. apply bind_refines; [apply refines_refl|].
  intros _ s2. now apply scanToken_refines.
Qed.

Lemma ScanTokensFuel_refines n m src :
  n <= m -> refines (ScanTokensFuel ParseFloat n src) (ScanTokensFuel ParseFloat m src).
Proof.
  intros H. unfold ScanTokensFuel.
  pose proof (bind_refines (scanLoop ParseFloat n) (scanLoop ParseFloat m)
                (fun _ => appendEOF ;; s <- get_state ;; ret (tokens s, errors s))
                (fun _ => appendEOF ;; s <- get_state ;; ret (tokens s, errors s))
                (NewScanner src) (scanLoop_refines n m (NewScanner src) H)
                (fun a s' => refines_refl _)) as Hr.
  destruct (bind (scanLoop ParseFloat n) _ (NewScanner src)) as [[r s1]| | |].
  - now rewrite Hr.
  - now rewrite Hr.
  - now rewrite Hr.
  - intros X. now destruct X.
Qed.

Lemma filter_isEOF_nonEOF (body : list Token) :
  Forall nonEOF body -> filter isEOF body = [].
Proof.
  induction 1 as [|tok body Htok _ IH]; [reflexivity|].
  cbn. unfold isEOF at 1. destruct (TokenType_beq_spec (Type_ tok) EOF) as [E|_].
  - now destruct Htok.
  - exact IH.
Qed.

Lemma scanToken_unexpected fuel s :
  current s < String.length (source s) ->
  startsLexeme (curByte s) = false ->
  scanToken ParseFloat fuel s
  = Ret (tt, set_errors (errors s ++ [lineError (line s) "Unexpected character."])%list
                        (skip s)).
Proof.
  intros Hlt Hu. unfold scanToken.
  rewrite (bind_Ret _ _ s _ _ (advance_eq s Hlt)).
  unfold startsLexeme in Hu. cbn [existsb] in Hu.
  repeat match goal with
         | H : (_ || _) = false |- _ => apply orb_false_iff in H; destruct H
         end.
  repeat match goal with
         | H : (curByte s =? _)%char = false |- _ => rewrite H; clear H
         | H : isDigit _ = false |- _ => rewrite H; clear H
         | H : isAlpha _ = false |- _ => rewrite H; clear H
         end.
  reflexivity.
Qed.

Lemma scanToken_unterminated fuel s :
  start s <= current s -> current s < String.length (source s) ->
  String.length (source s) - current s <= S fuel ->
  curByte s = QUOTE ->
  (forall i, current s < i < String.length (source s) ->
             String.get i (source s) <> Some QUOTE) ->
  exists s', scanToken ParseFloat fuel s = Ret (tt, s')
             /\ current s' = String.length (source s)
             /\ tokens s' = tokens s
             /\ errors s' = (errors s
                  ++ [lineError (line s') "Unterminated string."])%list.
Proof.
  intros Hs Hlt Hf Hq Hno. unfold scanToken.
  rewrite (bind_Ret _ _ s _ _ (advance_eq s Hlt)). rewrite Hq.
  repeat match goal with
         | |- context [(QUOTE =? ?c)%char] =>
             first [ change (QUOTE =? c)%char with false
                   | change (QUOTE =? c)%char with true ]
         end.
  cbn [orb]. unfold string_.
  destruct (while_string fuel (skip s)) as (s1 & H1 & Ha & Ht).
  { cbn. lia. }
  destruct Ha as (A1 & A2 & A3 & A4 & A5 & A6). cbn in A1, A2, A3, A4, A5, A6.
  rewrite (bind_Ret _ _ _ _ _ H1).
  rewrite (bind_Ret _ _ s1 _ _ (isAtEnd_eq s1)).
  assert (E : atEnd s1 = true).
  { destruct (atEnd s1) eqn:E; [reflexivity|]. exfalso.
    unfold testUntil in Ht. rewrite E in Ht. cbn in Ht.
    rewrite andb_true_r in Ht. apply negb_false_iff in Ht.
    unfold peekByte in Ht. rewrite E in Ht.
    apply atEnd_false in E. rewrite A1 in E.
    destruct (get_lt (source s) (current s1) E) as [c Hc].
    unfold curByte in Ht. rewrite A1, Hc in Ht.
    apply Ascii.eqb_eq in Ht. subst c.
    apply (Hno (current s1)); [lia|exact Hc]. }
  rewrite E. eexists. split; [reflexivity|]. cbn.
  apply atEnd_true in E. rewrite A1 in E. repeat split.
  - lia.
  - exact A3.
  - now rewrite A4.
Qed.

Lemma allSpace_get (src : string) :
  allSpace src = true ->
  forall i c, String.get i src = Some c -> isSpace c = true.
Proof.
  induction src as [|a src IH]; cbn; intros H i c Hg; [discriminate|].
  apply andb_prop in H. destruct H as [Ha Hs].
  destruct i as [|i]; [now injection Hg as <-|]. now apply (IH Hs i).
Qed.

Lemma scanToken_space fuel s :
  current s < String.length (source s) -> isSpace (curByte s) = true ->
  exists l, scanToken ParseFloat fuel s = Ret (tt, set_line l (skip s)).
Proof.
  intros Hlt Hsp. unfold scanToken.
  rewrite (bind_Ret _ _ s _ _ (advance_eq s Hlt)).
  unfold isSpace in Hsp.
  repeat (apply orb_prop in Hsp; destruct Hsp as [Hsp|Hsp]);
    apply Ascii.eqb_eq in Hsp; rewrite Hsp.
  - now exists (line s).
  - now exists (line s).
  - now exists (line s).
  - now exists (line s + 1)%Z.
Qed.

Lemma scanLoop_space fuel : forall n s,
  allSpace (source s) = true ->
  String.length (source s) - current s <= n ->
  exists s', while loopCond (loopBody ParseFloat fuel) n s = Ret (tt, s')
             /\ tokens s' = tokens s /\ errors s' = errors s.
Proof.
  induction n as [|n IH]; intros s Hsp Hn; cbn [while];
    rewrite (bind_Ret _ _ s _ _ (loopCond_eq s));
    destruct (atEnd s) eqn:E; cbn [negb].
  - now exists s.
  - apply atEnd_false in E. lia.
  - now exists s.
  - apply atEnd_false in E.
    destruct (get_lt (source s) (current s) E) as [c Hc].
    destruct (scanToken_space fuel (set_start (current s) s)) as [l Hl].
    { exact E. }
    { unfold curByte. cbn. rewrite Hc. apply (allSpace_get (source s) Hsp _ _ Hc). }
    assert (Hb : loopBody ParseFloat fuel s
                 = Ret (tt, set_line l (skip (set_start (current s) s)))).
    { unfold loopBody. now rewrite (bind_Ret _ _ s tt (set_start (current s) s) eq_refl). }
    rewrite (bind_Ret _ _ s _ _ Hb).
    destruct (IH (set_line l (skip (set_start (current s) s)))) as (s' & H1 & H2 & H3).
    { exact Hsp. } { cbn. lia. }
    exists s'. repeat split; auto.
Qed.

Lemma ScanTokens_space (src : string) :
  allSpace src = true ->
  exists l, ScanTokens ParseFloat src = Ret ([eofToken l], []).
Proof.
  intros Hsp.
  destruct (scanLoop_space (String.length src) (String.length src) (NewScanner src))
    as (s' & H1 & H2 & H3).
  { exact Hsp. } { cbn. lia. }
  exists (line s'). unfold ScanTokens.
  rewrite (ScanTokensFuel_eq _ _ s' H1), H2, H3. reflexivity.
Qed.

Lemma scanLoop_after_unexpected fuel n s :
  current s < String.length (source s) ->
  startsLexeme (curByte s) = false ->
  while loopCond (loopBody ParseFloat fuel) (S n) s
  = while loopCond (loopBody ParseFloat fuel) n
      (set_errors (errors s ++ [lineError (line s) "Unexpected character."])%list
                  (skip (set_start (current s) s))).
Proof.
  intros Hlt Hu. cbn [while]. rewrite (bind_Ret _ _ s _ _ (loopCond_eq s)).
  apply atEnd_false in Hlt. rewrite Hlt. cbn [negb]. apply atEnd_false in Hlt.
  assert (Hb : loopBody ParseFloat fuel s
               = Ret (tt, set_errors
                            (errors s ++ [lineError (line s) "Unexpected character."])%list
                            (skip (set_start (current s) s)))).
  { unfold loopBody. rewrite (bind_Ret _ _ s tt (set_start (current s) s) eq_refl).
    now apply (scanToken_unexpected fuel (set_start (current s) s)). }
  now rewrite (bind_Ret _ _ s _ _ Hb).
Qed.

(** C10: [ScanTokens] returns on every source, and any larger bound on the
    loops gives the same result; each iteration of its loop, and each
    [scanToken] on a scanner whose lexeme bounds are in order, returns with
    the cursor strictly further, within the source; the loop ends as soon as
    the cursor has reached the length of the source. *)
Theorem ScanTokens_terminates (src : string) :
  (exists toks errs, ScanTokens ParseFloat src = Ret (toks, errs)) /\
  (forall fuel, String.length src <= fuel ->
     ScanTokensFuel ParseFloat fuel src = ScanTokens ParseFloat src) /\
  (forall fuel s,
     current s < String.length (source s) ->
     String.length (source s) <= fuel ->
     exists s', loopBody ParseFloat fuel s = Ret (tt, s')
                /\ current s < current s' <= String.length (source s)) /\
  (forall fuel s,
     start s <= current s -> current s < String.length (source s) ->
     String.length (source s) <= fuel ->
     exists c s', advance s = Ret (c, skip s)
                  /\ scanToken ParseFloat fuel s = Ret (tt, s')
                  /\ current s < current (skip s) <= current s'
                  /\ current s' <= String.length (source s)) /\
  (forall fuel s,
     String.length (source s) <= current s -> scanLoop ParseFloat fuel s = Ret (tt, s)).
Proof.
  assert (Htotal : exists toks errs, ScanTokens ParseFloat src = Ret (toks, errs)).
  { destruct (scanLoop_total src (String.length src)) as (s' & H1 & _); [lia|].
    unfold ScanTokens. rewrite (ScanTokensFuel_eq _ _ s' H1). eauto. }
  split; [exact Htotal|]. split; [|split; [|split]].
  - intros fuel Hf. destruct Htotal as (toks & errs & Ht).
    apply (ScanTokensFuel_refines (String.length src) fuel src Hf).
    unfold ScanTokens in Ht. rewrite Ht. discriminate.
  - intros fuel s Hlt Hf.
    destruct (loopBody_spec fuel s Hlt) as (s' & H1 & He & Hc); [lia|].
    exists s'. split; [exact H1|].
    destruct He as (A1 & A2 & A3 & _). lia.
  - intros fuel s Hs Hlt Hf.
    destruct (scanToken_spec fuel s Hs Hlt) as (s' & H1 & He); [lia|].
    exists (curByte s), s'. split; [now apply advance_eq|]. split; [exact H1|].
    destruct He as (A1 & A2 & A3 & _). cbn in A1, A2, A3 |- *. lia.
  - intros fuel s He. unfold scanLoop.
    destruct fuel; cbn [while];
      rewrite (bind_Ret _ _ s _ _ (loopCond_eq s));
      apply atEnd_true in He; rewrite He; reflexivity.
Qed.

(** C5: on every source [ScanTokens] returns tokens that end with an
    end-of-input token and hold no other one, after a loop that has consumed
    the whole source; an unexpected byte costs one entry of the error list
    and one byte of the cursor, after which the loop goes on with the next
    iteration; an unterminated string costs one entry and the rest of the
    source; neither touches the tokens found so far. *)
Theorem ScanTokens_ends_with_single_EOF (src : string) :
  (exists s' body,
     scanLoop ParseFloat (String.length src) (NewScanner src) = Ret (tt, s') /\
     current s' = String.length src /\
     ScanTokens ParseFloat src
     = Ret ((body ++ [eofToken (line s')])%list, errors s') /\
     Forall nonEOF body /\
     last (body ++ [eofToken (line s')])%list (eofToken 0) = eofToken (line s') /\
     List.length (filter isEOF (body ++ [eofToken (line s')])%list) = 1) /\
  (forall fuel s,
     current s < String.length (source s) ->
     startsLexeme (curByte s) = false ->
     scanToken ParseFloat fuel s
     = Ret (tt, set_errors
                  (errors s ++ [lineError (line s) "Unexpected character."])%list
                  (skip s))) /\
  (forall fuel n s,
     current s < String.length (source s) ->
     startsLexeme (curByte s) = false ->
     while loopCond (loopBody ParseFloat fuel) (S n) s
     = while loopCond (loopBody ParseFloat fuel) n
         (set_errors (errors s ++ [lineError (line s) "Unexpected character."])%list
                     (skip (set_start (current s) s)))) /\
  (forall fuel s,
     start s <= current s -> current s < String.length (source s) ->
     String.length (source s) <= fuel ->
     curByte s = QUOTE ->
     (forall i, current s < i < String.length (source s) ->
                String.get i (source s) <> Some QUOTE) ->
     exists s', scanToken ParseFloat fuel s = Ret (tt, s')
                /\ current s' = String.length (source s)
                /\ tokens s' = tokens s
                /\ errors s' = (errors s
                     ++ [lineError (line s') "Unterminated string."])%list).
Proof.
  split; [|split; [|split]].
  - destruct (scanLoop_total src (String.length src)) as (s' & H1 & _ & Hc & Hn); [lia|].
    exists s', (tokens s'). split; [exact H1|]. split; [exact Hc|].
    split; [apply (ScanTokensFuel_eq _ _ s' H1)|]. split; [exact Hn|]. split.
    + apply last_last.
    + rewrite filter_app, (filter_isEOF_nonEOF _ Hn). reflexivity.
  - apply scanToken_unexpected.
  - apply scanLoop_after_unexpected.
  - intros fuel s Hs Hlt Hf. apply scanToken_unterminated; auto. lia.
Qed.

End WithLibrary.

End ScannerFacts.

(** ** The parser *)

Module ParserFacts.
Import Parser.

Lemma tokenAt_eq i p tok : nth_error (tokens p) i = Some tok -> tokenAt i p = Ret (tok, p).
Proof. intros H. unfold tokenAt, bind, get_state. now rewrite H. Qed.

Lemma parser_isAtEnd_eq p tok :
  tokenHere p tok -> isAtEnd p = Ret (TokenType_beq (Type_ tok) EOF, p).
Proof.
  intros H. unfold isAtEnd. rewrite (bind_Ret _ _ p p p eq_refl).
  now rewrite (bind_Ret _ _ p _ _ (tokenAt_eq _ p tok H)).
Qed.

Lemma parser_peek_eq p tok : tokenHere p tok -> peek p = Ret (tok, p).
Proof.
  intros H. unfold peek. rewrite (bind_Ret _ _ p p p eq_refl). now apply tokenAt_eq.
Qed.

Lemma previous_skip p tok : tokenHere p tok -> previous (skip p) = Ret (tok, skip p).
Proof.
  intros H. unfold previous. rewrite (bind_Ret _ _ (skip p) _ _ eq_refl).
  cbn [skip set_current current]. rewrite Nat.add_1_r. now apply tokenAt_eq.
Qed.

Lemma parser_advance_eq p tok :
  tokenHere p tok -> TokenType_beq (Type_ tok) EOF = false -> advance p = Ret (tok, skip p).
Proof.
  intros H Hn. unfold advance. rewrite (bind_Ret _ _ p _ _ (parser_isAtEnd_eq p tok H)).
  rewrite Hn. cbn [negb].
  rewrite (bind_Ret _ _ p tt (skip p) eq_refl). now apply previous_skip.
Qed.

Lemma checkTokenType_eq typ p tok :
  tokenHere p tok ->
  checkTokenType typ p
  = Ret (negb (TokenType_beq (Type_ tok) EOF) && TokenType_beq (Type_ tok) typ, p).
Proof.
  intros H. unfold checkTokenType. rewrite (bind_Ret _ _ p _ _ (parser_isAtEnd_eq p tok H)).
  destruct (TokenType_beq (Type_ tok) EOF); [reflexivity|]. cbn [negb andb].
  rewrite (bind_Ret _ _ p p p eq_refl).
  now rewrite (bind_Ret _ _ p _ _ (tokenAt_eq _ p tok H)).
Qed.

Lemma parser_match_eq types p tok :
  tokenHere p tok ->
  match_ types p = Ret (accepts types tok, if accepts types tok then skip p else p).
Proof.
  intros H. unfold accepts. induction types as [|typ types IH]; cbn [match_ existsb].
  - now rewrite andb_false_r.
  - rewrite (bind_Ret _ _ p _ _ (checkTokenType_eq typ p tok H)).
    destruct (TokenType_beq (Type_ tok) EOF) eqn:E; cbn [negb andb] in *.
    + exact IH.
    + destruct (TokenType_beq (Type_ tok) typ); cbn [orb].
      * now rewrite (bind_Ret _ _ p _ _ (parser_advance_eq p tok H E)).
      * exact IH.
Qed.

Lemma accepts_nonEOF types tok :
  accepts types tok = true -> TokenType_beq (Type_ tok) EOF = false.
Proof.
  unfold accepts. intros H. apply andb_prop in H. destruct H as [H _].
  now apply negb_true_iff in H.
Qed.

Lemma consume_eq typ message p tok :
  tokenHere p tok ->
  consume typ message p
  = if accepts [typ] tok then Ret (tok, skip p) else Panic (error tok message).
Proof.
  intros H. unfold consume. rewrite (bind_Ret _ _ p _ _ (checkTokenType_eq typ p tok H)).
  unfold accepts. cbn [existsb]. rewrite orb_false_r.
  destruct (TokenType_beq (Type_ tok) EOF) eqn:E; cbn [negb andb].
  - now rewrite (bind_Ret _ _ p _ _ (parser_peek_eq p tok H)).
  - destruct (TokenType_beq (Type_ tok) typ).
    + now apply parser_advance_eq.
    + now rewrite (bind_Ret _ _ p _ _ (parser_peek_eq p tok H)).
Qed.

Lemma guarded_tokenHere p : guarded p -> exists tok, tokenHere p tok.
Proof.
  intros (j & tok & Hj & Hn & _). unfold tokenHere.
  destruct (nth_error (tokens p) (current p)) as [tok'|] eqn:E; [now exists tok'|].
  apply nth_error_None in E.
  assert (j < List.length (tokens p)) by (apply nth_error_Some; congruence). lia.
Qed.

Lemma guarded_skip p tok :
  guarded p -> tokenHere p tok -> TokenType_beq (Type_ tok) EOF = false -> guarded (skip p).
Proof.
  intros (j & tok' & Hj & Hn & He) H E. exists j, tok'. repeat split; auto.
  cbn. destruct (Nat.eq_dec (current p) j) as [Heq|]; [|lia].
  unfold tokenHere in H. rewrite Heq, Hn in H. injection H as <-.
  rewrite He in E. discriminate.
Qed.

Lemma room_skip p tok : tokenHere p tok -> S (room (skip p)) = room p.
Proof.
  intros H. unfold room. cbn.
  assert (current p < List.length (tokens p)) by (apply nth_error_Some; unfold tokenHere in H; congruence).
  lia.
Qed.

Lemma guarded_room p : guarded p -> 1 <= room p.
Proof.
  intros (j & tok & Hj & Hn & _). unfold room.
  assert (j < List.length (tokens p)) by (apply nth_error_Some; congruence). lia.
Qed.

Lemma tokenHere_In p tok : tokenHere p tok -> In tok (tokens p).
Proof. apply nth_error_In. Qed.

Lemma good_ret {A} (a : A) p : guarded p -> good p (Ret (a, p)).
Proof. intros H. left. exists a, p. repeat split; auto. Qed.

Lemma good_panic {A} p tok message :
  tokenHere p tok ->
  message = "Expect expression" \/ message = "Expect ')' after expression." ->
  @good A p (Panic (error tok message)).
Proof.
  intros H Hm. right. eexists. split; [reflexivity|]. exists tok, message.
  repeat split; auto. now apply tokenHere_In.
Qed.

Lemma good_weaken {A} p p' (o : outcome ParseError (A * t)) :
  tokens p' = tokens p -> current p <= current p' -> good p' o -> good p o.
Proof.
  intros Ht Hc [(a & p1 & Ho & Ht1 & Hc1 & Hg)|(err & Ho & tok & msg & E1 & E2 & E3)].
  - left. exists a, p1. repeat split; auto; [congruence|lia].
  - right. exists err. split; [exact Ho|]. exists tok, msg. rewrite <- Ht. auto.
Qed.

Lemma good_skip {A} p (o : outcome ParseError (A * t)) : good (skip p) o -> good p o.
Proof. apply good_weaken; cbn; [reflexivity|lia]. Qed.

Lemma parses_bind {A B} (m : M A) (k : A -> M B) p :
  parses m p ->
  (forall a p', m p = Ret (a, p') -> tokens p' = tokens p -> current p <= current p' ->
                guarded p' -> parses (k a) p') ->
  parses (bind m k) p.
Proof.
  intros [(a & p1 & Hm & Ht & Hc & Hg)|(err & Hm & He)] Hk; unfold parses.
  - rewrite (bind_Ret _ _ p _ _ Hm).
    apply (good_weaken p p1); auto. now apply Hk.
  - right. exists err. split; [|exact He]. now apply bind_Panic.
Qed.

Section Grammar.

Variable expression : M Expr.
Variable N : nat.
Hypothesis expression_ok :
  forall p, guarded p -> room p <= N -> parses expression p.

Lemma group_parses p :
  guarded p -> room p <= N ->
  parses (expr <- expression ;;
          consume RIGHT_PAREN "Expect ')' after expression." ;;
          ret (Grouping expr)) p.
Proof.
  intros Hg Hr. apply parses_bind; [now apply expression_ok|].
  intros e p1 _ _ _ Hg1. unfold parses.
  destruct (guarded_tokenHere p1 Hg1) as [tok Ht].
  unfold bind at 1. rewrite (consume_eq RIGHT_PAREN _ p1 tok Ht).
  destruct (accepts [RIGHT_PAREN] tok) eqn:E.
  - apply good_skip, good_ret. apply (guarded_skip p1 tok Hg1 Ht).
    now apply (accepts_nonEOF [RIGHT_PAREN]).
  - apply good_panic; auto.
Qed.

Lemma primary_parses p :
  guarded p -> room p <= S N -> parses (primary expression) p.
Proof.
  intros Hg Hr. destruct (guarded_tokenHere p Hg) as [tok Ht].
  unfold parses, primary.
  rewrite (bind_Ret _ _ p _ _ (parser_match_eq [NUMBER; STRING] p tok Ht)).
  destruct (accepts [NUMBER; STRING] tok) eqn:E1.
  { rewrite (bind_Ret _ _ _ _ _ (previous_skip p tok Ht)).
    apply good_skip, good_ret, (guarded_skip p tok Hg Ht), (accepts_nonEOF _ _ E1). }
  rewrite (bind_Ret _ _ p _ _ (parser_match_eq [TRUE] p tok Ht)).
  destruct (accepts [TRUE] tok) eqn:E2.
  { apply good_skip, good_ret, (guarded_skip p tok Hg Ht), (accepts_nonEOF _ _ E2). }
  rewrite (bind_Ret _ _ p _ _ (parser_match_eq [FALSE] p tok Ht)).
  destruct (accepts [FALSE] tok) eqn:E3.
  { apply good_skip, good_ret, (guarded_skip p tok Hg Ht), (accepts_nonEOF _ _ E3). }
  rewrite (bind_Ret _ _ p _ _ (parser_match_eq [NIL] p tok Ht)).
  destruct (accepts [NIL] tok) eqn:E4.
  { apply good_skip, good_ret, (guarded_skip p tok Hg Ht), (accepts_nonEOF _ _ E4). }
  rewrite (bind_Ret _ _ p _ _ (parser_match_eq [LEFT_PAREN] p tok Ht)).
  destruct (accepts [LEFT_PAREN] tok) eqn:E5.
  { apply good_skip. apply group_parses.
    - apply (guarded_skip p tok Hg Ht), (accepts_nonEOF _ _ E5).
    - pose proof (room_skip p tok Ht). lia. }
  rewrite (bind_Ret _ _ p _ _ (parser_peek_eq p tok Ht)).
  apply good_panic; auto.
Qed.

Lemma unary_parses : forall n p,
  guarded p -> room p <= S N -> room p <= S n -> parses (unary expression n) p.
Proof.
  induction n as [|n IH]; intros p Hg Hr Hn;
    destruct (guarded_tokenHere p Hg) as [tok Ht];
    unfold parses; cbn [unary];
    rewrite (bind_Ret _ _ p _ _ (parser_match_eq [MINUS; BANG] p tok Ht));
    destruct (accepts [MINUS; BANG] tok) eqn:E; cbn [negb];
    try (now apply primary_parses).
  - pose proof (guarded_room (skip p) (guarded_skip p tok Hg Ht (accepts_nonEOF _ _ E))).
    pose proof (room_skip p tok Ht). lia.
  - rewrite (bind_Ret _ _ _ _ _ (previous_skip p tok Ht)).
    apply good_skip.
    apply (parses_bind (unary expression n) (fun right => ret (Unary tok right))).
    + apply IH.
      * apply (guarded_skip p tok Hg Ht), (accepts_nonEOF _ _ E).
      * pose proof (room_skip p tok Ht). lia.
      * pose proof (room_skip p tok Ht). lia.
    + intros e p1 _ _ _ Hg1. now apply good_ret.
Qed.

Lemma binaryLoop_parses (types : list TokenType) (operand : M Expr) (R : nat) :
  (forall p, guarded p -> room p <= R -> parses operand p) ->
  forall n expr p,
    guarded p -> room p <= R -> room p <= S n ->
    parses (binaryLoop types operand n expr) p.
Proof.
  intros Hop. induction n as [|n IH]; intros expr p Hg Hr Hn;
    destruct (guarded_tokenHere p Hg) as [tok Ht];
    unfold parses; cbn [binaryLoop];
    rewrite (bind_Ret _ _ p _ _ (parser_match_eq types p tok Ht));
    destruct (accepts types tok) eqn:E;
    try (now apply good_ret).
  - pose proof (guarded_room (skip p) (guarded_skip p tok Hg Ht (accepts_nonEOF _ _ E))).
    pose proof (room_skip p tok Ht). lia.
  - rewrite (bind_Ret _ _ _ _ _ (previous_skip p tok Ht)).
    apply good_skip. pose proof (room_skip p tok Ht) as Hrs.
    apply (parses_bind operand
             (fun right => binaryLoop types operand n (Binary tok expr right))).
    + apply Hop; [|lia].
      apply (guarded_skip p tok Hg Ht), (accepts_nonEOF _ _ E).
    + intros e p1 _ Ht1 Hc1 Hg1. apply IH; auto.
      * unfold room in *. rewrite Ht1. cbn in *. lia.
      * unfold room in *. rewrite Ht1. cbn in *. lia.
Qed.

Lemma level_parses (types : list TokenType) (operand : M Expr) (R n : nat) p :
  (forall p, guarded p -> room p <= R -> parses operand p) ->
  guarded p -> room p <= R -> room p <= S n ->
  parses (expr <- operand ;; binaryLoop types operand n expr) p.
Proof.
  intros Hop Hg Hr Hn. apply parses_bind; [now apply Hop|].
  intros e p1 _ Ht1 Hc1 Hg1. apply (binaryLoop_parses types operand R Hop); auto.
  - unfold room in *. rewrite Ht1. lia.
  - unfold room in *. rewrite Ht1. lia.
Qed.

Lemma factor_parses n p :
  guarded p -> room p <= S N -> room p <= S n -> parses (factor expression n) p.
Proof.
  intros Hg Hr Hn. apply (level_parses _ _ (Nat.min (S N) (S n))); auto; [|lia].
  intros p' Hg' Hr'. apply unary_parses; auto; lia.
Qed.

Lemma term_parses n p :
  guarded p -> room p <= S N -> room p <= S n -> parses (term expression n) p.
Proof.
  intros Hg Hr Hn. apply (level_parses _ _ (Nat.min (S N) (S n))); auto; [|lia].
  intros p' Hg' Hr'. apply factor_parses; auto; lia.
Qed.

Lemma comparison_parses n p :
  guarded p -> room p <= S N -> room p <= S n -> parses (comparison expression n) p.
Proof.
  intros Hg Hr Hn. apply (level_parses _ _ (Nat.min (S N) (S n))); auto; [|lia].
  intros p' Hg' Hr'. apply term_parses; auto; lia.
Qed.

Lemma equality_parses n p :
  guarded p -> room p <= S N -> room p <= S n -> parses (equality expression n) p.
Proof.
  intros Hg Hr Hn. apply (level_parses _ _ (Nat.min (S N) (S n))); auto; [|lia].
  intros p' Hg' Hr'. apply comparison_parses; auto; lia.
Qed.

End Grammar.

Lemma expression_parses : forall n p,
  guarded p -> room p <= n -> parses (expression n) p.
Proof.
  induction n as [|n IH]; intros p Hg Hr.
  - pose proof (guarded_room p Hg). lia.
  - cbn [expression]. apply (equality_parses (expression n) n IH); auto.
Qed.

(** More fuel does not change what the parser returns. *)
Lemma binaryLoop_refines (types : list TokenType) (op1 op2 : M Expr) :
  (forall p, refines (op1 p) (op2 p)) ->
  forall n m, n <= m ->
  forall expr p, refines (binaryLoop types op1 n expr p) (binaryLoop types op2 m expr p).
Proof.
  intros Hop. induction n as [|n IH]; intros m Hm expr p.
  - destruct m as [|m]; cbn [binaryLoop]; apply bind_refines; try apply refines_refl;
      intros [|] p'; try apply refines_refl; intros H; now destruct H.
  - destruct m as [|m]; [lia|]. cbn [binaryLoop].
    apply bind_refines; [apply refines_refl|]. intros [|] p1; [|apply refines_refl].
    apply bind_refines; [apply refines_refl|]. intros op p2.
    apply bind_refines; [apply Hop|]. intros right p3. apply IH. lia.
Qed.

Section Refinement.

Variables ex1 ex2 : M Expr.
Hypothesis ex_refines : forall p, refines (ex1 p) (ex2 p).

Lemma primary_refines p : refines (primary ex1 p) (primary ex2 p).
Proof.
  unfold primary.
  repeat (apply bind_refines; [apply refines_refl|]; intros [|] ?; [apply refines_refl|]).
  apply bind_refines; [apply refines_refl|]. intros [|] p1; [|apply refines_refl].
  apply bind_refines; [apply ex_refines|]. intros; apply refines_refl.
Qed.

Lemma unary_refines : forall n m, n <= m -> forall p, refines (unary ex1 n p) (unary ex2 m p).
Proof.
  induction n as [|n IH]; intros m Hm p.
  - destruct m as [|m]; cbn [unary]; apply bind_refines; try apply refines_refl;
      intros [|] p'; cbn [negb]; try apply primary_refines; intros H; now destruct H.
  - destruct m as [|m]; [lia|]. cbn [unary].
    apply bind_refines; [apply refines_refl|]. intros [|] p1; cbn [negb];
      [|apply primary_refines].
    apply bind_refines; [apply refines_refl|]. intros op p2.
    apply bind_refines; [apply IH; lia|]. intros; apply refines_refl.
Qed.

Lemma factor_refines n m p : n <= m -> refines (factor ex1 n p) (factor ex2 m p).
Proof.
  intros H. unfold factor. apply bind_refines; [now apply unary_refines|].
  intros e p1. apply binaryLoop_refines; [|exact H]. intros p2. now apply unary_refines.
Qed.

Lemma term_refines n m p : n <= m -> refines (term ex1 n p) (term ex2 m p).
Proof.
  intros H. unfold term. apply bind_refines; [now apply factor_refines|].
  intros e p1. apply binaryLoop_refines; [|exact H]. intros p2. now apply factor_refines.
Qed.

Lemma comparison_refines n m p : n <= m -> refines (comparison ex1 n p) (comparison ex2 m p).
Proof.
  intros H. unfold comparison. apply bind_refines; [now apply term_refines|].
  intros e p1. apply binaryLoop_refines; [|exact H]. intros p2. now apply term_refines.
Qed.

Lemma equality_refines n m p : n <= m -> refines (equality ex1 n p) (equality ex2 m p).
Proof.
  intros H. unfold equality. apply bind_refines; [now apply comparison_refines|].
  intros e p1. apply binaryLoop_refines; [|exact H]. intros p2. now apply comparison_refines.
Qed.

End Refinement.

Lemma expression_refines : forall n m, n <= m ->
  forall p, refines (expression n p) (expression m p).
Proof.
  induction n as [|n IH]; intros m Hm p.
  - intros H. now destruct H.
  - destruct m as [|m]; [lia|]. cbn [expression].
    apply equality_refines; [|exact Hm]. intros p'. apply IH. lia.
Qed.

Lemma ParseFuel_refines n m p : n <= m -> refines (ParseFuel n p) (ParseFuel m p).
Proof.
  intros H. unfold ParseFuel. pose proof (expression_refines n m H p) as Hr.
  destruct (expression n p) as [[e p']| | |].
  - now rewrite Hr.
  - now rewrite Hr.
  - now rewrite Hr.
  - intros X. now destruct X.
Qed.

Lemma guarded_NewParser toks :
  (exists tok, In tok toks /\ Type_ tok = EOF) -> guarded (NewParser toks).
Proof.
  intros (tok & Hin & He). apply In_nth_error in Hin. destruct Hin as [j Hj].
  exists j, tok. cbn. repeat split; auto. lia.
Qed.

(** C8, as the code has it: on tokens that hold an end-of-input token, as
    those of the scanner do, [Parse] returns either a tree and no error, or no
    tree and one error, the error of the grammar violation that stopped it;
    a larger bound on the recursion gives the same result. *)
Theorem Parse_tree_or_one_error (toks : list Token) :
  (exists tok, In tok toks /\ Type_ tok = EOF) ->
  ((exists expr, Parse (NewParser toks) = Ret (Some expr, None)) \/
   (exists err, Parse (NewParser toks) = Ret (None, Some err)
                /\ grammarError (NewParser toks) err)) /\
  (forall fuel, S (List.length toks) <= fuel ->
     ParseFuel fuel (NewParser toks) = Parse (NewParser toks)).
Proof.
  intros He.
  assert (Hd : (exists expr, Parse (NewParser toks) = Ret (Some expr, None)) \/
               (exists err, Parse (NewParser toks) = Ret (None, Some err)
                            /\ grammarError (NewParser toks) err)).
  { unfold Parse, ParseFuel.
    destruct (expression_parses (S (List.length toks)) (NewParser toks))
      as [(e & p' & H & _)|(err & H & Hg)].
    - now apply guarded_NewParser.
    - unfold room. cbn. lia.
    - left. exists e. cbn [tokens NewParser]. now rewrite H.
    - right. exists err. cbn [tokens NewParser]. now rewrite H. }
  split; [exact Hd|].
  intros fuel Hf. apply (ParseFuel_refines (S (List.length toks)) fuel _ Hf).
  change (ParseFuel (S (List.length toks)) (NewParser toks)) with (Parse (NewParser toks)).
  destruct Hd as [(e & ->)|(err & -> & _)]; discriminate.
Qed.

(** C8 as stated fails: on a token slice without an end-of-input token the
    parser indexes past the slice and the call panics. *)
Lemma Parse_without_EOF_panics :
  Parse (NewParser []) = Fault /\
  ~ ((exists expr, Parse (NewParser []) = Ret (Some expr, None)) \/
     (exists err, Parse (NewParser []) = Ret (None, Some err))).
Proof.
  split; [reflexivity|]. intros [(e & H)|(err & H)]; discriminate.
Qed.

Lemma levelRule_eq sub l fuel :
  levelRule sub l fuel
  = (expr <- operandRule sub l fuel ;;
     binaryLoop (operators l) (operandRule sub l fuel) fuel expr).
Proof. now destruct l. Qed.

Lemma binaryLoop_step types operand n expr p op right p1 :
  tokenHere p op -> accepts types op = true ->
  operand (skip p) = Ret (right, p1) ->
  binaryLoop types operand (S n) expr p = binaryLoop types operand n (Binary op expr right) p1.
Proof.
  intros Ht Ha Ho. cbn [binaryLoop].
  rewrite (bind_Ret _ _ p _ _ (parser_match_eq types p op Ht)). rewrite Ha.
  rewrite (bind_Ret _ _ _ _ _ (previous_skip p op Ht)).
  now rewrite (bind_Ret _ _ _ _ _ Ho).
Qed.

Lemma binaryLoop_stop types operand n expr p tok :
  tokenHere p tok -> accepts types tok = false ->
  binaryLoop types operand n expr p = Ret (expr, p).
Proof.
  intros Ht Ha. destruct n; cbn [binaryLoop];
    rewrite (bind_Ret _ _ p _ _ (parser_match_eq types p tok Ht)); now rewrite Ha.
Qed.

Lemma existsb_beq_In (typ : TokenType) (types : list TokenType) :
  existsb (TokenType_beq typ) types = true <-> In typ types.
Proof.
  rewrite existsb_exists. split.
  - intros (x & Hx & E). destruct (TokenType_beq_spec typ x); congruence.
  - intros H. exists typ. split; [exact H|apply TokenType_beq_refl].
Qed.

Lemma accepts_operator l tok : In (Type_ tok) (operators l) -> accepts (operators l) tok = true.
Proof.
  intros H. unfold accepts. apply andb_true_intro. split.
  - apply negb_true_iff. destruct (TokenType_beq_spec (Type_ tok) EOF) as [E|]; [|reflexivity].
    rewrite E in H. destruct l; cbn in H; intuition discriminate.
  - now apply existsb_beq_In.
Qed.

Lemma accepts_other types tok : ~ In (Type_ tok) types -> accepts types tok = false.
Proof.
  intros H. unfold accepts. apply andb_false_iff. right.
  destruct (existsb (TokenType_beq (Type_ tok)) types) eqn:E; [|reflexivity].
  now apply existsb_beq_In in E.
Qed.

Lemma chain_folds_left sub l fuel p0 a p1 op1 b p2 op2 c p3 stop :
  2 <= fuel ->
  operandRule sub l fuel p0 = Ret (a, p1) ->
  tokenHere p1 op1 -> In (Type_ op1) (operators l) ->
  operandRule sub l fuel (skip p1) = Ret (b, p2) ->
  tokenHere p2 op2 -> In (Type_ op2) (operators l) ->
  operandRule sub l fuel (skip p2) = Ret (c, p3) ->
  tokenHere p3 stop -> ~ In (Type_ stop) (operators l) ->
  levelRule sub l fuel p0 = Ret (Binary op2 (Binary op1 a b) c, p3).
Proof.
  intros Hf Ha H1 I1 Hb H2 I2 Hc H3 I3. rewrite levelRule_eq.
  rewrite (bind_Ret _ _ p0 _ _ Ha).
  destruct fuel as [|[|fuel]]; try lia.
  rewrite (binaryLoop_step _ _ _ _ p1 op1 b p2 H1 (accepts_operator l op1 I1) Hb).
  rewrite (binaryLoop_step _ _ _ _ p2 op2 c p3 H2 (accepts_operator l op2 I2) Hc).
  apply (binaryLoop_stop _ _ _ _ p3 stop H3). now apply accepts_other.
Qed.

Lemma Parse_at_EOF (lexeme : string) (literal : value) (line : Z) (rest : list Token) :
  Parse (NewParser (NewToken EOF lexeme literal line :: rest))
  = Ret (None, Some (error (NewToken EOF lexeme literal line) "Expect expression")).
Proof. reflexivity. Qed.

Lemma error_contains_message (tok : Token) (message : string) :
  contains (error tok message) message.
Proof.
  exists (Lexeme tok ++ " " ++ TokenType_String (Type_ tok) ++ " " ++ fmt_int (Line tok)
            ++ " at '"), "'".
  unfold error. rewrite !append_assoc. reflexivity.
Qed.

End ParserFacts.

(** ** The interpreter *)

Module InterpreterFacts.
Import Interpreter.

Section WithLibrary.

Variable FormatFloat : float64 -> string.

Lemma evaluate_binary (op : Token) (L R : Expr) (vl vr : value) :
  evaluate FormatFloat L = Ret vl -> evaluate FormatFloat R = Ret vr ->
  evaluate FormatFloat (Binary op L R) = visitBinaryExpr FormatFloat op vl vr.
Proof. intros HL HR. cbn [evaluate]. now rewrite HL, HR. Qed.

Lemma evaluate_binary_left_panics (op : Token) (L R : Expr) (e : RuntimeError) :
  evaluate FormatFloat L = Panic e -> evaluate FormatFloat (Binary op L R) = Panic e.
Proof. intros HL. cbn [evaluate]. now rewrite HL. Qed.

Lemma evaluate_binary_right_panics (op : Token) (L R : Expr) (vl : value) (e : RuntimeError) :
  evaluate FormatFloat L = Ret vl -> evaluate FormatFloat R = Panic e -> evaluate FormatFloat (Binary op L R) = Panic e.
Proof. intros HL HR. cbn [evaluate]. now rewrite HL, HR. Qed.

Lemma visitBinaryExpr_returns_or_panics (op : Token) (vl vr : value) :
  (exists v, visitBinaryExpr FormatFloat op vl vr = Ret v) \/
  (exists e, visitBinaryExpr FormatFloat op vl vr = Panic e).
Proof.
  unfold visitBinaryExpr, arith, checkNumberOperands.
  destruct (Type_ op), vl, vr; cbn; eauto.
Qed.

Lemma visitUnaryExpr_returns_or_panics (op : Token) (v : value) :
  (exists v', visitUnaryExpr FormatFloat op v = Ret v') \/
  (exists e, visitUnaryExpr FormatFloat op v = Panic e).
Proof.
  unfold visitUnaryExpr, checkNumberOperand.
  destruct (Type_ op), v; cbn; eauto.
Qed.

(** [evaluate] needs no fuel and its type assertions never fail. *)
Lemma evaluate_returns_or_panics (expr : Expr) :
  (exists v, evaluate FormatFloat expr = Ret v) \/
  (exists e, evaluate FormatFloat expr = Panic e).
Proof.
  induction expr as [op L IHL R IHR|op R IHR|v|e IHe]; cbn [evaluate].
  - destruct IHL as [[vl ->]|[e ->]]; [|right; now exists e].
    destruct IHR as [[vr ->]|[e ->]]; [|right; now exists e].
    apply visitBinaryExpr_returns_or_panics.
  - destruct IHR as [[vr ->]|[e ->]]; [|right; now exists e].
    apply visitUnaryExpr_returns_or_panics.
  - left. now exists v.
  - exact IHe.
Qed.

(** C2: a binary [or] (resp. [and]) node evaluates both operands: a runtime
    error of the left operand, or of the right operand after the left one
    returned any value at all, is the outcome of the node; when both return,
    the node yields the disjunction (resp. conjunction) of their truthiness,
    whatever their kinds; and the node returns only if both operands did. *)
Theorem or_and_evaluate_both_operands (op : Token) (L R : Expr) :
  Type_ op = OR \/ Type_ op = AND ->
  (forall e, evaluate FormatFloat L = Panic e ->
             evaluate FormatFloat (Binary op L R) = Panic e) /\
  (forall vl e, evaluate FormatFloat L = Ret vl -> evaluate FormatFloat R = Panic e ->
                evaluate FormatFloat (Binary op L R) = Panic e) /\
  (forall vl vr, evaluate FormatFloat L = Ret vl -> evaluate FormatFloat R = Ret vr ->
     (Type_ op = OR ->
      evaluate FormatFloat (Binary op L R) = Ret (VBool (isTruthy vl || isTruthy vr))) /\
     (Type_ op = AND ->
      evaluate FormatFloat (Binary op L R) = Ret (VBool (isTruthy vl && isTruthy vr)))) /\
  (forall v, evaluate FormatFloat (Binary op L R) = Ret v ->
     exists vl vr, evaluate FormatFloat L = Ret vl /\ evaluate FormatFloat R = Ret vr).
Proof.
  intros _. split; [|split; [|split]].
  - intros e. apply evaluate_binary_left_panics.
  - intros vl e. apply evaluate_binary_right_panics.
  - intros vl vr HL HR.
    rewrite (evaluate_binary op L R vl vr HL HR). unfold visitBinaryExpr.
    split; intros ->; reflexivity.
  - intros v Hv.
    destruct (evaluate_returns_or_panics L) as [[vl HL]|[e HL]].
    + destruct (evaluate_returns_or_panics R) as [[vr HR]|[e HR]].
      * now exists vl, vr.
      * rewrite (evaluate_binary_right_panics op L R vl e HL HR) in Hv. discriminate.
    + rewrite (evaluate_binary_left_panics op L R e HL) in Hv. discriminate.
Qed.

(** C7: a binary [+] node whose operands evaluate to two numbers yields their
    sum, to two strings their concatenation; for every other pair of operand
    values, a number with a string among them, it panics with the runtime
    error "Operands must be two numbers or two strings: " followed by the
    operator token. *)
Theorem plus_adds_concatenates_or_fails (op : Token) (L R : Expr) (vl vr : value) :
  Type_ op = PLUS ->
  evaluate FormatFloat L = Ret vl -> evaluate FormatFloat R = Ret vr ->
  (forall x y, vl = VNum x -> vr = VNum y ->
     evaluate FormatFloat (Binary op L R) = Ret (VNum (fadd x y))) /\
  (forall x y, vl = VStr x -> vr = VStr y ->
     evaluate FormatFloat (Binary op L R) = Ret (VStr (x ++ y))) /\
  ((forall x y, vl = VNum x -> vr <> VNum y) ->
   (forall x y, vl = VStr x -> vr <> VStr y) ->
   evaluate FormatFloat (Binary op L R)
   = Panic ("Operands must be two numbers or two strings: " ++ Token_String FormatFloat op)) /\
  (forall (x : float64) (s : string),
     (vl = VNum x /\ vr = VStr s) \/ (vl = VStr s /\ vr = VNum x) ->
   evaluate FormatFloat (Binary op L R)
   = Panic ("Operands must be two numbers or two strings: " ++ Token_String FormatFloat op)).
Proof.
  intros Hop HL HR.
  rewrite (evaluate_binary op L R vl vr HL HR). unfold visitBinaryExpr. rewrite Hop.
  repeat split.
  - now intros x y -> ->.
  - now intros x y -> ->.
  - intros Hn Hs. destruct vl as [|x|x|x], vr as [|y|y|y]; try reflexivity.
    + now destruct (Hn x y eq_refl).
    + now destruct (Hs x y eq_refl).
  - now intros x s [[-> ->]|[-> ->]].
Qed.

End WithLibrary.

Lemma compare_cont_Eq_sym (p q : positive) :
  Pos.compare_cont Eq q p = CompOpp (Pos.compare_cont Eq p q).
Proof. now rewrite Pos.compare_cont_antisym. Qed.

Lemma SFcompare_Eq_sym (x y : float64) :
  SFcompare x y = Some Eq -> SFcompare y x = Some Eq.
Proof.
  destruct x as [sx|sx| |sx mx ex], y as [sy|sy| |sy my ey]; cbn; try congruence;
    try (destruct sx, sy; cbn; congruence).
  destruct sx, sy; try congruence;
    rewrite (Z.compare_antisym ex ey), (compare_cont_Eq_sym mx my);
    destruct (ex ?= ey)%Z; cbn; try congruence;
    destruct (Pos.compare_cont Eq mx my); cbn; congruence.
Qed.

Lemma feq_sym (x y : float64) : feq x y = feq y x.
Proof.
  unfold feq, SFeqb.
  destruct (SFcompare x y) as [[]|] eqn:Hxy.
  - now rewrite (SFcompare_Eq_sym x y Hxy).
  - destruct (SFcompare y x) as [[]|] eqn:Hyx; try reflexivity.
    rewrite (SFcompare_Eq_sym y x Hyx) in Hxy. discriminate.
  - destruct (SFcompare y x) as [[]|] eqn:Hyx; try reflexivity.
    rewrite (SFcompare_Eq_sym y x Hyx) in Hxy. discriminate.
  - destruct (SFcompare y x) as [[]|] eqn:Hyx; try reflexivity.
    rewrite (SFcompare_Eq_sym y x Hyx) in Hxy. discriminate.
Qed.

Lemma feq_refl (x : float64) : x <> S754_nan -> feq x x = true.
Proof.
  intros Hx. unfold feq, SFeqb.
  destruct x as [s|s| |s m e]; cbn; try congruence.
  - now destruct s.
  - destruct s; rewrite Z.compare_refl;
      replace (Pos.compare_cont Eq m m) with Eq
        by (symmetry; apply Pos.compare_cont_refl); reflexivity.
Qed.

Lemma DeepEqual_sym (a b : value) : DeepEqual a b = DeepEqual b a.
Proof.
  destruct a, b; cbn; try reflexivity.
  - apply feq_sym.
  - apply String.eqb_sym.
  - now destruct b, b0.
Qed.

(** C4, as the code has it: a binary [==] node yields [isEqual] of its operand
    values; [isEqual] is symmetric on all values, the absent value is equal
    to itself and to no value of another kind, and every value is equal to
    itself except a number that is NaN. *)
Theorem isEqual_symmetric_reflexive_but_nan (a b : value) :
  (forall FormatFloat op, Type_ op = EQUAL_EQUAL ->
     evaluate FormatFloat (Binary op (Literal a) (Literal b)) = Ret (VBool (isEqual a b))) /\
  isEqual a b = isEqual b a /\
  (isNaN a = false -> isEqual a a = true) /\
  (isEqual VNil b = true <-> b = VNil) /\
  (isEqual a VNil = true <-> a = VNil).
Proof.
  split; [|repeat split].
  - intros FormatFloat op Hop. cbn. unfold visitBinaryExpr. now rewrite Hop.
  - destruct a, b; try reflexivity; unfold isEqual; apply DeepEqual_sym.
  - destruct a as [|x|x|x]; cbn; intros Hn; try reflexivity.
    + apply feq_refl. intros ->. discriminate.
    + apply String.eqb_refl.
    + now destruct x.
  - destruct b; cbn; congruence.
  - now intros ->.
  - destruct a; cbn; congruence.
  - now intros ->.
Qed.

Lemma isEqual_symmetric_reflexive_but_nan_witness :
  isNaN (VNum fzero) = false /\ isEqual (VNum fzero) (VNum fzero) = true.
Proof.
  split; [reflexivity|].
  apply (proj1 (proj2 (proj2 (isEqual_symmetric_reflexive_but_nan (VNum fzero) VNil)))).
  reflexivity.
Defined.

(** C4 as stated fails: [0/0] is NaN, a NaN is not equal to itself, and the
    expression [0/0 == 0/0] evaluates to false. *)
Lemma isEqual_not_reflexive_on_nan :
  fdiv fzero fzero = fnan /\
  isEqual (VNum (fdiv fzero fzero)) (VNum (fdiv fzero fzero)) = false /\
  evaluate Reference.FormatFloat
    (Binary (NewToken EQUAL_EQUAL "==" VNil 0)
       (Binary (NewToken SLASH "/" VNil 0) (Literal (VNum fzero)) (Literal (VNum fzero)))
       (Binary (NewToken SLASH "/" VNil 0) (Literal (VNum fzero)) (Literal (VNum fzero))))
  = Ret (VBool false).
Proof. repeat split. Qed.

End InterpreterFacts.

(** ** Source texts through the three stages *)

Module PipelineFacts.

Section WithLibrary.

Variable ParseFloat : string -> float64.
Variable FormatFloat : float64 -> string.

(** C1, as the code has it: the parser turns the literal [nil] into the string
    "null", which is truthy, so the expression parsed from [!nil] evaluates
    to the boolean false, not to true; the one parsed from [!0] evaluates to
    false, zero being truthy. *)
Theorem bang_nil_evaluates_to_false :
  evaluateSource ParseFloat FormatFloat "!nil"
  = Evaluated (Unary (NewToken BANG "!" VNil 0) (Literal (VStr "null")))
              (Ret (VBool false)) /\
  evaluateSource ParseFloat FormatFloat "!0"
  = Evaluated (Unary (NewToken BANG "!" VNil 0) (Literal (VNum (ParseFloat "0"))))
              (Ret (VBool false)).
Proof. split; vm_compute; reflexivity. Qed.

(** C3: the tokens of [1 2] are a number, a second number and the
    end-of-input token; [Parse] succeeds on them with the tree of the first
    number and no error, its cursor left on the second number. *)
Theorem Parse_ignores_trailing_tokens :
  exists first second last,
    Scanner.ScanTokens ParseFloat "1 2" = Ret ([first; second; last], []) /\
    Type_ second = NUMBER /\ Lexeme second = "2" /\ Type_ last = EOF /\
    Parser.Parse (Parser.NewParser [first; second; last])
    = Ret (Some (Literal (Literal_ first)), None) /\
    Parser.expression 4 (Parser.NewParser [first; second; last])
    = Ret (Literal (Literal_ first), Parser.set_current 1 (Parser.NewParser [first; second; last])).
Proof.
  exists (NewToken NUMBER "1" (VNum (ParseFloat "1")) 0),
         (NewToken NUMBER "2" (VNum (ParseFloat "2")) 0),
         (NewToken EOF EmptyString VNil 0).
  repeat split; vm_compute; reflexivity.
Qed.

(** C6: at each of the four binary levels a chain of three operands joined by
    two operators of the level folds to the left, the first two operands
    under the first operator; the source [1 + 2 + 3] parses to a tree that
    the printer renders as "(+ (+ 1 2) 3)", given that the library reads the
    numerals 1, 2, 3 and prints them back as such. *)
Theorem binary_levels_left_associative :
  (forall sub l fuel p0 a p1 op1 b p2 op2 c p3 stop,
     2 <= fuel ->
     Parser.operandRule sub l fuel p0 = Ret (a, p1) ->
     Parser.tokenHere p1 op1 -> In (Type_ op1) (Parser.operators l) ->
     Parser.operandRule sub l fuel (Parser.skip p1) = Ret (b, p2) ->
     Parser.tokenHere p2 op2 -> In (Type_ op2) (Parser.operators l) ->
     Parser.operandRule sub l fuel (Parser.skip p2) = Ret (c, p3) ->
     Parser.tokenHere p3 stop -> ~ In (Type_ stop) (Parser.operators l) ->
     Parser.levelRule sub l fuel p0 = Ret (Binary op2 (Binary op1 a b) c, p3)) /\
  (FormatFloat (ParseFloat "1") = "1" ->
   FormatFloat (ParseFloat "2") = "2" ->
   FormatFloat (ParseFloat "3") = "3" ->
   exists expr,
     parseSource ParseFloat "1 + 2 + 3" = Ret (Some expr, None) /\
     expr = Binary (NewToken PLUS "+" VNil 0)
              (Binary (NewToken PLUS "+" VNil 0)
                 (Literal (VNum (ParseFloat "1"))) (Literal (VNum (ParseFloat "2"))))
              (Literal (VNum (ParseFloat "3"))) /\
     AstPrinter.Print FormatFloat expr = "(+ (+ 1 2) 3)").
Proof.
  split.
  - intros sub l fuel p0 a p1 op1 b p2 op2 c p3 stop.
    apply ParserFacts.chain_folds_left.
  - intros H1 H2 H3.
    exists (Binary (NewToken PLUS "+" VNil 0)
              (Binary (NewToken PLUS "+" VNil 0)
                 (Literal (VNum (ParseFloat "1"))) (Literal (VNum (ParseFloat "2"))))
              (Literal (VNum (ParseFloat "3")))).
    split; [vm_compute; reflexivity|]. split; [reflexivity|].
    cbn [AstPrinter.Print AstPrinter.visitLiteralExpr fmt_value Lexeme].
    rewrite H1, H2, H3. vm_compute. reflexivity.
Qed.

(** C9: on tokens that begin with an end-of-input token, and so on that token
    alone, [Parse] returns no tree and the syntax error "Expect expression"
    at that token, whatever follows it in the slice; a source of blanks only
    scans to that single token, and so parses to this error. *)
Theorem Parse_only_EOF_expects_expression :
  (forall lexeme literal line rest,
     Parser.Parse (Parser.NewParser (NewToken EOF lexeme literal line :: rest))
     = Ret (None, Some (Parser.error (NewToken EOF lexeme literal line) "Expect expression")) /\
     Parser.Parse (Parser.NewParser [NewToken EOF lexeme literal line])
     = Ret (None, Some (Parser.error (NewToken EOF lexeme literal line) "Expect expression")) /\
     contains (Parser.error (NewToken EOF lexeme literal line) "Expect expression")
              "Expect expression") /\
  (forall src,
     Scanner.allSpace src = true ->
     exists l,
       Scanner.ScanTokens ParseFloat src = Ret ([Scanner.eofToken l], []) /\
       parseSource ParseFloat src
       = Ret (None, Some (Parser.error (Scanner.eofToken l) "Expect expression"))).
Proof.
  split.
  - intros lexeme literal line rest. split; [apply ParserFacts.Parse_at_EOF|].
    split; [apply ParserFacts.Parse_at_EOF|]. apply ParserFacts.error_contains_message.
  - intros src Hsp. destruct (ScannerFacts.ScanTokens_space ParseFloat src Hsp) as [l Hl].
    exists l. split; [exact Hl|]. unfold parseSource. rewrite Hl.
    apply ParserFacts.Parse_at_EOF.
Qed.

End WithLibrary.

End PipelineFacts.

(** ** Further properties of the scanner *)

Lemma substring_add (s : string) : forall n a b,
  substring n (a + b) s = (substring n a s ++ substring (n + a) b s)%string.
Proof.
  induction s as [|c s IH]; intros n a b.
  - destruct n, a, b; reflexivity.
  - destruct n as [|n].
    + destruct a as [|a]; cbn [Nat.add].
      * reflexivity.
      * cbn. f_equal. apply (IH 0 a b).
    + cbn. apply IH.
Qed.

Lemma substring_zero (s : string) : forall n, substring n 0 s = EmptyString.
Proof. induction s as [|a s IH]; intros [|n]; cbn; auto. Qed.

Lemma append_empty_r (s : string) : (s ++ EmptyString)%string = s.
Proof. induction s as [|a s IH]; cbn; [reflexivity|now rewrite IH]. Qed.

Lemma substring_one (s : string) : forall i c,
  String.get i s = Some c -> substring i 1 s = String c EmptyString.
Proof.
  induction s as [|a s IH]; intros i c H; [destruct i; discriminate|].
  destruct i as [|i]; cbn in *.
  - injection H as ->. now destruct s.
  - now apply IH.
Qed.

Lemma length_substring (s : string) : forall n m,
  n + m <= String.length s -> String.length (substring n m s) = m.
Proof.
  induction s as [|a s IH]; intros n m H; cbn in H.
  - destruct n, m; cbn; lia.
  - destruct n as [|n]; cbn.
    + destruct m as [|m]; cbn; [reflexivity|]. f_equal. apply IH. lia.
    + apply IH. lia.
Qed.

Module ScannerMoreFacts.
Import Scanner ScannerMore ScannerFacts.

Lemma allChars_get (p : ascii -> bool) (s : string) :
  (forall i c, String.get i s = Some c -> p c = true) -> allChars p s = true.
Proof.
  induction s as [|a s IH]; intros H; [reflexivity|]. cbn.
  rewrite (H 0 a eq_refl). apply IH. intros i c Hc. now apply (H (S i)).
Qed.

Lemma allChars_substring (p : ascii -> bool) (s : string) lo hi :
  (forall i, lo <= i < hi -> exists c, String.get i s = Some c /\ p c = true) ->
  allChars p (substring lo (hi - lo) s) = true.
Proof.
  intros H. apply allChars_get. intros i c Hc.
  destruct (Nat.lt_ge_cases i (hi - lo)) as [Hlt|Hge].
  - rewrite (substring_correct1 s lo (hi - lo) i Hlt) in Hc.
    destruct (H (i + lo)) as (c' & Hc' & Hp); [lia|]. congruence.
  - rewrite (substring_correct2 s lo (hi - lo) i Hge) in Hc. discriminate.
Qed.

Lemma lfBefore_S (src : string) : forall n c,
  String.get n src = Some c -> lfBefore src (S n) = (lfBefore src n + lfOf c)%Z.
Proof.
  induction src as [|a src IH]; intros n c H; [destruct n; discriminate|].
  destruct n as [|n].
  - cbn in H. injection H as ->. cbn [lfBefore]. destruct src; cbn [lfBefore]; lia.
  - cbn in H. cbn [lfBefore]. rewrite (IH n c H). lia.
Qed.

Lemma curByte_get s : current s < String.length (source s) ->
  String.get (current s) (source s) = Some (curByte s).
Proof.
  intros H. unfold curByte. now destruct (get_lt (source s) (current s) H) as [c ->].
Qed.

Lemma run_refl pred s : run pred s s.
Proof.
  split; [apply advanced_refl|]. split; [lia|]. intros i Hi. lia.
Qed.

Lemma run_step pred s s1 s' :
  current s < String.length (source s) -> pred (curByte s) = true ->
  stepped s s1 -> run pred s1 s' -> run pred s s'.
Proof.
  intros Hlt Hp (A1 & A2 & A3 & A4 & A5 & A6) ((B1 & B2 & B3 & B4 & B5 & B6) & Bl & Bp).
  rewrite A1 in *. split; [|split].
  - unfold advanced. rewrite B1, B2, B3, B4, A2, A3, A4. repeat split; lia.
  - rewrite Bl, A6, A5, Nat.add_1_r, (lfBefore_S _ _ _ (curByte_get s Hlt)). lia.
  - intros i Hi. destruct (Nat.eq_dec i (current s)) as [->|Hne].
    + exists (curByte s). split; [now apply curByte_get|exact Hp].
    + apply Bp. lia.
Qed.

Lemma scan_run (cond : M bool) (body : M unit) (test : t -> bool) (pred : ascii -> bool) :
  (forall s, cond s = Ret (test s, s)) ->
  (forall s, test s = true ->
     current s < String.length (source s) /\ pred (curByte s) = true) ->
  (forall s, test s = true -> exists s1, body s = Ret (tt, s1) /\ stepped s s1) ->
  forall fuel s, String.length (source s) - current s <= fuel ->
    exists s', while cond body fuel s = Ret (tt, s') /\ run pred s s' /\ test s' = false.
Proof.
  intros Hc Ht Hb. induction fuel as [|fuel IH]; intros s Hf.
  - exists s. cbn [while]. rewrite (bind_Ret _ _ s _ _ (Hc s)).
    destruct (test s) eqn:E.
    + apply Ht in E. lia.
    + split; [reflexivity|]. split; [apply run_refl|first [exact E|reflexivity]].
  - cbn [while]. rewrite (bind_Ret _ _ s _ _ (Hc s)).
    destruct (test s) eqn:E.
    + destruct (Hb s E) as (s1 & Hs1 & Hst). destruct (Ht s E) as [Hlt Hp].
      rewrite (bind_Ret _ _ s _ _ Hs1).
      destruct (IH s1) as (s' & H1 & H2 & H3).
      { destruct Hst as (A1 & _ & _ & _ & A5 & _). rewrite A1, A5. lia. }
      exists s'. split; [exact H1|]. split; [|exact H3].
      now apply (run_step pred s s1 s').
    + exists s. split; [reflexivity|]. split; [apply run_refl|first [exact E|reflexivity]].
Qed.

Lemma stepped_skip s : (curByte s =? LF)%char = false -> stepped s (skip s).
Proof. intros H. unfold stepped, lfOf. rewrite H. cbn. repeat split; lia. Qed.

Lemma body_advance_stepped s :
  current s < String.length (source s) -> (curByte s =? LF)%char = false ->
  exists s1, (advance ;; ret tt) s = Ret (tt, s1) /\ stepped s s1.
Proof.
  intros H Hn. exists (skip s). split; [|now apply stepped_skip].
  now rewrite (bind_Ret _ _ s _ _ (advance_eq s H)).
Qed.

Lemma body_string_stepped s :
  current s < String.length (source s) ->
  exists s1, (c <- peek ;; (if (c =? LF)%char then incLine else ret tt) ;; advance ;; ret tt) s
             = Ret (tt, s1) /\ stepped s s1.
Proof.
  intros H. rewrite (bind_Ret _ _ s _ _ (peek_eq s)).
  assert (Hp : peekByte s = curByte s).
  { unfold peekByte. apply atEnd_false in H. now rewrite H. }
  rewrite Hp. unfold stepped, lfOf. destruct (curByte s =? LF)%char.
  - exists (set_line (line s + 1)%Z (skip s)). split; [|cbn; repeat split; lia].
    unfold incLine. rewrite (bind_Ret _ _ s tt (set_line (line s + 1)%Z s) eq_refl).
    now rewrite (bind_Ret _ _ _ _ _ (advance_eq (set_line (line s + 1)%Z s) H)).
  - exists (skip s). split; [|cbn; repeat split; lia].
    rewrite (bind_Ret _ _ s tt s eq_refl).
    now rewrite (bind_Ret _ _ _ _ _ (advance_eq s H)).
Qed.

Lemma testPeek_curByte (p : ascii -> bool) s :
  p NUL = false -> testPeek p s = true ->
  current s < String.length (source s) /\ p (curByte s) = true.
Proof.
  intros Hn Ht. pose proof (testPeek_not_atEnd p s Hn Ht) as Hlt. split; [exact Hlt|].
  unfold testPeek, peekByte in Ht. apply atEnd_false in Hlt. now rewrite Hlt in Ht.
Qed.

Lemma testUntil_curByte (stop : ascii) s :
  testUntil stop s = true ->
  current s < String.length (source s) /\ negb (curByte s =? stop)%char = true.
Proof.
  intros Ht. pose proof (testUntil_not_atEnd stop s Ht) as Hlt. split; [exact Hlt|].
  unfold testUntil, peekByte in Ht. apply atEnd_false in Hlt. rewrite Hlt in Ht.
  now apply andb_prop in Ht.
Qed.

(** The loops of [identifier] and [number]. *)
Lemma run_peek (p : ascii -> bool) fuel s :
  p NUL = false -> p LF = false ->
  String.length (source s) - current s <= fuel ->
  exists s', while (c <- peek ;; ret (p c)) (advance ;; ret tt) fuel s = Ret (tt, s')
             /\ run p s s' /\ testPeek p s' = false.
Proof.
  intros Hn Hl Hf. apply scan_run; auto.
  - apply cond_peek_eq.
  - intros s0. now apply testPeek_curByte.
  - intros s0 Ht. destruct (testPeek_curByte p s0 Hn Ht) as [Hlt Hp].
    apply body_advance_stepped; [exact Hlt|].
    destruct (Ascii.eqb_spec (curByte s0) LF) as [E|]; [|reflexivity]. congruence.
Qed.

(** The loop of a comment. *)
Lemma run_comment fuel s :
  String.length (source s) - current s <= fuel ->
  exists s', while (c <- peek ;;
                    if negb (c =? LF)%char then e <- isAtEnd ;; ret (negb e) else ret false)
                   (advance ;; ret tt) fuel s = Ret (tt, s')
             /\ run notLF s s' /\ testUntil LF s' = false.
Proof.
  intros Hf. apply scan_run; auto.
  - apply cond_until_eq.
  - intros s0. apply testUntil_curByte.
  - intros s0 Ht. destruct (testUntil_curByte LF s0 Ht) as [Hlt Hp].
    apply body_advance_stepped; [exact Hlt|]. now apply negb_true_iff in Hp.
Qed.

(** The loop of a string literal. *)
Lemma run_string fuel s :
  String.length (source s) - current s <= fuel ->
  exists s', while (c <- peek ;;
                    if negb (c =? QUOTE)%char then e <- isAtEnd ;; ret (negb e) else ret false)
                   (c <- peek ;; (if (c =? LF)%char then incLine else ret tt) ;; advance ;; ret tt)
                   fuel s = Ret (tt, s')
             /\ run notQuote s s' /\ testUntil QUOTE s' = false.
Proof.
  intros Hf. apply scan_run; auto.
  - apply cond_until_eq.
  - intros s0. apply testUntil_curByte.
  - intros s0 Ht. destruct (testUntil_curByte QUOTE s0 Ht) as [Hlt Hp].
    now apply body_string_stepped.
Qed.

Lemma lfBefore_0 (src : string) : lfBefore src 0 = 0%Z.
Proof. now destruct src. Qed.

Lemma lfOf_range c : (0 <= lfOf c <= 1)%Z.
Proof. unfold lfOf. destruct (c =? LF)%char; lia. Qed.

Lemma lfBefore_le (src : string) : forall n m,
  n <= m -> (0 <= lfBefore src n <= lfBefore src m)%Z.
Proof.
  induction src as [|c src IH]; intros n m H.
  - destruct n, m; cbn; lia.
  - destruct n as [|n]; destruct m as [|m]; cbn [lfBefore]; try lia.
    + pose proof (IH 0 m (Nat.le_0_l m)). pose proof (lfOf_range c). lia.
    + pose proof (IH n m (le_S_n _ _ H)). pose proof (lfOf_range c). lia.
Qed.

Lemma byteOr_get src i c : String.get i src = Some c -> byteOr src i = c.
Proof. unfold byteOr. now intros ->. Qed.

Lemma curByte_byteOr s : curByte s = byteOr (source s) (current s).
Proof. reflexivity. Qed.

Lemma peekByte_curByte s : peekByte s = curByte s.
Proof.
  unfold peekByte. destruct (atEnd s) eqn:E; [|reflexivity].
  apply atEnd_true in E. unfold curByte. now rewrite (get_ge _ _ E).
Qed.

Lemma lfBefore_next src n :
  n < String.length src -> (byteOr src n =? LF)%char = false ->
  lfBefore src (n + 1) = lfBefore src n.
Proof.
  intros H E. destruct (get_lt src n H) as [c Hc].
  rewrite Nat.add_1_r, (lfBefore_S src n c Hc).
  rewrite (byteOr_get _ _ _ Hc) in E. unfold lfOf. rewrite E. lia.
Qed.

Lemma get_byteOr src n : n < String.length src -> String.get n src = Some (byteOr src n).
Proof. intros H. unfold byteOr. now destruct (get_lt src n H) as [c ->]. Qed.

(** The text of one byte, of two bytes, and of a byte before a slice. *)
Lemma text_one src lo :
  lo < String.length src ->
  substring lo (lo + 1 - lo) src = String (byteOr src lo) EmptyString.
Proof.
  intros H. replace (lo + 1 - lo) with 1 by lia.
  apply substring_one. now apply get_byteOr.
Qed.

Lemma text_cons src lo hi :
  lo < hi -> lo < String.length src ->
  substring lo (hi - lo) src = String (byteOr src lo) (substring (lo + 1) (hi - (lo + 1)) src).
Proof.
  intros H Hl. replace (hi - lo) with (1 + (hi - (lo + 1))) by lia.
  rewrite substring_add, (substring_one src lo _ (get_byteOr src lo Hl)). reflexivity.
Qed.

Lemma text_snoc src lo hi :
  lo <= hi -> hi < String.length src ->
  substring lo (hi + 1 - lo) src
  = (substring lo (hi - lo) src ++ String (byteOr src hi) EmptyString)%string.
Proof.
  intros H Hl. replace (hi + 1 - lo) with ((hi - lo) + 1) by lia.
  rewrite substring_add. replace (lo + (hi - lo)) with hi by lia.
  now rewrite (substring_one src hi _ (get_byteOr src hi Hl)).
Qed.

Lemma text_split src lo mid hi :
  lo <= mid <= hi ->
  substring lo (hi - lo) src
  = (substring lo (mid - lo) src ++ substring mid (hi - mid) src)%string.
Proof.
  intros H. replace (hi - lo) with ((mid - lo) + (hi - mid)) by lia.
  rewrite substring_add. now replace (lo + (mid - lo)) with mid by lia.
Qed.

Lemma dropDigits_app a b :
  allChars isDigit a = true -> dropDigits (a ++ b) = dropDigits b.
Proof.
  induction a as [|c a IH]; cbn; intros H; [reflexivity|].
  apply andb_prop in H. destruct H as [-> H]. now apply IH.
Qed.

Lemma dropDigits_all a : allChars isDigit a = true -> dropDigits a = EmptyString.
Proof.
  induction a as [|c a IH]; cbn; intros H; [reflexivity|].
  apply andb_prop in H. destruct H as [-> H]. now apply IH.
Qed.

Lemma isNumeral_integer c ds :
  isDigit c = true -> allChars isDigit ds = true -> isNumeral (String c ds) = true.
Proof.
  intros Hc Hd. unfold isNumeral. cbn [dropDigits]. rewrite Hc.
  now rewrite (dropDigits_all ds Hd).
Qed.

Lemma isNumeral_fraction c ds frac :
  isDigit c = true -> allChars isDigit ds = true ->
  0 < String.length frac -> allChars isDigit frac = true ->
  isNumeral (String c (ds ++ String "." frac)) = true.
Proof.
  intros Hc Hd Hl Hf. unfold isNumeral. cbn [dropDigits]. rewrite Hc.
  rewrite (dropDigits_app ds _ Hd). cbn [dropDigits].
  change (isDigit ".") with false. cbv iota.
  rewrite Hf. apply Nat.ltb_lt in Hl. now rewrite Hl.
Qed.

Lemma lookup_keywords_In text typ :
  lookup text keywords = Some typ -> In (text, typ) keywords.
Proof.
  unfold keywords. cbn [lookup].
  repeat match goal with
         | |- context [String.eqb text ?k] =>
             destruct (String.eqb_spec text k) as [->|_];
             [intros [= <-]; cbn [In]; tauto|]
         end.
  discriminate.
Qed.

Lemma peekNext_eq s : peekNext s = Ret (byteOr (source s) (current s + 1), s).
Proof.
  unfold peekNext. rewrite (bind_Ret _ _ s s s eq_refl).
  destruct (String.length (source s) <=? current s + 1) eqn:E.
  - apply Nat.leb_le in E. unfold byteOr. now rewrite (get_ge _ _ E).
  - apply Nat.leb_gt in E. unfold byteAt. rewrite (bind_Ret _ _ s s s eq_refl).
    unfold byteOr. now destruct (get_lt _ _ E) as [c ->].
Qed.

Lemma matches_true e s :
  matches e s = true -> current s < String.length (source s) /\ curByte s = e.
Proof.
  unfold matches. intros H. apply andb_prop in H. destruct H as [H1 H2].
  split; [apply atEnd_false; now destruct (atEnd s)|now apply Ascii.eqb_eq].
Qed.

Lemma matches_false e s :
  (NUL =? e)%char = false -> matches e s = false -> (curByte s =? e)%char = false.
Proof.
  unfold matches. intros Hn H. destruct (atEnd s) eqn:E.
  - apply atEnd_true in E. unfold curByte. now rewrite (get_ge _ _ E).
  - exact H.
Qed.

Lemma run_line pred s s' :
  run pred s s' -> line s = lfBefore (source s) (current s) ->
  line s' = lfBefore (source s') (current s').
Proof. intros ((A1 & _) & Hl & _) H. rewrite A1, Hl, H. lia. Qed.

Lemma run_chars pred s s' :
  run pred s s' ->
  allChars pred (substring (current s) (current s' - current s) (source s)) = true.
Proof. intros (_ & _ & Hp). now apply allChars_substring. Qed.

Section WithLibrary.

Variable ParseFloat : string -> float64.

Lemma tokenOK_punctuation typ text l :
  punctuation typ = Some text -> tokenOK ParseFloat (NewToken typ text VNil l).
Proof. destruct typ; cbn; intros H; try discriminate; auto. Qed.

Lemma tokenOK_keyword typ text l :
  In (text, typ) keywords -> tokenOK ParseFloat (NewToken typ text VNil l).
Proof.
  unfold keywords. cbn [In]. intros H.
  repeat (destruct H as [[= <- <-]|H]; [cbn; split; [right|]; reflexivity|]).
  destruct H.
Qed.

Lemma munched_keyword typ text next :
  In (text, typ) keywords -> munched typ next = negb (isAlphaNumeric next).
Proof.
  unfold keywords. cbn [In]. intros H.
  repeat (destruct H as [[= <- <-]|H]; [reflexivity|]).
  destruct H.
Qed.

Lemma result_advanced s1 s2 s' p :
  advanced s1 s2 ->
  result ParseFloat (set_current (start s2) s2) s' p ->
  result ParseFloat (set_current (start s1) s1) s' p.
Proof.
  intros (A1 & A2 & A3 & A4 & _). unfold result. cbn. now rewrite A1, A2, A3, A4.
Qed.

(** Adding the token of the current lexeme. *)
Lemma piece_push typ literal s :
  start s < current s <= String.length (source s) ->
  line s = lfBefore (source s) (current s) ->
  tokenOK ParseFloat (NewToken typ (lexeme s) literal (line s)) ->
  munched typ (byteOr (source s) (current s)) = true ->
  exists s' p, addTokenLiteral typ literal s = Ret (tt, s')
               /\ result ParseFloat (set_current (start s) s) s' p.
Proof.
  intros Hr Hl Hok Hm.
  exists (pushToken typ literal s), (Tok (NewToken typ (lexeme s) literal (line s))).
  split; [apply addTokenLiteral_eq; lia|].
  unfold result, describes. cbn. rewrite app_nil_r. repeat split; auto; lia.
Qed.

Lemma punctuation_piece typ s :
  current s = start s + 1 -> current s <= String.length (source s) ->
  line s = lfBefore (source s) (current s) ->
  punctuation typ = Some (String (byteOr (source s) (start s)) EmptyString) ->
  munched typ (byteOr (source s) (current s)) = true ->
  exists s' p, addToken typ s = Ret (tt, s')
               /\ result ParseFloat (set_current (start s) s) s' p.
Proof.
  intros Hc Hle Hl Hp Hm. apply piece_push; auto; [lia|].
  apply tokenOK_punctuation. unfold lexeme. rewrite Hc, text_one; [exact Hp|lia].
Qed.

Lemma match_piece e typ2 typ1 s :
  current s = start s + 1 -> current s <= String.length (source s) ->
  line s = lfBefore (source s) (current s) ->
  (NUL =? e)%char = false -> (e =? LF)%char = false ->
  punctuation typ1 = Some (String (byteOr (source s) (start s)) EmptyString) ->
  punctuation typ2 = Some (String (byteOr (source s) (start s)) (String e EmptyString)) ->
  (forall next, munched typ1 next = negb (next =? e)%char) ->
  (forall next, munched typ2 next = true) ->
  exists s' p, (b <- match_ e ;; if b then addToken typ2 else addToken typ1) s = Ret (tt, s')
               /\ result ParseFloat (set_current (start s) s) s' p.
Proof.
  intros Hc Hle Hl Hn He H1 H2 M1 M2.
  rewrite (bind_Ret _ _ s _ _ (match_eq e s)).
  destruct (matches e s) eqn:E.
  - apply matches_true in E. destruct E as [Hlt Hb].
    destruct (piece_push typ2 VNil (skip s)) as (s' & p & Hs & Hres).
    + cbn. lia.
    + cbn. rewrite lfBefore_next; [exact Hl|exact Hlt|].
      rewrite <- curByte_byteOr, Hb. exact He.
    + apply tokenOK_punctuation. unfold lexeme. cbn.
      rewrite text_cons by lia. rewrite <- Hc.
      replace (current s + 1 - current s) with 1 by lia.
      rewrite (substring_one _ _ _ (curByte_get s Hlt)), Hb. exact H2.
    + apply M2.
    + exists s', p. split; [exact Hs|exact Hres].
  - apply punctuation_piece; auto.
    rewrite M1, <- curByte_byteOr. now rewrite (matches_false e s Hn E).
Qed.

Lemma identifier_piece fuel s :
  current s = start s + 1 -> current s <= String.length (source s) ->
  line s = lfBefore (source s) (current s) ->
  isAlpha (byteOr (source s) (start s)) = true ->
  String.length (source s) - current s <= fuel ->
  exists s' p, identifier fuel s = Ret (tt, s')
               /\ result ParseFloat (set_current (start s) s) s' p.
Proof.
  intros Hc Hle Hl Ha Hf. unfold identifier.
  destruct (run_peek isAlphaNumeric fuel s eq_refl eq_refl Hf) as (s2 & H2 & Hrun & Ht).
  rewrite (bind_Ret _ _ s _ _ H2).
  rewrite (bind_Ret _ _ s2 s2 s2 eq_refl).
  pose proof (run_line _ _ _ Hrun Hl) as Hl2.
  pose proof (run_chars _ _ _ Hrun) as Hch.
  destruct Hrun as (Hadv & _ & _).
  pose proof Hadv as (A1 & A2 & A3 & A4 & A5 & A6).
  assert (Hr2 : start s2 <= current s2 <= String.length (source s2)).
  { rewrite A1, A2. lia. }
  rewrite (bind_Ret _ _ s2 _ _ (sourceSlice_eq _ _ s2 Hr2)).
  unfold testPeek in Ht. rewrite peekByte_curByte, curByte_byteOr in Ht.
  change (substring (start s2) (current s2 - start s2) (source s2)) with (lexeme s2).
  assert (Hlex : lexeme s2
                 = String (byteOr (source s) (start s))
                          (substring (current s) (current s2 - current s) (source s))).
  { unfold lexeme. rewrite A1, A2, text_cons by lia. now rewrite <- Hc. }
  assert (exists s' p, (match lookup (lexeme s2) keywords with
                        | Some typ => addToken typ
                        | None => addToken IDENTIFIER
                        end) s2 = Ret (tt, s')
                       /\ result ParseFloat (set_current (start s2) s2) s' p)
    as (s' & p & Hs & Hres).
  { destruct (lookup (lexeme s2) keywords) as [typ|] eqn:Hk.
    - apply lookup_keywords_In in Hk. apply piece_push.
      + rewrite A1, A2. lia.
      + exact Hl2.
      + now apply tokenOK_keyword.
      + rewrite (munched_keyword typ _ _ Hk), Ht. reflexivity.
    - apply piece_push.
      + rewrite A1, A2. lia.
      + exact Hl2.
      + cbn. repeat split; [|exact Hk].
        rewrite Hlex. cbn. now rewrite Ha, Hch.
      + cbn. now rewrite Ht. }
  exists s', p. split; [exact Hs|]. now apply (result_advanced s s2).
Qed.

(** The fraction of a number: a dot and digits, when a digit follows the dot. *)
Lemma fraction_piece fuel s :
  current s < String.length (source s) \/ current s = String.length (source s) ->
  isDigit (curByte s) = false ->
  String.length (source s) - current s <= fuel ->
  exists s', (if (peekByte s =? ".")%char
              then c' <- peekNext ;;
                   if isDigit c'
                   then advance ;;
                        while (c <- peek ;; ret (isDigit c)) (advance ;; ret tt) fuel
                   else ret tt
              else ret tt) s = Ret (tt, s')
             /\ advanced s s'
             /\ line s' = (line s + lfBefore (source s) (current s')
                                  - lfBefore (source s) (current s))%Z
             /\ isDigit (curByte s') = false
             /\ (current s' = current s \/
                 (curByte s = "."%char /\ current s + 1 < current s' /\
                  allChars isDigit (substring (current s + 1) (current s' - (current s + 1))
                                              (source s)) = true)).
Proof.
  intros Hle Hd Hf.
  assert (Hstay : advanced s s /\
            line s = (line s + lfBefore (source s) (current s)
                             - lfBefore (source s) (current s))%Z /\
            isDigit (curByte s) = false /\
            (current s = current s \/
             (curByte s = "."%char /\ current s + 1 < current s /\
              allChars isDigit (substring (current s + 1) (current s - (current s + 1))
                                          (source s)) = true))).
  { split; [apply advanced_refl|]. split; [lia|]. split; [exact Hd|now left]. }
  rewrite peekByte_curByte.
  destruct (curByte s =? ".")%char eqn:Ed; [|exists s; split; [reflexivity|exact Hstay]].
  rewrite (bind_Ret _ _ s _ _ (peekNext_eq s)).
  destruct (isDigit (byteOr (source s) (current s + 1))) eqn:En;
    [|exists s; split; [reflexivity|exact Hstay]].
  apply Ascii.eqb_eq in Ed.
  assert (Hlt : current s < String.length (source s)).
  { destruct Hle as [Hlt|Heq]; [exact Hlt|]. exfalso.
    unfold curByte in Ed. rewrite get_ge in Ed by lia. discriminate. }
  rewrite (bind_Ret _ _ s _ _ (advance_eq s Hlt)).
  destruct (run_peek isDigit fuel (skip s) eq_refl eq_refl) as (s' & H1 & Hrun & Ht).
  { cbn. lia. }
  exists s'. split; [exact H1|].
  pose proof (run_chars _ _ _ Hrun) as Hch. cbn in Hch.
  destruct Hrun as (Hadv & Hl & _). cbn in Hl.
  pose proof Hadv as (A1 & A2 & A3 & A4 & A5 & A6). cbn in A1, A5, A6.
  unfold testPeek in Ht. rewrite peekByte_curByte in Ht.
  split; [|split; [|split; [exact Ht|right]]].
  - eapply advanced_trans; [|exact Hadv]. apply (advanced_step (line s) s Hlt).
  - rewrite Hl, lfBefore_next; [lia|exact Hlt|].
    rewrite <- curByte_byteOr, Ed. reflexivity.
  - split; [exact Ed|]. split; [|exact Hch].
    destruct (Nat.eq_dec (current s') (current s + 1)) as [E|]; [|lia].
    exfalso. rewrite curByte_byteOr, A1, E in Ht. cbn in Ht. congruence.
Qed.

Lemma number_piece fuel s :
  current s = start s + 1 -> current s <= String.length (source s) ->
  line s = lfBefore (source s) (current s) ->
  isDigit (byteOr (source s) (start s)) = true ->
  String.length (source s) - current s <= fuel ->
  exists s' p, number ParseFloat fuel s = Ret (tt, s')
               /\ result ParseFloat (set_current (start s) s) s' p.
Proof.
  intros Hc Hle Hl Hd Hf. unfold number.
  destruct (run_peek isDigit fuel s eq_refl eq_refl Hf) as (s2 & H2 & Hrun & Ht).
  rewrite (bind_Ret _ _ s _ _ H2).
  rewrite (bind_Ret _ _ s2 _ _ (peek_eq s2)).
  pose proof (run_line _ _ _ Hrun Hl) as Hl2.
  pose proof (run_chars _ _ _ Hrun) as Hch.
  destruct Hrun as (Hadv & _ & _).
  pose proof Hadv as (A1 & A2 & A3 & A4 & A5 & A6).
  unfold testPeek in Ht. rewrite peekByte_curByte in Ht.
  destruct (fraction_piece fuel s2) as (s3 & H3 & Hadv3 & Hl3 & Ht3 & Hfr).
  { rewrite A1. lia. } { exact Ht. } { rewrite A1. lia. }
  rewrite (bind_Ret _ _ s2 _ _ H3).
  rewrite (bind_Ret _ _ s3 s3 s3 eq_refl).
  pose proof Hadv3 as (B1 & B2 & B3 & B4 & B5 & B6).
  assert (Hr3 : start s3 <= current s3 <= String.length (source s3)).
  { rewrite B1, B2, A1, A2. rewrite A1 in B6. lia. }
  rewrite (bind_Ret _ _ s3 _ _ (sourceSlice_eq _ _ s3 Hr3)).
  change (substring (start s3) (current s3 - start s3) (source s3)) with (lexeme s3).
  destruct (piece_push NUMBER (VNum (ParseFloat (lexeme s3))) s3) as (s' & p & Hs & Hres).
  - rewrite B1, B2, A1, A2. rewrite A1 in B6. lia.
  - rewrite Hl3, Hl2, B1. lia.
  - cbn. split; [|reflexivity].
    assert (Hlex : lexeme s3
                   = String (byteOr (source s) (start s))
                       (substring (current s) (current s2 - current s) (source s)
                        ++ substring (current s2) (current s3 - current s2) (source s))).
    { unfold lexeme. rewrite B1, B2, A1, A2, text_cons by lia. rewrite <- Hc.
      now rewrite (text_split (source s) (current s) (current s2) (current s3)) by lia. }
    rewrite Hlex. destruct Hfr as [E|(Edot & Elt & Efr)].
    + rewrite E, Nat.sub_diag, substring_zero, append_empty_r.
      now apply isNumeral_integer.
    + rewrite A1 in Efr.
      rewrite (text_cons (source s) (current s2) (current s3)) by (rewrite A1 in B6; lia).
      rewrite curByte_byteOr, A1 in Edot. rewrite Edot.
      apply isNumeral_fraction; auto.
      rewrite length_substring; [lia|]. rewrite A1 in B6. lia.
  - cbn. rewrite <- curByte_byteOr, Ht3. reflexivity.
  - exists s', p. split; [exact Hs|].
    apply (result_advanced s s3); [|exact Hres].
    now apply (advanced_trans s s2 s3).
Qed.

Lemma string_piece fuel s :
  current s = start s + 1 -> current s <= String.length (source s) ->
  line s = lfBefore (source s) (current s) ->
  byteOr (source s) (start s) = QUOTE ->
  String.length (source s) - current s <= fuel ->
  exists s' p, string_ fuel s = Ret (tt, s')
               /\ result ParseFloat (set_current (start s) s) s' p.
Proof.
  intros Hc Hle Hl Hq Hf. unfold string_.
  destruct (run_string fuel s Hf) as (s2 & H2 & Hrun & Ht).
  rewrite (bind_Ret _ _ s _ _ H2).
  rewrite (bind_Ret _ _ s2 _ _ (isAtEnd_eq s2)).
  pose proof (run_line _ _ _ Hrun Hl) as Hl2.
  pose proof (run_chars _ _ _ Hrun) as Hch.
  destruct Hrun as (Hadv & _ & _).
  pose proof Hadv as (A1 & A2 & A3 & A4 & A5 & A6).
  assert (Hbody : substring (start s) (current s2 - start s) (source s)
                  = String QUOTE (substring (current s) (current s2 - current s) (source s))).
  { rewrite text_cons by lia. now rewrite Hq, <- Hc. }
  destruct (atEnd s2) eqn:E.
  - apply atEnd_true in E.
    assert (Hend : current s2 = String.length (source s)) by (rewrite A1 in E; lia).
    exists (set_errors (errors s2 ++ [lineError (line s2) "Unterminated string."])%list s2),
           (Err (lineError (line s2) "Unterminated string.")).
    split; [reflexivity|].
    unfold result, describes. cbn. rewrite A1, A3, A4, app_nil_r.
    rewrite A1 in Hl2.
    repeat split; auto; try lia.
    right. split; [now rewrite Hl2|]. split; [exact Hend|].
    eexists. split; [exact Hbody|exact Hch].
  - apply atEnd_false in E.
    assert (Hq2 : curByte s2 = QUOTE).
    { unfold testUntil in Ht. rewrite peekByte_curByte in Ht.
      apply atEnd_false in E. rewrite E in Ht. cbn in Ht. rewrite andb_true_r in Ht.
      apply negb_false_iff in Ht. now apply Ascii.eqb_eq. }
    rewrite (bind_Ret _ _ s2 _ _ (advance_eq s2 E)).
    rewrite (bind_Ret _ _ (skip s2) (skip s2) (skip s2) eq_refl).
    change (current (skip s2)) with (current s2 + 1). rewrite Nat.add_1_r.
    assert (Hsl : start (skip s2) + 1 <= current s2 <= String.length (source (skip s2))).
    { cbn. rewrite A2. lia. }
    rewrite (bind_Ret _ _ (skip s2) _ _ (sourceSlice_eq _ _ (skip s2) Hsl)).
    cbn [start source skip set_current].
    destruct (piece_push STRING
                (VStr (substring (start s2 + 1) (current s2 - (start s2 + 1)) (source s2)))
                (skip s2)) as (s' & p & Hs & Hres).
    + cbn. rewrite A2. lia.
    + cbn. rewrite lfBefore_next; [exact Hl2|exact E|].
      rewrite <- curByte_byteOr, Hq2. reflexivity.
    + cbn. exists (substring (start s2 + 1) (current s2 - (start s2 + 1)) (source s2)).
      rewrite A1, A2, <- Hc. split; [|split; [exact Hch|reflexivity]].
      unfold lexeme. cbn.
      rewrite text_snoc by (try rewrite <- A1; lia).
      rewrite Hbody. rewrite curByte_byteOr, A1 in Hq2. now rewrite Hq2.
    + reflexivity.
    + exists s', p. split; [exact Hs|].
      apply (result_advanced s (skip s2)); [|exact Hres].
      eapply advanced_trans; [exact Hadv|]. apply (advanced_step (line s2) s2 E).
Qed.

Lemma comment_piece fuel s :
  current s = start s + 1 -> current s <= String.length (source s) ->
  line s = lfBefore (source s) (current s) ->
  byteOr (source s) (start s) = "/"%char ->
  String.length (source s) - current s <= fuel ->
  exists s' p, (b <- match_ "/" ;;
                if b then
                  while (c <- peek ;;
                         if negb (c =? LF)%char then e <- isAtEnd ;; ret (negb e) else ret false)
                        (advance ;; ret tt) fuel
                else addToken SLASH) s = Ret (tt, s')
               /\ result ParseFloat (set_current (start s) s) s' p.
Proof.
  intros Hc Hle Hl Hq Hf. rewrite (bind_Ret _ _ s _ _ (match_eq "/" s)).
  destruct (matches "/" s) eqn:E.
  - apply matches_true in E. destruct E as [Hlt Hb].
    destruct (run_comment fuel (skip s)) as (s' & H1 & Hrun & Ht).
    { cbn. lia. }
    exists s', Blank. split; [exact H1|].
    assert (Hl1 : line (skip s) = lfBefore (source (skip s)) (current (skip s))).
    { cbn. rewrite lfBefore_next; [exact Hl|exact Hlt|].
      rewrite <- curByte_byteOr, Hb. reflexivity. }
    pose proof (run_line _ _ _ Hrun Hl1) as Hl2.
    pose proof (run_chars _ _ _ Hrun) as Hch. cbn in Hch.
    destruct Hrun as ((A1 & A2 & A3 & A4 & A5 & A6) & _ & _).
    cbn in A1, A2, A3, A4, A5, A6.
    unfold result, describes. cbn. rewrite A1, A3, A4, !app_nil_r. rewrite A1 in Hl2.
    repeat split; auto; try lia.
    right. exists (substring (current s + 1) (current s' - (current s + 1)) (source s)).
    split; [|split; [exact Hch|]].
    + rewrite text_cons by lia. rewrite Hq, <- Hc.
      rewrite text_cons by lia. now rewrite <- curByte_byteOr, Hb.
    + unfold testUntil in Ht. rewrite peekByte_curByte in Ht.
      destruct (atEnd s') eqn:Ee.
      * left. apply atEnd_true in Ee. rewrite A1 in Ee. lia.
      * right. cbn in Ht. rewrite andb_true_r in Ht. apply negb_false_iff in Ht.
        apply Ascii.eqb_eq in Ht. now rewrite curByte_byteOr, A1 in Ht.
  - apply punctuation_piece; auto.
    + now rewrite Hq.
    + cbn. rewrite <- curByte_byteOr. now rewrite (matches_false "/" s eq_refl E).
Qed.

Lemma result_skip s (X : t -> Prop) :
  start s = current s ->
  (exists s' p, X s' /\ result ParseFloat (set_current (start (skip s)) (skip s)) s' p) ->
  exists s' p, X s' /\ result ParseFloat s s' p.
Proof.
  intros Hst (s' & p & HX & Hres). exists s', p. split; [exact HX|].
  unfold result in *. cbn in Hres. now rewrite Hst in Hres.
Qed.

Lemma blank_piece l s :
  current s < String.length (source s) ->
  line s = lfBefore (source s) (current s) ->
  isSpace (curByte s) = true -> l = (line s + lfOf (curByte s))%Z ->
  result ParseFloat s (set_line l (skip s)) Blank.
Proof.
  intros Hlt Hl Hsp ->. unfold result, describes. cbn. rewrite !app_nil_r.
  repeat split; auto; try lia.
  - rewrite Nat.add_1_r, (lfBefore_S _ _ _ (curByte_get s Hlt)), Hl. reflexivity.
  - left. exists (curByte s). split; [|exact Hsp]. now apply text_one.
Qed.

(** One call of [scanToken] makes one piece of the bytes it consumes. *)
Lemma scanToken_piece fuel s :
  start s = current s -> current s < String.length (source s) ->
  line s = lfBefore (source s) (current s) ->
  String.length (source s) - current s <= S fuel ->
  exists s' p, scanToken ParseFloat fuel s = Ret (tt, s') /\ result ParseFloat s s' p.
Proof.
  intros Hst Hlt Hl Hf. unfold scanToken.
  rewrite (bind_Ret _ _ s _ _ (advance_eq s Hlt)).
  assert (K1 : current (skip s) = start (skip s) + 1) by (cbn; lia).
  assert (K2 : current (skip s) <= String.length (source (skip s))) by (cbn; lia).
  assert (K3 : (curByte s =? LF)%char = false ->
               line (skip s) = lfBefore (source (skip s)) (current (skip s))).
  { intros E. cbn. rewrite lfBefore_next; [exact Hl|exact Hlt|exact E]. }
  assert (K4 : byteOr (source (skip s)) (start (skip s)) = curByte s).
  { cbn. now rewrite Hst. }
  assert (K5 : String.length (source (skip s)) - current (skip s) <= fuel) by (cbn; lia).
  repeat match goal with
  | |- exists s' p, (if (curByte s =? ?c)%char then _ else _) (skip s) = _ /\ _ =>
      let E := fresh "E" in
      destruct (curByte s =? c)%char eqn:E;
      [ apply Ascii.eqb_eq in E; apply (result_skip s _ Hst);
        first
          [ apply punctuation_piece;
            [ exact K1 | exact K2 | apply K3; rewrite E; reflexivity
            | rewrite K4, E; reflexivity | reflexivity ]
          | apply match_piece;
            [ exact K1 | exact K2 | apply K3; rewrite E; reflexivity
            | reflexivity | reflexivity
            | rewrite K4, E; reflexivity | rewrite K4, E; reflexivity
            | intros next; reflexivity | intros next; reflexivity ]
          | apply comment_piece;
            [ exact K1 | exact K2 | apply K3; rewrite E; reflexivity
            | rewrite K4, E; reflexivity | exact K5 ]
          | apply string_piece;
            [ exact K1 | exact K2 | apply K3; rewrite E; reflexivity
            | rewrite K4, E; reflexivity | exact K5 ] ]
      | ]
  end.
  destruct ((curByte s =? " ")%char || (curByte s =? TAB)%char || (curByte s =? CR)%char)
    eqn:Ews.
  { exists (skip s), Blank. split; [reflexivity|].
    apply (blank_piece (line s) s Hlt Hl).
    - unfold isSpace. now rewrite Ews.
    - unfold lfOf.
      repeat (apply orb_prop in Ews; destruct Ews as [Ews|Ews]);
        apply Ascii.eqb_eq in Ews; rewrite Ews; cbn; lia. }
  apply orb_false_iff in Ews. destruct Ews as [Ews Ecr].
  apply orb_false_iff in Ews. destruct Ews as [Esp Etab].
  destruct (curByte s =? LF)%char eqn:Elf.
  { exists (set_line (line s + 1)%Z (skip s)), Blank. split; [reflexivity|].
    apply (blank_piece _ s Hlt Hl).
    - unfold isSpace. rewrite Elf. now rewrite !orb_true_r.
    - unfold lfOf. now rewrite Elf. }
  destruct (curByte s =? QUOTE)%char eqn:Eq.
  { apply Ascii.eqb_eq in Eq. apply (result_skip s _ Hst).
    apply string_piece; auto. now rewrite K4. }
  destruct (isDigit (curByte s)) eqn:Ed.
  { apply (result_skip s _ Hst). apply number_piece; auto. now rewrite K4. }
  destruct (isAlpha (curByte s)) eqn:Ea.
  { apply (result_skip s _ Hst). apply identifier_piece; auto. now rewrite K4. }
  exists (set_errors (errors (skip s) ++ [lineError (line (skip s)) "Unexpected character."])%list
                     (skip s)),
         (Err (lineError (line s) "Unexpected character.")).
  split; [reflexivity|].
  unfold result, describes. cbn. rewrite !app_nil_r.
  assert (Hnext : lfBefore (source s) (current s + 1) = lfBefore (source s) (current s)).
  { apply lfBefore_next; [exact Hlt|exact Elf]. }
  repeat split; auto; try lia.
  left. split; [now rewrite Hnext, Hl|].
  exists (curByte s). split; [now apply text_one|].
  unfold startsLexeme. cbn [existsb].
  repeat match goal with
         | H : (curByte s =? _)%char = false |- _ => rewrite H; clear H
         end.
  now rewrite Ed, Ea.
Qed.

Lemma loopBody_piece fuel s :
  current s < String.length (source s) ->
  line s = lfBefore (source s) (current s) ->
  String.length (source s) <= S fuel ->
  exists s' p, loopBody ParseFloat fuel s = Ret (tt, s') /\ result ParseFloat s s' p.
Proof.
  intros Hlt Hl Hf. unfold loopBody.
  rewrite (bind_Ret _ _ s tt (set_start (current s) s) eq_refl).
  destruct (scanToken_piece fuel (set_start (current s) s)) as (s' & p & Hs & Hres).
  { reflexivity. } { exact Hlt. } { exact Hl. } { cbn. lia. }
  exists s', p. split; [exact Hs|exact Hres].
Qed.

Lemma scanLoop_pieces fuel : forall n s,
  current s <= String.length (source s) ->
  line s = lfBefore (source s) (current s) ->
  String.length (source s) - current s <= n ->
  String.length (source s) <= S fuel ->
  exists s' segs, while loopCond (loopBody ParseFloat fuel) n s = Ret (tt, s')
    /\ covers ParseFloat (source s) (current s) segs
    /\ line s' = lineFeeds (source s)
    /\ tokens s' = (tokens s ++ tokensOf segs)%list
    /\ errors s' = (errors s ++ errorsOf segs)%list.
Proof.
  assert (Hstop : forall s, String.length (source s) <= current s ->
            current s <= String.length (source s) ->
            line s = lfBefore (source s) (current s) ->
            covers ParseFloat (source s) (current s) []
            /\ line s = lineFeeds (source s)
            /\ tokens s = (tokens s ++ tokensOf [])%list
            /\ errors s = (errors s ++ errorsOf [])%list).
  { intros s E Hc Hl. cbn. rewrite !app_nil_r. unfold lineFeeds.
    replace (String.length (source s)) with (current s) by lia. auto. }
  induction n as [|n IH]; intros s Hc Hl Hn Hf; cbn [while];
    rewrite (bind_Ret _ _ s _ _ (loopCond_eq s));
    destruct (atEnd s) eqn:E; cbn [negb].
  - apply atEnd_true in E. exists s, []. split; [reflexivity|now apply Hstop].
  - apply atEnd_false in E. lia.
  - apply atEnd_true in E. exists s, []. split; [reflexivity|now apply Hstop].
  - apply atEnd_false in E.
    destruct (loopBody_piece fuel s E Hl Hf) as (s1 & p & H1 & Hres).
    rewrite (bind_Ret _ _ s _ _ H1).
    destruct Hres as (A1 & A2 & A3 & A4 & A5 & A6).
    destruct (IH s1) as (s' & segs & H2 & Hcov & Hline & Htok & Herr).
    { rewrite A1. lia. } { now rewrite A1. } { rewrite A1. lia. } { now rewrite A1. }
    exists s', ((current s1, p) :: segs). split; [exact H2|].
    rewrite A1 in Hcov, Hline. split; [|split; [exact Hline|split]].
    + cbn [covers]. split; [exact A2|]. split; [exact A6|exact Hcov].
    + rewrite Htok, A4, <- app_assoc. reflexivity.
    + rewrite Herr, A5, <- app_assoc. reflexivity.
Qed.

(** [ScanTokens] cuts the source into pieces: its tokens and its errors are
    those of the pieces, in their order. *)
Lemma ScanTokens_pieces (src : string) :
  exists segs,
    covers ParseFloat src 0 segs /\
    ScanTokens ParseFloat src
    = Ret ((tokensOf segs ++ [eofToken (lineFeeds src)])%list, errorsOf segs).
Proof.
  destruct (scanLoop_pieces (String.length src) (String.length src) (NewScanner src))
    as (s' & segs & H1 & Hcov & Hline & Htok & Herr).
  { cbn. lia. } { cbn. now rewrite lfBefore_0. } { cbn. lia. } { cbn. lia. }
  exists segs. split; [exact Hcov|].
  unfold ScanTokens. rewrite (ScanTokensFuel_eq _ _ _ s' H1).
  cbn in Hline, Htok, Herr. now rewrite Hline, Htok, Herr.
Qed.

Lemma covers_tokenOK src : forall segs lo,
  covers ParseFloat src lo segs -> Forall (tokenOK ParseFloat) (tokensOf segs).
Proof.
  induction segs as [|[hi p] segs IH]; intros lo H; [constructor|].
  destruct H as (_ & Hd & Hc). specialize (IH hi Hc).
  destruct p as [|tok|e]; cbn; auto.
  constructor; [|exact IH]. now destruct Hd as (_ & _ & Hok & _).
Qed.

Lemma covers_lines src : forall segs lo x,
  (x <= lfBefore src lo)%Z -> covers ParseFloat src lo segs ->
  ascending (x :: map Line (tokensOf segs ++ [eofToken (lineFeeds src)])%list).
Proof.
  induction segs as [|[hi p] segs IH]; intros lo x Hx H.
  - cbn in H. subst lo. cbn. auto.
  - destruct H as (Hlo & Hd & Hc).
    pose proof (lfBefore_le src lo hi (Nat.lt_le_incl _ _ (proj1 Hlo))) as Hle.
    destruct p as [|tok|e].
    + apply (IH hi x); [lia|exact Hc].
    + destruct Hd as (_ & Hline & _).
      change (ascending (x :: Line tok
                :: map Line (tokensOf segs ++ [eofToken (lineFeeds src)])%list)).
      cbn [ascending]. split; [lia|].
      apply (IH hi (Line tok)); [lia|exact Hc].
    + apply (IH hi x); [lia|exact Hc].
Qed.

Lemma covers_errors src : forall segs lo,
  covers ParseFloat src lo segs ->
  exists unexpected,
    (errorsOf segs = unexpected \/
     errorsOf segs = (unexpected ++ [lineError (lineFeeds src) "Unterminated string."])%list) /\
    Forall (fun e => exists l, (0 <= l <= lineFeeds src)%Z
                               /\ e = lineError l "Unexpected character.") unexpected.
Proof.
  induction segs as [|[hi p] segs IH]; intros lo H.
  - exists []. split; [now left|constructor].
  - destruct H as (Hlo & Hd & Hc). destruct (IH hi Hc) as (unexpected & Hu & Hall).
    destruct p as [|tok|e]; [now exists unexpected|now exists unexpected|].
    destruct Hd as [(He & _)|(He & Hend & _)].
    + exists (e :: unexpected). split.
      * change (errorsOf ((hi, Err e) :: segs)) with (e :: errorsOf segs).
        destruct Hu as [->| ->]; [now left|now right].
      * constructor; [|exact Hall]. exists (lfBefore src hi). split; [|exact He].
        apply lfBefore_le. lia.
    + exists []. split; [|constructor]. right.
      destruct segs as [|[hi' p'] segs].
      * cbn. rewrite He, Hend. reflexivity.
      * destruct Hc as (Hc & _). lia.
Qed.


(** X15: every token that [ScanTokens] returns before the end-of-input token
    fits its type: a number has the text of a numeral and its value as
    literal, a string has its text between the quotes as literal, an
    identifier is a name that is no keyword, and any other token has the
    spelling of its punctuation sign or of its keyword, and no literal. *)
Theorem scanned_tokens_fit_their_type (src : string) :
  exists body errs,
    ScanTokens ParseFloat src = Ret ((body ++ [eofToken (lineFeeds src)])%list, errs) /\
    Forall (tokenOK ParseFloat) body.
Proof.
  destruct (ScanTokens_pieces src) as (segs & Hcov & Hs).
  exists (tokensOf segs), (errorsOf segs). split; [exact Hs|].
  now apply (covers_tokenOK src segs 0).
Qed.

(** X16: the line numbers of the tokens that [ScanTokens] returns start at 0 or
    above and never decrease, and the line of the end-of-input token, the
    last one, is the number of line feeds of the source. *)
Theorem token_lines_ascend_to_line_feeds (src : string) :
  exists toks errs,
    ScanTokens ParseFloat src = Ret (toks, errs) /\
    ascending (0%Z :: map Line toks) /\
    last (map Line toks) 0%Z = lineFeeds src.
Proof.
  destruct (ScanTokens_pieces src) as (segs & Hcov & Hs).
  exists (tokensOf segs ++ [eofToken (lineFeeds src)])%list, (errorsOf segs).
  split; [exact Hs|]. split.
  - apply (covers_lines src segs 0); [now rewrite lfBefore_0|exact Hcov].
  - rewrite map_app. cbn [map]. apply last_last.
Qed.

(** X17: the errors that [ScanTokens] returns are reports of unexpected
    characters, each with a line between 0 and the number of line feeds of
    the source, followed by at most one report of an unterminated string, on
    the last line. *)
Theorem scan_errors_are_unexpected_then_unterminated (src : string) :
  exists toks errs unexpected,
    ScanTokens ParseFloat src = Ret (toks, errs) /\
    (errs = unexpected \/
     errs = (unexpected ++ [lineError (lineFeeds src) "Unterminated string."])%list) /\
    Forall (fun e => exists l, (0 <= l <= lineFeeds src)%Z
                               /\ e = lineError l "Unexpected character.") unexpected.
Proof.
  destruct (ScanTokens_pieces src) as (segs & Hcov & Hs).
  destruct (covers_errors src segs 0 Hcov) as (unexpected & Hu & Hall).
  exists (tokensOf segs ++ [eofToken (lineFeeds src)])%list, (errorsOf segs), unexpected.
  auto.
Qed.

End WithLibrary.

End ScannerMoreFacts.

(** ** Further properties of the parser *)

Module ParserMoreFacts.
Import Parser ParserMore ParserFacts.

Lemma bind_Ret_inv {St E A B} (m : prog St E A) (k : A -> prog St E B) s b s2 :
  bind m k s = Ret (b, s2) -> exists a s1, m s = Ret (a, s1) /\ k a s1 = Ret (b, s2).
Proof.
  unfold bind. destruct (m s) as [[a s1]| | |]; try discriminate. intros H. now exists a, s1.
Qed.

Lemma match_inv types p b p' :
  match_ types p = Ret (b, p') ->
  (b = false /\ p' = p) \/
  (b = true /\ exists tok, tokenHere p tok /\ accepts types tok = true /\ p' = skip p).
Proof.
  destruct (nth_error (tokens p) (current p)) as [tok|] eqn:E.
  - rewrite (parser_match_eq types p tok E).
    destruct (accepts types tok) eqn:Ha; intros [= <- <-]; [right|left]; eauto.
  - destruct types as [|typ types]; cbn [match_].
    + intros [= <- <-]. now left.
    + unfold bind, checkTokenType, isAtEnd, bind, get_state, tokenAt, bind, get_state, fault.
      rewrite E. discriminate.
Qed.

Lemma previous_inv p tok p' :
  previous p = Ret (tok, p') -> p' = p /\ In tok (tokens p).
Proof.
  unfold previous, bind, get_state. destruct (current p) as [|i]; [discriminate|].
  unfold tokenAt, bind, get_state, ret, fault.
  destruct (nth_error (tokens p) i) as [tok'|] eqn:E; [|discriminate].
  intros [= <- <-]. split; [reflexivity|]. now apply nth_error_In in E.
Qed.

Lemma consume_inv typ message p tok p' :
  consume typ message p = Ret (tok, p') -> tokens p' = tokens p.
Proof.
  destruct (nth_error (tokens p) (current p)) as [tok'|] eqn:E.
  - rewrite (consume_eq typ message p tok' E). destruct (accepts [typ] tok'); [|discriminate].
    now intros [= <- <-].
  - unfold consume, bind, checkTokenType, isAtEnd, bind, get_state, tokenAt, bind, get_state, fault.
    rewrite E. discriminate.
Qed.

Lemma fromTokens_same toks toks' expr :
  toks' = toks -> fromTokens toks expr -> fromTokens toks' expr.
Proof. now intros ->. Qed.

Section Builds.

Variable expression : M Expr.
Hypothesis expression_builds : builds expression.

Lemma primary_builds : builds (primary expression).
Proof.
  intros p expr p' H. unfold primary in H.
  apply bind_Ret_inv in H. destruct H as (b1 & p1 & Hm & H).
  destruct (match_inv _ _ _ _ Hm) as [[-> ->]|[-> (tok & Ht & Ha & ->)]].
  2:{ rewrite (bind_Ret _ _ _ _ _ (previous_skip p tok Ht)) in H. injection H as <- <-.
      split; [reflexivity|]. cbn. right. right. right. exists tok.
      split; [now apply tokenHere_In|]. split; [|reflexivity].
      unfold accepts in Ha. apply andb_prop in Ha. destruct Ha as [_ Ha]. cbn in Ha.
      destruct (TokenType_beq_spec (Type_ tok) NUMBER); [now left|].
      destruct (TokenType_beq_spec (Type_ tok) STRING); [now right|]. discriminate. }
  apply bind_Ret_inv in H. destruct H as (b2 & p2 & Hm2 & H).
  destruct (match_inv _ _ _ _ Hm2) as [[-> ->]|[-> (tok & Ht & Ha & ->)]].
  2:{ injection H as <- <-. split; [reflexivity|]. cbn. now left. }
  apply bind_Ret_inv in H. destruct H as (b3 & p3 & Hm3 & H).
  destruct (match_inv _ _ _ _ Hm3) as [[-> ->]|[-> (tok & Ht & Ha & ->)]].
  2:{ injection H as <- <-. split; [reflexivity|]. cbn. right. now left. }
  apply bind_Ret_inv in H. destruct H as (b4 & p4 & Hm4 & H).
  destruct (match_inv _ _ _ _ Hm4) as [[-> ->]|[-> (tok & Ht & Ha & ->)]].
  2:{ injection H as <- <-. split; [reflexivity|]. cbn. right. right. now left. }
  apply bind_Ret_inv in H. destruct H as (b5 & p5 & Hm5 & H).
  destruct (match_inv _ _ _ _ Hm5) as [[-> ->]|[-> (tok & Ht & Ha & ->)]].
  2:{ apply bind_Ret_inv in H. destruct H as (e & p6 & He & H).
      apply bind_Ret_inv in H. destruct H as (tok' & p7 & Hc & H).
      injection H as <- <-.
      destruct (expression_builds _ _ _ He) as [Ht6 Hf]. cbn in Ht6, Hf.
      apply consume_inv in Hc. split; [cbn; congruence|]. exact Hf. }
  apply bind_Ret_inv in H. destruct H as (tok & p6 & _ & H). discriminate.
Qed.

Lemma unary_builds : forall fuel, builds (unary expression fuel).
Proof.
  induction fuel as [|fuel IH]; intros p expr p' H; cbn [unary] in H;
    apply bind_Ret_inv in H; destruct H as (b & p1 & Hm & H);
    destruct (match_inv _ _ _ _ Hm) as [[-> ->]|[-> (tok & Ht & Ha & ->)]]; cbn [negb] in H;
    try (now apply primary_builds); try discriminate.
  apply bind_Ret_inv in H. destruct H as (op & p2 & Hp & H).
  rewrite (previous_skip p tok Ht) in Hp. injection Hp as <- <-.
  apply bind_Ret_inv in H. destruct H as (r & p3 & Hr & H). injection H as <- <-.
  destruct (IH _ _ _ Hr) as [Ht3 Hf]. cbn in Ht3, Hf.
  split; [exact Ht3|]. cbn. split; [now apply tokenHere_In|]. split; [|exact Hf].
  unfold accepts in Ha. apply andb_prop in Ha. destruct Ha as [_ Ha]. cbn in Ha.
  destruct (TokenType_beq_spec (Type_ tok) MINUS); [now left|].
  destruct (TokenType_beq_spec (Type_ tok) BANG); [now right|]. discriminate.
Qed.

Lemma binaryLoop_builds (lv : Level) (operand : M Expr) :
  builds operand ->
  forall fuel expr p expr' p',
    fromTokens (tokens p) expr ->
    binaryLoop (operators lv) operand fuel expr p = Ret (expr', p') ->
    tokens p' = tokens p /\ fromTokens (tokens p) expr'.
Proof.
  intros Hop. induction fuel as [|fuel IH]; intros expr p expr' p' Hf H; cbn [binaryLoop] in H;
    apply bind_Ret_inv in H; destruct H as (b & p1 & Hm & H);
    destruct (match_inv _ _ _ _ Hm) as [[-> ->]|[-> (tok & Ht & Ha & ->)]];
    try discriminate; try (injection H as <- <-; now split).
  apply bind_Ret_inv in H. destruct H as (op & p2 & Hp & H).
  rewrite (previous_skip p tok Ht) in Hp. injection Hp as <- <-.
  apply bind_Ret_inv in H. destruct H as (r & p3 & Hr & H).
  destruct (Hop _ _ _ Hr) as [Ht3 Hfr]. cbn in Ht3, Hfr.
  destruct (IH (Binary tok expr r) p3 expr' p') as [Ht4 Hf4].
  - cbn. rewrite Ht3. split; [now apply tokenHere_In|]. split; [|now split].
    exists lv. unfold accepts in Ha. apply andb_prop in Ha. destruct Ha as [_ Ha].
    now apply existsb_beq_In.
  - exact H.
  - split; [congruence|]. now rewrite <- Ht3.
Qed.

Lemma level_builds (lv : Level) (operand : M Expr) fuel :
  builds operand ->
  builds (expr <- operand ;; binaryLoop (operators lv) operand fuel expr).
Proof.
  intros Hop p expr p' H. apply bind_Ret_inv in H. destruct H as (e & p1 & He & H).
  destruct (Hop _ _ _ He) as [Ht1 Hf1].
  destruct (binaryLoop_builds lv operand Hop fuel e p1 expr p') as [Ht2 Hf2].
  - now rewrite Ht1.
  - exact H.
  - split; [congruence|]. now rewrite <- Ht1.
Qed.

Lemma equality_builds fuel : builds (equality expression fuel).
Proof.
  apply (level_builds Equality). apply (level_builds Comparison).
  apply (level_builds Term). apply (level_builds Factor). apply unary_builds.
Qed.

End Builds.

Lemma expression_builds : forall fuel, builds (expression fuel).
Proof.
  induction fuel as [|fuel IH]; [intros p expr p' H; discriminate|].
  cbn [expression]. now apply equality_builds.
Qed.


Lemma Parse_builds (toks : list Token) (expr : Expr) (err : option ParseError) :
  Parse (NewParser toks) = Ret (Some expr, err) -> fromTokens toks expr.
Proof.
  unfold Parse, ParseFuel. intros H.
  destruct (expression _ (NewParser toks)) as [[e p']| | |] eqn:E; try discriminate.
  injection H as <- _. now destruct (expression_builds _ _ _ _ E).
Qed.

(** X7: a tree returned by [Parse] is built from the tokens: the operator of
    each binary node is one of the tokens, of a kind that a binary rule
    accepts; the operator of each unary node is a [-] or [!] token; each
    literal is a boolean, the string that the parser puts for [nil], or the
    literal of a NUMBER or STRING token. *)
Theorem parsed_tree_comes_from_tokens (toks : list Token) (expr : Expr) :
  Parse (NewParser toks) = Ret (Some expr, None) -> fromTokens toks expr.
Proof. apply Parse_builds. Qed.

Lemma accepts_In types tok : accepts types tok = true -> In (Type_ tok) types.
Proof.
  unfold accepts. intros H. apply andb_prop in H. destruct H as [_ H].
  now apply existsb_beq_In.
Qed.

Lemma operators_disjoint l l' typ :
  In typ (operators l) -> In typ (operators l') -> l = l'.
Proof.
  destruct l, l'; cbn; intros H1 H2; try reflexivity; exfalso;
    repeat (destruct H1 as [H1|H1]; [subst typ; intuition discriminate|]); exact H1.
Qed.

Lemma tighter_operand sub l l' fuel :
  tighter l = Some l' -> operandRule sub l fuel = levelRule sub l' fuel.
Proof. destruct l; cbn; intros [= <-]; reflexivity. Qed.

Lemma level_single sub l fuel p0 a p1 tok :
  operandRule sub l fuel p0 = Ret (a, p1) ->
  tokenHere p1 tok -> ~ In (Type_ tok) (operators l) ->
  levelRule sub l fuel p0 = Ret (a, p1).
Proof.
  intros Ha Ht Hn. rewrite levelRule_eq, (bind_Ret _ _ p0 _ _ Ha).
  apply (binaryLoop_stop _ _ _ _ p1 tok Ht). now apply accepts_other.
Qed.

Lemma level_pair sub l fuel p0 a p1 op b p2 stop :
  1 <= fuel ->
  operandRule sub l fuel p0 = Ret (a, p1) ->
  tokenHere p1 op -> In (Type_ op) (operators l) ->
  operandRule sub l fuel (skip p1) = Ret (b, p2) ->
  tokenHere p2 stop -> ~ In (Type_ stop) (operators l) ->
  levelRule sub l fuel p0 = Ret (Binary op a b, p2).
Proof.
  intros Hf Ha Ht Hi Hb Hs Hn. rewrite levelRule_eq, (bind_Ret _ _ p0 _ _ Ha).
  destruct fuel as [|fuel]; [lia|].
  rewrite (binaryLoop_step _ _ _ _ p1 op b p2 Ht (accepts_operator l op Hi) Hb).
  apply (binaryLoop_stop _ _ _ _ p2 stop Hs). now apply accepts_other.
Qed.

(** X8: precedence.  Take a binary level and the next tighter one, and three
    operands of the tighter level separated by two operators, followed by a
    token that neither level accepts.  When the first operator belongs to the
    looser level and the second to the tighter one, the rule of the looser
    level groups the last two operands; when it is the other way round, the
    first two. *)
Theorem tighter_level_binds_first sub l l' fuel p0 a p1 op1 b p2 op2 c p3 stop :
  tighter l = Some l' -> 1 <= fuel ->
  ~ In (Type_ stop) (operators l) -> ~ In (Type_ stop) (operators l') ->
  operandRule sub l' fuel p0 = Ret (a, p1) ->
  operandRule sub l' fuel (skip p1) = Ret (b, p2) ->
  operandRule sub l' fuel (skip p2) = Ret (c, p3) ->
  tokenHere p1 op1 -> tokenHere p2 op2 -> tokenHere p3 stop ->
  (In (Type_ op1) (operators l) -> In (Type_ op2) (operators l') ->
   levelRule sub l fuel p0 = Ret (Binary op1 a (Binary op2 b c), p3)) /\
  (In (Type_ op1) (operators l') -> In (Type_ op2) (operators l) ->
   levelRule sub l fuel p0 = Ret (Binary op2 (Binary op1 a b) c, p3)).
Proof.
  intros Hl Hf Hs Hs' Ha Hb Hc H1 H2 H3.
  assert (Hne : l <> l') by (destruct l; cbn in Hl; injection Hl as <- || discriminate Hl; discriminate).
  split; intros I1 I2.
  - apply (level_pair sub l fuel p0 a p1 op1 (Binary op2 b c) p3 stop); auto.
    + rewrite (tighter_operand sub l l' fuel Hl).
      apply (level_single sub l' fuel p0 a p1 op1 Ha H1).
      intros I. apply Hne. now apply (operators_disjoint l l' (Type_ op1)).
    + rewrite (tighter_operand sub l l' fuel Hl).
      now apply (level_pair sub l' fuel (skip p1) b p2 op2 c p3 stop).
  - apply (level_pair sub l fuel p0 (Binary op1 a b) p2 op2 c p3 stop); auto.
    + rewrite (tighter_operand sub l l' fuel Hl).
      apply (level_pair sub l' fuel p0 a p1 op1 b p2 op2); auto.
      intros I. apply Hne. now apply (operators_disjoint l l' (Type_ op2)).
    + rewrite (tighter_operand sub l l' fuel Hl).
      now apply (level_single sub l' fuel (skip p2) c p3 stop).
Qed.

Lemma unary_step sub fuel p op operand p' :
  tokenHere p op -> Type_ op = MINUS \/ Type_ op = BANG ->
  unary sub fuel (skip p) = Ret (operand, p') ->
  unary sub (S fuel) p = Ret (Unary op operand, p').
Proof.
  intros H T Hu.
  assert (A : accepts [MINUS; BANG] op = true)
    by (destruct T as [E|E]; unfold accepts; rewrite E; reflexivity).
  cbn [unary].
  rewrite (bind_Ret _ _ p _ _ (parser_match_eq [MINUS; BANG] p op H)), A. cbn [negb].
  rewrite (bind_Ret _ _ _ _ _ (previous_skip p op H)).
  now rewrite (bind_Ret _ _ _ _ _ Hu).
Qed.

(** X9: two prefix operators in a row nest: [unary] applies the first to
    the tree of the second applied to the operand. *)
Theorem prefix_operators_nest sub fuel p op1 op2 operand p' :
  tokenHere p op1 -> Type_ op1 = MINUS \/ Type_ op1 = BANG ->
  tokenHere (skip p) op2 -> Type_ op2 = MINUS \/ Type_ op2 = BANG ->
  unary sub fuel (skip (skip p)) = Ret (operand, p') ->
  unary sub (S (S fuel)) p = Ret (Unary op1 (Unary op2 operand), p').
Proof.
  intros H1 T1 H2 T2 Hu.
  apply (unary_step sub (S fuel) p op1 _ p' H1 T1).
  now apply (unary_step sub fuel (skip p) op2 _ p' H2 T2).
Qed.

Lemma not_starter tok types :
  ~ In (Type_ tok) starters -> incl types starters -> accepts types tok = false.
Proof. intros Hn Hi. apply accepts_other. intros H. apply Hn. now apply Hi. Qed.

Lemma primary_expects_expression sub p tok :
  tokenHere p tok -> ~ In (Type_ tok) starters ->
  primary sub p = Panic (error tok "Expect expression").
Proof.
  intros Ht Hn. unfold primary.
  assert (A : forall types, incl types starters -> accepts types tok = false)
    by (intros; now apply not_starter).
  rewrite (bind_Ret _ _ p _ _ (parser_match_eq [NUMBER; STRING] p tok Ht)), A
    by (unfold starters; intros x [<-|[<-|[]]]; cbn; intuition).
  rewrite (bind_Ret _ _ p _ _ (parser_match_eq [TRUE] p tok Ht)), A
    by (unfold starters; intros x [<-|[]]; cbn; intuition).
  rewrite (bind_Ret _ _ p _ _ (parser_match_eq [FALSE] p tok Ht)), A
    by (unfold starters; intros x [<-|[]]; cbn; intuition).
  rewrite (bind_Ret _ _ p _ _ (parser_match_eq [NIL] p tok Ht)), A
    by (unfold starters; intros x [<-|[]]; cbn; intuition).
  rewrite (bind_Ret _ _ p _ _ (parser_match_eq [LEFT_PAREN] p tok Ht)), A
    by (unfold starters; intros x [<-|[]]; cbn; intuition).
  now rewrite (bind_Ret _ _ p _ _ (parser_peek_eq p tok Ht)).
Qed.

Lemma unary_expects_expression sub fuel p tok :
  tokenHere p tok -> ~ In (Type_ tok) starters ->
  unary sub fuel p = Panic (error tok "Expect expression").
Proof.
  intros Ht Hn.
  assert (A : accepts [MINUS; BANG] tok = false).
  { apply (not_starter tok); [exact Hn|]. unfold starters. intros x [<-|[<-|[]]]; cbn; intuition. }
  destruct fuel; cbn [unary];
    rewrite (bind_Ret _ _ p _ _ (parser_match_eq [MINUS; BANG] p tok Ht)), A; cbn [negb];
    now apply primary_expects_expression.
Qed.

(** X10: at a token that cannot begin an expression, anything but [-], [!],
    a number, a string, [true], [false], [nil] and [(], [expression] panics
    with the error "Expect expression" at this token, and the handler of
    [Parse] returns it with no tree. *)
Theorem expression_expected_at_other_tokens fuel p tok :
  tokenHere p tok -> ~ In (Type_ tok) starters ->
  expression (S fuel) p = Panic (error tok "Expect expression") /\
  ParseFuel (S fuel) p = Ret (None, Some (error tok "Expect expression")).
Proof.
  intros Ht Hn.
  assert (E : expression (S fuel) p = Panic (error tok "Expect expression")).
  { cbn [expression]. unfold equality, comparison, term, factor.
    do 4 apply bind_Panic. now apply unary_expects_expression. }
  split; [exact E|]. unfold ParseFuel. now rewrite E.
Qed.

(** X11: after [(] and an expression, [primary] returns the grouping and
    consumes the next token when it is [)], and panics with the error
    "Expect ')' after expression." at this token otherwise. *)
Theorem grouping_needs_right_paren sub p lp expr p1 tok :
  tokenHere p lp -> Type_ lp = LEFT_PAREN ->
  sub (skip p) = Ret (expr, p1) ->
  tokenHere p1 tok ->
  (Type_ tok = RIGHT_PAREN -> primary sub p = Ret (Grouping expr, skip p1)) /\
  (Type_ tok <> RIGHT_PAREN ->
   primary sub p = Panic (error tok "Expect ')' after expression.")).
Proof.
  intros Hl Tl Hs Ht.
  assert (E : primary sub p
              = (_ <- consume RIGHT_PAREN "Expect ')' after expression." ;;
                 ret (Grouping expr)) p1).
  { unfold primary.
    assert (A : forall types, ~ In LEFT_PAREN types -> accepts types lp = false).
    { intros types H. apply accepts_other. now rewrite Tl. }
    rewrite (bind_Ret _ _ p _ _ (parser_match_eq [NUMBER; STRING] p lp Hl)), A
      by (cbn; intuition discriminate).
    rewrite (bind_Ret _ _ p _ _ (parser_match_eq [TRUE] p lp Hl)), A
      by (cbn; intuition discriminate).
    rewrite (bind_Ret _ _ p _ _ (parser_match_eq [FALSE] p lp Hl)), A
      by (cbn; intuition discriminate).
    rewrite (bind_Ret _ _ p _ _ (parser_match_eq [NIL] p lp Hl)), A
      by (cbn; intuition discriminate).
    rewrite (bind_Ret _ _ p _ _ (parser_match_eq [LEFT_PAREN] p lp Hl)).
    replace (accepts [LEFT_PAREN] lp) with true by (unfold accepts; now rewrite Tl).
    now rewrite (bind_Ret _ _ _ _ _ Hs). }
  assert (E2 : (_ <- consume RIGHT_PAREN "Expect ')' after expression." ;;
                ret (Grouping expr)) p1
               = if accepts [RIGHT_PAREN] tok then Ret (Grouping expr, skip p1)
                 else Panic (error tok "Expect ')' after expression.")).
  { unfold bind. rewrite (consume_eq RIGHT_PAREN _ p1 tok Ht).
    now destruct (accepts [RIGHT_PAREN] tok). }
  rewrite E, E2. split.
  - intros Tr. replace (accepts [RIGHT_PAREN] tok) with true by (unfold accepts; now rewrite Tr).
    reflexivity.
  - intros Tr. rewrite (accepts_other [RIGHT_PAREN] tok); [reflexivity|].
    cbn. intuition.
Qed.


Lemma Parse_returns_tree_or_error (toks : list Token) :
  (exists tok, In tok toks /\ Type_ tok = EOF) ->
  (exists expr, Parse (NewParser toks) = Ret (Some expr, None)) \/
  (exists err, Parse (NewParser toks) = Ret (None, Some err)).
Proof.
  intros He. unfold Parse, ParseFuel.
  destruct (expression_parses (S (List.length toks)) (NewParser toks))
    as [(e & p' & H & _)|(err & H & Hg)].
  - now apply guarded_NewParser.
  - unfold room. cbn. lia.
  - left. exists e. cbn [tokens NewParser]. now rewrite H.
  - right. exists err. cbn [tokens NewParser]. now rewrite H.
Qed.

(** X12: when an end-of-input token lies at the cursor or after it,
    [expression] never reads outside the token slice, whatever the bound on
    its recursion; when it returns, the tokens are the same, the cursor has
    not moved back, and an end-of-input token still lies at the cursor or
    after it. *)
Theorem cursor_stays_before_EOF fuel p :
  guarded p ->
  expression fuel p <> Fault /\
  (forall expr p', expression fuel p = Ret (expr, p') ->
     tokens p' = tokens p /\ current p <= current p' /\ guarded p').
Proof.
  intros Hg.
  pose proof (expression_refines fuel (Nat.max fuel (room p)) (Nat.le_max_l _ _) p) as Hr.
  pose proof (expression_parses (Nat.max fuel (room p)) p Hg (Nat.le_max_r _ _)) as Hp.
  unfold parses, good in Hp. split.
  - intros E. rewrite E in Hr. unfold refines in Hr. rewrite Hr in Hp by discriminate.
    destruct Hp as [(a & p1 & H & _)|(err & H & _)]; discriminate.
  - intros expr p' E. rewrite E in Hr. unfold refines in Hr. rewrite Hr in Hp by discriminate.
    destruct Hp as [(a & p1 & H & Ht & Hc & Hg')|(err & H & _)]; [|discriminate].
    injection H as <- <-. auto.
Qed.

Lemma sameUpTo_here n p q :
  sameUpTo n p q -> exists tok, tokenHere p tok /\ tokenHere q tok.
Proof.
  intros (Hc & Hn & (eof & He & _) & Ha). unfold tokenHere.
  destruct (nth_error (tokens p) (current p)) as [tok|] eqn:E.
  - exists tok. split; [reflexivity|]. now rewrite <- Hc, <- (Ha _ Hn).
  - apply nth_error_None in E.
    assert (n < List.length (tokens p)) by (apply nth_error_Some; congruence). lia.
Qed.

Lemma sameUpTo_skip n p q tok :
  sameUpTo n p q -> tokenHere p tok -> TokenType_beq (Type_ tok) EOF = false ->
  sameUpTo n (skip p) (skip q).
Proof.
  intros (Hc & Hn & (eof & He & Te) & Ha) Ht E. unfold sameUpTo. cbn.
  repeat split; auto; try lia.
  - destruct (Nat.eq_dec (current p) n) as [Heq|]; [|lia].
    unfold tokenHere in Ht. rewrite Heq, He in Ht. injection Ht as <-.
    rewrite Te in E. discriminate.
  - now exists eof.
Qed.

Lemma agrees_ret {A} n (a : A) : agrees n (ret a).
Proof. intros p q H. cbn. now split. Qed.

Lemma agrees_bind {A B} n (m : M A) (k : A -> M B) :
  agrees n m -> (forall a, agrees n (k a)) -> agrees n (bind m k).
Proof.
  intros Hm Hk p q H. specialize (Hm p q H). unfold bind.
  destruct (m p) as [[a p1]| | |], (m q) as [[b q1]| | |]; cbn in Hm; try contradiction; auto.
  destruct Hm as [<- H1]. now apply Hk.
Qed.

Lemma agrees_match n types : agrees n (match_ types).
Proof.
  intros p q H. destruct (sameUpTo_here n p q H) as (tok & Hp & Hq).
  rewrite (parser_match_eq types p tok Hp), (parser_match_eq types q tok Hq).
  destruct (accepts types tok) eqn:E; cbn; split; auto.
  apply (sameUpTo_skip n p q tok H Hp). now apply (accepts_nonEOF types).
Qed.

Lemma agrees_previous n : agrees n previous.
Proof.
  intros p q H. pose proof H as (Hc & Hn & _ & Ha).
  unfold previous, bind, get_state. rewrite <- Hc.
  destruct (current p) as [|i] eqn:E; [exact I|].
  unfold tokenAt, bind, get_state, ret, fault. rewrite <- (Ha i) by lia.
  destruct (nth_error (tokens p) i); cbn; auto.
Qed.

Lemma agrees_peek n : agrees n peek.
Proof.
  intros p q H. destruct (sameUpTo_here n p q H) as (tok & Hp & Hq).
  rewrite (parser_peek_eq p tok Hp), (parser_peek_eq q tok Hq). cbn. now split.
Qed.

Lemma agrees_consume n typ message : agrees n (consume typ message).
Proof.
  intros p q H. destruct (sameUpTo_here n p q H) as (tok & Hp & Hq).
  rewrite (consume_eq typ message p tok Hp), (consume_eq typ message q tok Hq).
  destruct (accepts [typ] tok) eqn:E; cbn; auto. split; auto.
  apply (sameUpTo_skip n p q tok H Hp). now apply (accepts_nonEOF [typ]).
Qed.

Lemma agrees_panic {A} n (e : ParseError) : agrees n (@panic t ParseError A e).
Proof. intros p q H. reflexivity. Qed.

Lemma agrees_stuck {A} n : agrees n (@stuck t ParseError A).
Proof. intros p q H. exact I. Qed.

Lemma agrees_binaryLoop n types operand :
  agrees n operand -> forall fuel expr, agrees n (binaryLoop types operand fuel expr).
Proof.
  intros Hop. induction fuel as [|fuel IH]; intros expr; cbn [binaryLoop];
    (apply agrees_bind; [apply agrees_match|]); intros [|];
    try apply agrees_ret; try apply agrees_stuck.
  apply agrees_bind; [apply agrees_previous|]. intros op.
  apply agrees_bind; [exact Hop|]. intros right. apply IH.
Qed.

Section Agreement.

Variable n : nat.
Variable expression : M Expr.
Hypothesis expression_agrees : agrees n expression.

Lemma agrees_primary : agrees n (primary expression).
Proof.
  unfold primary.
  apply agrees_bind; [apply agrees_match|]. intros [|].
  { apply agrees_bind; [apply agrees_previous|]. intros tok. apply agrees_ret. }
  apply agrees_bind; [apply agrees_match|]. intros [|]; [apply agrees_ret|].
  apply agrees_bind; [apply agrees_match|]. intros [|]; [apply agrees_ret|].
  apply agrees_bind; [apply agrees_match|]. intros [|]; [apply agrees_ret|].
  apply agrees_bind; [apply agrees_match|]. intros [|].
  { apply agrees_bind; [exact expression_agrees|]. intros e.
    apply agrees_bind; [apply agrees_consume|]. intros tok. apply agrees_ret. }
  apply agrees_bind; [apply agrees_peek|]. intros tok. apply agrees_panic.
Qed.

Lemma agrees_unary : forall fuel, agrees n (unary expression fuel).
Proof.
  induction fuel as [|fuel IH]; cbn [unary];
    (apply agrees_bind; [apply agrees_match|]); intros [|]; cbn [negb];
    try apply agrees_primary; try apply agrees_stuck.
  apply agrees_bind; [apply agrees_previous|]. intros op.
  apply agrees_bind; [apply IH|]. intros right. apply agrees_ret.
Qed.

Lemma agrees_equality fuel : agrees n (equality expression fuel).
Proof.
  assert (F : agrees n (factor expression fuel)).
  { unfold factor. apply agrees_bind; [apply agrees_unary|]. intros e.
    apply agrees_binaryLoop, agrees_unary. }
  assert (T : agrees n (term expression fuel)).
  { unfold term. apply agrees_bind; [exact F|]. intros e. now apply agrees_binaryLoop. }
  assert (C : agrees n (comparison expression fuel)).
  { unfold comparison. apply agrees_bind; [exact T|]. intros e. now apply agrees_binaryLoop. }
  unfold equality. apply agrees_bind; [exact C|]. intros e. now apply agrees_binaryLoop.
Qed.

End Agreement.

Lemma agrees_expression n : forall fuel, agrees n (expression fuel).
Proof.
  induction fuel as [|fuel IH]; cbn [expression]; [apply agrees_stuck|].
  now apply agrees_equality.
Qed.

Lemma nth_error_app_same {A} (pre : list A) (x : A) (rest : list A) i :
  i <= List.length pre ->
  nth_error (pre ++ x :: rest) i = nth_error (pre ++ [x]) i.
Proof.
  intros H. destruct (Nat.eq_dec i (List.length pre)) as [->|Hne].
  - rewrite !nth_error_app2 by lia. now rewrite Nat.sub_diag.
  - rewrite !nth_error_app1 by lia. reflexivity.
Qed.

(** X13: [Parse] reads nothing after an end-of-input token: the tokens that
    follow it in the slice do not change the result. *)
Theorem Parse_ignores_tokens_after_EOF (pre : list Token) (eof : Token) (rest : list Token) :
  Type_ eof = EOF ->
  Parse (NewParser (pre ++ eof :: rest)) = Parse (NewParser (pre ++ [eof])).
Proof.
  intros He.
  set (p := NewParser (pre ++ eof :: rest)). set (q := NewParser (pre ++ [eof])).
  set (n := S (List.length (tokens q))).
  assert (Hs : sameUpTo (List.length pre) p q).
  { unfold sameUpTo, p, q. cbn. repeat split; try lia.
    - exists eof. split; [|exact He]. rewrite nth_error_app2 by lia.
      now rewrite Nat.sub_diag.
    - intros i Hi. now apply nth_error_app_same. }
  assert (Hq : (exists e, Parse q = Ret (Some e, None)) \/
               (exists err, Parse q = Ret (None, Some err))).
  { destruct (Parse_returns_tree_or_error (pre ++ [eof])) as [[e H]|[err H]]; eauto.
    exists eof. split; [|exact He]. apply in_or_app. right. now left. }
  assert (Hn : ParseFuel n p = Parse q).
  { pose proof (agrees_expression (List.length pre) n p q Hs) as Ha.
    unfold Parse, ParseFuel in *. fold n in Hq |- *.
    destruct (expression n p) as [[a p1]| | |], (expression n q) as [[b q1]| | |];
      cbn in Ha; try contradiction; try reflexivity.
    - destruct Ha as [<- _]. reflexivity.
    - now subst. }
  unfold Parse at 1. rewrite <- Hn.
  apply (ParseFuel_refines n (S (List.length (tokens p))) p).
  - unfold n, p, q. cbn. rewrite !length_app. cbn. lia.
  - rewrite Hn. destruct Hq as [[e ->]|[err ->]]; discriminate.
Qed.

End ParserMoreFacts.

(** ** Further properties of the interpreter *)

Module InterpreterMoreFacts.
Import Interpreter InterpreterMore.

Section WithLibrary.

Variable FormatFloat : float64 -> string.


Lemma fneg_involutive (x : float64) : fneg (fneg x) = x.
Proof. destruct x as [s|s| |s m e]; cbn; try reflexivity; now rewrite negb_involutive. Qed.

(** X2: when the operand of a unary minus evaluates to a number, the
    expression evaluates to its negation, and two minus signs give the number
    back; when the operand evaluates to anything else, the evaluation stops
    with the error that names the operator token. *)
Theorem unary_minus_negates_numbers (op : Token) (R : Expr) (v : value) :
  Type_ op = MINUS ->
  evaluate FormatFloat R = Ret v ->
  (forall x, v = VNum x ->
     evaluate FormatFloat (Unary op R) = Ret (VNum (fneg x)) /\
     evaluate FormatFloat (Unary op (Unary op R)) = Ret (VNum x)) /\
  (kindOf v <> KNum ->
     evaluate FormatFloat (Unary op R)
     = Panic ("Operand must be number: " ++ Token_String FormatFloat op)).
Proof.
  intros Hop HR. split.
  - intros x ->. cbn [evaluate]. rewrite HR. cbn. unfold visitUnaryExpr. rewrite Hop. cbn.
    now rewrite fneg_involutive.
  - intros Hk. cbn [evaluate]. rewrite HR. cbn. unfold visitUnaryExpr, checkNumberOperand.
    rewrite Hop. destruct v; cbn in *; try reflexivity. congruence.
Qed.

(** X3: when its operand evaluates to a value, [!] never fails: it gives the
    negation of the truthiness of the value, twice [!] gives the truthiness
    itself, and the result is true exactly when the value is absent or the
    boolean false. *)
Theorem bang_negates_truthiness (op : Token) (R : Expr) (v : value) :
  Type_ op = BANG ->
  evaluate FormatFloat R = Ret v ->
  evaluate FormatFloat (Unary op R) = Ret (VBool (negb (isTruthy v))) /\
  evaluate FormatFloat (Unary op (Unary op R)) = Ret (VBool (isTruthy v)) /\
  (evaluate FormatFloat (Unary op R) = Ret (VBool true) <-> v = VNil \/ v = VBool false).
Proof.
  intros Hop HR.
  assert (H1 : evaluate FormatFloat (Unary op R) = Ret (VBool (negb (isTruthy v)))).
  { cbn [evaluate]. rewrite HR. cbn. unfold visitUnaryExpr. now rewrite Hop. }
  split; [exact H1|]. split.
  - cbn [evaluate] in *. rewrite H1. cbn. unfold visitUnaryExpr. rewrite Hop. cbn.
    now rewrite negb_involutive.
  - rewrite H1. split.
    + intros [= H]. destruct v as [|x|x|[|]]; cbn in H; auto; discriminate.
    + intros [->| ->]; reflexivity.
Qed.

(** X4: the binary operators [- / * > >= < <=], applied to operands that
    evaluate to two numbers, give the difference, quotient, product or
    comparison of the two in this order; when either operand evaluates to
    something else, the evaluation stops with the error that names the
    operator token. *)
Theorem numeric_operators_need_numbers (op : Token) (L R : Expr) (vl vr : value)
        (f : float64 -> float64 -> value) :
  numericOp (Type_ op) = Some f ->
  evaluate FormatFloat L = Ret vl -> evaluate FormatFloat R = Ret vr ->
  (forall x y, vl = VNum x -> vr = VNum y ->
     evaluate FormatFloat (Binary op L R) = Ret (f x y)) /\
  (kindOf vl <> KNum \/ kindOf vr <> KNum ->
     evaluate FormatFloat (Binary op L R)
     = Panic ("Operands must be numbers: " ++ Token_String FormatFloat op)).
Proof.
  intros Hf HL HR.
  rewrite (InterpreterFacts.evaluate_binary FormatFloat op L R vl vr HL HR).
  unfold visitBinaryExpr, arith, checkNumberOperands.
  split.
  - intros x y -> ->.
    destruct (Type_ op); cbn in Hf |- *; try discriminate; injection Hf as <-; reflexivity.
  - intros Hk. destruct (Type_ op); cbn in Hf; try discriminate;
      destruct vl, vr; cbn in *; try reflexivity; destruct Hk; congruence.
Qed.

(** X5: [==] and [!=] never fail once their operands have a value: [==]
    gives [isEqual] of the two values and [!=] its negation, and two values
    of different kinds (absent, number, string, boolean) are not equal. *)
Theorem equality_operators_never_fail (eq ne : Token) (L R : Expr) (vl vr : value) :
  Type_ eq = EQUAL_EQUAL -> Type_ ne = BANG_EQUAL ->
  evaluate FormatFloat L = Ret vl -> evaluate FormatFloat R = Ret vr ->
  evaluate FormatFloat (Binary eq L R) = Ret (VBool (isEqual vl vr)) /\
  evaluate FormatFloat (Binary ne L R) = Ret (VBool (negb (isEqual vl vr))) /\
  (kindOf vl <> kindOf vr -> isEqual vl vr = false).
Proof.
  intros Heq Hne HL HR.
  rewrite !(InterpreterFacts.evaluate_binary FormatFloat _ L R vl vr HL HR).
  unfold visitBinaryExpr. rewrite Heq, Hne. repeat split.
  destruct vl, vr; cbn; congruence.
Qed.

Lemma visitBinaryExpr_handled (op : Token) (vl vr v : value) :
  In (Type_ op) handledBinary ->
  visitBinaryExpr FormatFloat op vl vr = Ret v -> v <> VNil.
Proof.
  unfold handledBinary, visitBinaryExpr, arith, checkNumberOperands. intros Hin.
  destruct (Type_ op); cbn in Hin; try (exfalso; intuition discriminate);
    destruct vl, vr; cbn; intros [= <-]; discriminate.
Qed.

Lemma visitUnaryExpr_handled (op : Token) (v0 v : value) :
  In (Type_ op) handledUnary ->
  visitUnaryExpr FormatFloat op v0 = Ret v -> v <> VNil.
Proof.
  unfold handledUnary, visitUnaryExpr, checkNumberOperand. intros Hin.
  destruct (Type_ op); cbn in Hin; try (exfalso; intuition discriminate);
    destruct v0; cbn; intros [= <-]; discriminate.
Qed.

Lemma evaluate_handled (expr : Expr) : forall v,
  operatorsHandled expr -> literalsPresent expr ->
  evaluate FormatFloat expr = Ret v -> v <> VNil.
Proof.
  induction expr as [op L IHL R IHR|op R IHR|v0|e IHe];
    cbn [operatorsHandled literalsPresent evaluate]; intros v Ho Hl Hv.
  - destruct (evaluate FormatFloat L) as [vl| | |]; cbn in Hv; try discriminate.
    destruct (evaluate FormatFloat R) as [vr| | |]; cbn in Hv; try discriminate.
    apply (visitBinaryExpr_handled op vl vr v); tauto.
  - destruct (evaluate FormatFloat R) as [vr| | |]; cbn in Hv; try discriminate.
    apply (visitUnaryExpr_handled op vr v); tauto.
  - injection Hv as <-. exact Hl.
  - now apply IHe.
Qed.

(** X6: the two visitors return the absent value, without failing, for an
    operator that their [switch] has no case for; on a tree whose operators
    all have a case and whose literals are all present, an evaluation that
    returns never returns the absent value. *)
Theorem fallthrough_yields_nil_unless_handled :
  (forall op L R vl vr,
     ~ In (Type_ op) handledBinary ->
     evaluate FormatFloat L = Ret vl -> evaluate FormatFloat R = Ret vr ->
     evaluate FormatFloat (Binary op L R) = Ret VNil) /\
  (forall op R v,
     ~ In (Type_ op) handledUnary ->
     evaluate FormatFloat R = Ret v ->
     evaluate FormatFloat (Unary op R) = Ret VNil) /\
  (forall expr v,
     operatorsHandled expr -> literalsPresent expr ->
     evaluate FormatFloat expr = Ret v -> v <> VNil).
Proof.
  split; [|split].
  - intros op L R vl vr Hn HL HR.
    rewrite (InterpreterFacts.evaluate_binary FormatFloat op L R vl vr HL HR).
    unfold visitBinaryExpr, handledBinary in *.
    destruct (Type_ op); cbn in Hn; try reflexivity; exfalso; apply Hn; intuition.
  - intros op R v Hn HR. cbn [evaluate]. rewrite HR. cbn.
    unfold visitUnaryExpr, handledUnary in *.
    destruct (Type_ op); cbn in Hn; try reflexivity; exfalso; apply Hn; intuition.
  - intros expr. apply evaluate_handled.
Qed.

End WithLibrary.

End InterpreterMoreFacts.

(** ** The scanner, the parser and the interpreter together *)

Module PipelineMoreFacts.
Import Scanner ScannerMore ParserMore InterpreterMore.

Section WithLibrary.

Variable ParseFloat : string -> float64.
Variable FormatFloat : float64 -> string.

Lemma tokenOK_literal (tok : Token) :
  tokenOK ParseFloat tok -> Type_ tok = NUMBER \/ Type_ tok = STRING ->
  Literal_ tok <> VNil.
Proof.
  unfold tokenOK. intros Hok [E|E]; rewrite E in Hok.
  - destruct Hok as [_ ->]. discriminate.
  - destruct Hok as (body & _ & _ & ->). discriminate.
Qed.

Lemma operators_handled (typ : TokenType) :
  (exists lv, In typ (Parser.operators lv)) -> In typ handledBinary.
Proof.
  intros [lv H]. unfold handledBinary.
  destruct lv; cbn in H; repeat (destruct H as [<-|H]; [cbn; tauto|]); destruct H.
Qed.

(** The trees built from scanned tokens have a case in the interpreter for
    each operator, and no absent literal. *)
Lemma fromTokens_handled (body : list Token) (eof : Token) (expr : Expr) :
  Forall (tokenOK ParseFloat) body -> Type_ eof = EOF ->
  fromTokens (body ++ [eof]) expr ->
  operatorsHandled expr /\ literalsPresent expr.
Proof.
  intros Hok He.
  induction expr as [op L IHL R IHR|op R IHR|v|e IHe];
    cbn [fromTokens operatorsHandled literalsPresent].
  - intros (_ & Hop & HL & HR). specialize (IHL HL). specialize (IHR HR).
    pose proof (operators_handled _ Hop). tauto.
  - intros (_ & Hop & HR). specialize (IHR HR).
    split; [split; [|tauto]|tauto].
    unfold handledUnary. cbn. destruct Hop as [-> | ->]; tauto.
  - intros [->|[->|[->|(tok & Hin & Hty & ->)]]]; split; auto; try discriminate.
    apply in_app_or in Hin. destruct Hin as [Hin|[<-|[]]].
    + apply tokenOK_literal; [|exact Hty].
      rewrite Forall_forall in Hok. now apply Hok.
    + rewrite He in Hty. destruct Hty; discriminate.
  - exact IHe.
Qed.

(** X18: [Parse] on the tokens that [ScanTokens] returns, whatever the source
    and whatever the scanner reported, gives a tree and no error, or no tree
    and a syntax error: it reads no token past the end of the slice, and no
    bound on its recursion is met. *)
Theorem scanned_tokens_parse_or_fail_cleanly (src : string) :
  exists toks errs,
    ScanTokens ParseFloat src = Ret (toks, errs) /\
    ((exists expr, Parser.Parse (Parser.NewParser toks) = Ret (Some expr, None)) \/
     (exists err, Parser.Parse (Parser.NewParser toks) = Ret (None, Some err))).
Proof.
  destruct (ScannerMoreFacts.ScanTokens_pieces ParseFloat src) as (segs & _ & Hs).
  exists (tokensOf segs ++ [eofToken (lineFeeds src)])%list, (errorsOf segs).
  split; [exact Hs|].
  apply ParserMoreFacts.Parse_returns_tree_or_error.
  exists (eofToken (lineFeeds src)). split; [|reflexivity].
  apply in_or_app. right. now left.
Qed.

(** X19: an expression scanned from a source and parsed never evaluates to the
    absent value: its evaluation returns a number, a string or a boolean, or
    stops with a runtime error.  The parser builds no node that the
    interpreter has no case for, and the literal of [nil] is a string. *)
Theorem scanned_expressions_never_evaluate_to_nil (src : string) (expr : Expr)
        (r : Interpreter.M value) :
  evaluateSource ParseFloat FormatFloat src = Evaluated expr r ->
  r = Interpreter.evaluate FormatFloat expr /\
  ((exists v, r = Ret v /\ v <> VNil) \/ (exists e, r = Panic e)).
Proof.
  unfold evaluateSource, parseSource. intros H.
  destruct (ScannerMoreFacts.ScanTokens_pieces ParseFloat src) as (segs & Hcov & Hs).
  rewrite Hs in H.
  destruct (Parser.Parse _) as [[[e|] [err|]]| | |] eqn:Hp; try discriminate;
    injection H as <- <-; (split; [reflexivity|]);
    apply ParserMoreFacts.Parse_builds in Hp;
    destruct (fromTokens_handled (tokensOf segs) (eofToken (lineFeeds src)) e
                (ScannerMoreFacts.covers_tokenOK ParseFloat src segs 0 Hcov) eq_refl Hp)
      as [Ho Hl];
    (destruct (InterpreterFacts.evaluate_returns_or_panics FormatFloat e) as [[v Hv]|[x Hx]];
     [left; exists v; split; [exact Hv|];
      now apply (InterpreterMoreFacts.evaluate_handled FormatFloat e v)
     |right; now exists x]).
Qed.

End WithLibrary.

End PipelineMoreFacts.

(** ** The properties at work on concrete inputs, with the reference library *)

Module Witnesses.

Lemma or_and_evaluate_both_operands_witness :
  Interpreter.evaluate Reference.FormatFloat
    (Binary (NewToken OR "or" VNil 0)
            (Literal (VBool true))
            (Unary (NewToken MINUS "-" VNil 0) (Literal (VStr "a"))))
  = Panic "Operand must be number: MINUS - <nil>".
Proof.
  apply (proj1 (proj2 (InterpreterFacts.or_and_evaluate_both_operands
                         Reference.FormatFloat (NewToken OR "or" VNil 0)
                         (Literal (VBool true))
                         (Unary (NewToken MINUS "-" VNil 0) (Literal (VStr "a")))
                         (or_introl eq_refl)))
               (VBool true)); reflexivity.
Defined.

Lemma plus_adds_concatenates_or_fails_witness :
  Interpreter.evaluate Reference.FormatFloat
    (Binary (NewToken PLUS "+" VNil 0) (Literal (VStr "a")) (Literal (VStr "b")))
  = Ret (VStr "ab") /\
  Interpreter.evaluate Reference.FormatFloat
    (Binary (NewToken PLUS "+" VNil 0) (Literal (VNum (float_of_Z 1))) (Literal (VStr "b")))
  = Panic "Operands must be two numbers or two strings: PLUS + <nil>".
Proof.
  split.
  - apply (proj1 (proj2 (InterpreterFacts.plus_adds_concatenates_or_fails
                           Reference.FormatFloat (NewToken PLUS "+" VNil 0)
                           (Literal (VStr "a")) (Literal (VStr "b"))
                           (VStr "a") (VStr "b") eq_refl eq_refl eq_refl))
                 "a" "b"); reflexivity.
  - apply (proj2 (proj2 (proj2 (InterpreterFacts.plus_adds_concatenates_or_fails
                           Reference.FormatFloat (NewToken PLUS "+" VNil 0)
                           (Literal (VNum (float_of_Z 1))) (Literal (VStr "b"))
                           (VNum (float_of_Z 1)) (VStr "b") eq_refl eq_refl eq_refl)))
                 (float_of_Z 1) "b").
    left. split; reflexivity.
Defined.

Lemma ScanTokens_ends_with_single_EOF_witness :
  Scanner.scanToken Reference.ParseFloat 2 (Scanner.NewScanner "@1")
  = Ret (tt, Scanner.set_errors [Scanner.lineError 0 "Unexpected character."]
               (Scanner.skip (Scanner.NewScanner "@1"))) /\
  Scanner.ScanTokens Reference.ParseFloat "@1"
  = Ret ([NewToken NUMBER "1" (VNum (float_of_Z 1)) 0; Scanner.eofToken 0],
         ["Line: 0, Unexpected character."]).
Proof.
  split.
  - apply (proj1 (proj2 (ScannerFacts.ScanTokens_ends_with_single_EOF
                           Reference.ParseFloat "@1"))
                 2 (Scanner.NewScanner "@1")).
    + cbn. lia.
    + reflexivity.
  - reflexivity.
Defined.

Lemma ScanTokens_terminates_witness :
  exists s', Scanner.loopBody Reference.ParseFloat 3 (Scanner.NewScanner "1.5") = Ret (tt, s')
             /\ 0 < Scanner.current s' <= 3.
Proof.
  apply (proj1 (proj2 (proj2 (ScannerFacts.ScanTokens_terminates
                                Reference.ParseFloat "1.5")))
               3 (Scanner.NewScanner "1.5")); cbn; lia.
Defined.

Lemma Parse_tree_or_one_error_witness :
  (exists expr,
     Parser.Parse (Parser.NewParser
       [NewToken LEFT_PAREN "(" VNil 0; NewToken NUMBER "1" (VNum (float_of_Z 1)) 0;
        NewToken EOF EmptyString VNil 0]) = Ret (Some expr, None)) \/
  (exists err,
     Parser.Parse (Parser.NewParser
       [NewToken LEFT_PAREN "(" VNil 0; NewToken NUMBER "1" (VNum (float_of_Z 1)) 0;
        NewToken EOF EmptyString VNil 0]) = Ret (None, Some err)
     /\ Parser.grammarError (Parser.NewParser
       [NewToken LEFT_PAREN "(" VNil 0; NewToken NUMBER "1" (VNum (float_of_Z 1)) 0;
        NewToken EOF EmptyString VNil 0]) err).
Proof.
  apply (proj1 (ParserFacts.Parse_tree_or_one_error
    [NewToken LEFT_PAREN "(" VNil 0; NewToken NUMBER "1" (VNum (float_of_Z 1)) 0;
     NewToken EOF EmptyString VNil 0]
    (ex_intro _ (NewToken EOF EmptyString VNil 0)
       (conj (or_intror (or_intror (or_introl eq_refl))) eq_refl)))).
Defined.

Lemma binary_levels_left_associative_witness :
  Parser.levelRule stuck Parser.Term 2
    (Parser.NewParser
       [NewToken NUMBER "1" (VNum (float_of_Z 1)) 0; NewToken PLUS "+" VNil 0;
        NewToken NUMBER "2" (VNum (float_of_Z 2)) 0; NewToken MINUS "-" VNil 0;
        NewToken NUMBER "3" (VNum (float_of_Z 3)) 0; NewToken EOF EmptyString VNil 0])
  = Ret (Binary (NewToken MINUS "-" VNil 0)
           (Binary (NewToken PLUS "+" VNil 0)
              (Literal (VNum (float_of_Z 1))) (Literal (VNum (float_of_Z 2))))
           (Literal (VNum (float_of_Z 3))),
         Parser.set_current 5
           (Parser.NewParser
              [NewToken NUMBER "1" (VNum (float_of_Z 1)) 0; NewToken PLUS "+" VNil 0;
               NewToken NUMBER "2" (VNum (float_of_Z 2)) 0; NewToken MINUS "-" VNil 0;
               NewToken NUMBER "3" (VNum (float_of_Z 3)) 0; NewToken EOF EmptyString VNil 0])) /\
  exists expr,
    parseSource Reference.ParseFloat "1 + 2 + 3" = Ret (Some expr, None) /\
    expr = Binary (NewToken PLUS "+" VNil 0)
             (Binary (NewToken PLUS "+" VNil 0)
                (Literal (VNum (Reference.ParseFloat "1")))
                (Literal (VNum (Reference.ParseFloat "2"))))
             (Literal (VNum (Reference.ParseFloat "3"))) /\
    AstPrinter.Print Reference.FormatFloat expr = "(+ (+ 1 2) 3)".
Proof.
  split.
  - eapply (proj1 (PipelineFacts.binary_levels_left_associative
                     Reference.ParseFloat Reference.FormatFloat)
                  stuck Parser.Term 2 _ _ _ (NewToken PLUS "+" VNil 0)
                  _ _ (NewToken MINUS "-" VNil 0) _ _ (NewToken EOF EmptyString VNil 0)).
    + lia.
    + reflexivity.
    + reflexivity.
    + cbn. auto.
    + reflexivity.
    + reflexivity.
    + cbn. auto.
    + reflexivity.
    + reflexivity.
    + cbn. intuition discriminate.
  - apply (proj2 (PipelineFacts.binary_levels_left_associative
                    Reference.ParseFloat Reference.FormatFloat)); reflexivity.
Defined.

Lemma Parse_only_EOF_expects_expression_witness :
  exists l,
    Scanner.ScanTokens Reference.ParseFloat " " = Ret ([Scanner.eofToken l], []) /\
    parseSource Reference.ParseFloat " "
    = Ret (None, Some (Parser.error (Scanner.eofToken l) "Expect expression")).
Proof.
  apply (proj2 (PipelineFacts.Parse_only_EOF_expects_expression Reference.ParseFloat) " ").
  reflexivity.
Defined.

End Witnesses.

(** ** The further properties at concrete inputs *)

Module MoreWitnesses.
Import InterpreterMore ParserMore.

Lemma unary_minus_negates_numbers_witness :
  (Interpreter.evaluate Reference.FormatFloat
     (Unary (NewToken MINUS "-" VNil 0) (Literal (VNum (float_of_Z 1))))
   = Ret (VNum (fneg (float_of_Z 1))) /\
   Interpreter.evaluate Reference.FormatFloat
     (Unary (NewToken MINUS "-" VNil 0)
        (Unary (NewToken MINUS "-" VNil 0) (Literal (VNum (float_of_Z 1)))))
   = Ret (VNum (float_of_Z 1))) /\
  Interpreter.evaluate Reference.FormatFloat
    (Unary (NewToken MINUS "-" VNil 0) (Literal (VStr "a")))
  = Panic "Operand must be number: MINUS - <nil>".
Proof.
  split.
  - apply (proj1 (InterpreterMoreFacts.unary_minus_negates_numbers
                    Reference.FormatFloat (NewToken MINUS "-" VNil 0)
                    (Literal (VNum (float_of_Z 1))) (VNum (float_of_Z 1))
                    eq_refl eq_refl)
                 (float_of_Z 1) eq_refl).
  - apply (proj2 (InterpreterMoreFacts.unary_minus_negates_numbers
                    Reference.FormatFloat (NewToken MINUS "-" VNil 0)
                    (Literal (VStr "a")) (VStr "a") eq_refl eq_refl)).
    discriminate.
Defined.

Lemma bang_negates_truthiness_witness :
  Interpreter.evaluate Reference.FormatFloat
    (Unary (NewToken BANG "!" VNil 0) (Literal (VNum (float_of_Z 0))))
  = Ret (VBool false) /\
  Interpreter.evaluate Reference.FormatFloat
    (Unary (NewToken BANG "!" VNil 0)
       (Unary (NewToken BANG "!" VNil 0) (Literal (VNum (float_of_Z 0)))))
  = Ret (VBool true).
Proof.
  split.
  - apply (proj1 (InterpreterMoreFacts.bang_negates_truthiness
                    Reference.FormatFloat (NewToken BANG "!" VNil 0)
                    (Literal (VNum (float_of_Z 0))) (VNum (float_of_Z 0))
                    eq_refl eq_refl)).
  - apply (proj1 (proj2 (InterpreterMoreFacts.bang_negates_truthiness
                    Reference.FormatFloat (NewToken BANG "!" VNil 0)
                    (Literal (VNum (float_of_Z 0))) (VNum (float_of_Z 0))
                    eq_refl eq_refl))).
Defined.

Lemma numeric_operators_need_numbers_witness :
  Interpreter.evaluate Reference.FormatFloat
    (Binary (NewToken GREATER ">" VNil 0)
       (Literal (VNum (float_of_Z 2))) (Literal (VNum (float_of_Z 3))))
  = Ret (VBool (flt (float_of_Z 3) (float_of_Z 2))) /\
  Interpreter.evaluate Reference.FormatFloat
    (Binary (NewToken GREATER ">" VNil 0)
       (Literal (VNum (float_of_Z 2))) (Literal (VBool true)))
  = Panic "Operands must be numbers: GREATER > <nil>".
Proof.
  split.
  - apply (proj1 (InterpreterMoreFacts.numeric_operators_need_numbers
                    Reference.FormatFloat (NewToken GREATER ">" VNil 0)
                    (Literal (VNum (float_of_Z 2))) (Literal (VNum (float_of_Z 3)))
                    (VNum (float_of_Z 2)) (VNum (float_of_Z 3))
                    (fun x y => VBool (flt y x)) eq_refl eq_refl eq_refl)
                 (float_of_Z 2) (float_of_Z 3) eq_refl eq_refl).
  - apply (proj2 (InterpreterMoreFacts.numeric_operators_need_numbers
                    Reference.FormatFloat (NewToken GREATER ">" VNil 0)
                    (Literal (VNum (float_of_Z 2))) (Literal (VBool true))
                    (VNum (float_of_Z 2)) (VBool true)
                    (fun x y => VBool (flt y x)) eq_refl eq_refl eq_refl)).
    right. discriminate.
Defined.

Lemma equality_operators_never_fail_witness :
  Interpreter.evaluate Reference.FormatFloat
    (Binary (NewToken EQUAL_EQUAL "==" VNil 0)
       (Literal (VNum (float_of_Z 1))) (Literal (VStr "1")))
  = Ret (VBool false) /\
  Interpreter.evaluate Reference.FormatFloat
    (Binary (NewToken BANG_EQUAL "!=" VNil 0)
       (Literal (VNum (float_of_Z 1))) (Literal (VStr "1")))
  = Ret (VBool true).
Proof.
  split.
  - apply (proj1 (InterpreterMoreFacts.equality_operators_never_fail
                    Reference.FormatFloat
                    (NewToken EQUAL_EQUAL "==" VNil 0) (NewToken BANG_EQUAL "!=" VNil 0)
                    (Literal (VNum (float_of_Z 1))) (Literal (VStr "1"))
                    (VNum (float_of_Z 1)) (VStr "1") eq_refl eq_refl eq_refl eq_refl)).
  - apply (proj1 (proj2 (InterpreterMoreFacts.equality_operators_never_fail
                    Reference.FormatFloat
                    (NewToken EQUAL_EQUAL "==" VNil 0) (NewToken BANG_EQUAL "!=" VNil 0)
                    (Literal (VNum (float_of_Z 1))) (Literal (VStr "1"))
                    (VNum (float_of_Z 1)) (VStr "1") eq_refl eq_refl eq_refl eq_refl))).
Defined.

Lemma parsed_tree_comes_from_tokens_witness :
  fromTokens
    [NewToken NUMBER "1" (VNum (float_of_Z 1)) 0; NewToken PLUS "+" VNil 0;
     NewToken STRING "'a'" (VStr "a") 0; NewToken EOF EmptyString VNil 0]
    (Binary (NewToken PLUS "+" VNil 0)
       (Literal (VNum (float_of_Z 1))) (Literal (VStr "a"))).
Proof.
  apply (ParserMoreFacts.parsed_tree_comes_from_tokens
           [NewToken NUMBER "1" (VNum (float_of_Z 1)) 0; NewToken PLUS "+" VNil 0;
            NewToken STRING "'a'" (VStr "a") 0; NewToken EOF EmptyString VNil 0]).
  vm_compute. reflexivity.
Defined.

Lemma tighter_level_binds_first_witness :
  Parser.levelRule stuck Parser.Term 2
    (Parser.NewParser
       [NewToken NUMBER "1" (VNum (float_of_Z 1)) 0; NewToken PLUS "+" VNil 0;
        NewToken NUMBER "2" (VNum (float_of_Z 2)) 0; NewToken STAR "*" VNil 0;
        NewToken NUMBER "3" (VNum (float_of_Z 3)) 0; NewToken EOF EmptyString VNil 0])
  = Ret (Binary (NewToken PLUS "+" VNil 0)
           (Literal (VNum (float_of_Z 1)))
           (Binary (NewToken STAR "*" VNil 0)
              (Literal (VNum (float_of_Z 2))) (Literal (VNum (float_of_Z 3)))),
         Parser.set_current 5
           (Parser.NewParser
              [NewToken NUMBER "1" (VNum (float_of_Z 1)) 0; NewToken PLUS "+" VNil 0;
               NewToken NUMBER "2" (VNum (float_of_Z 2)) 0; NewToken STAR "*" VNil 0;
               NewToken NUMBER "3" (VNum (float_of_Z 3)) 0; NewToken EOF EmptyString VNil 0])) /\
  Parser.levelRule stuck Parser.Term 2
    (Parser.NewParser
       [NewToken NUMBER "1" (VNum (float_of_Z 1)) 0; NewToken STAR "*" VNil 0;
        NewToken NUMBER "2" (VNum (float_of_Z 2)) 0; NewToken PLUS "+" VNil 0;
        NewToken NUMBER "3" (VNum (float_of_Z 3)) 0; NewToken EOF EmptyString VNil 0])
  = Ret (Binary (NewToken PLUS "+" VNil 0)
           (Binary (NewToken STAR "*" VNil 0)
              (Literal (VNum (float_of_Z 1))) (Literal (VNum (float_of_Z 2))))
           (Literal (VNum (float_of_Z 3))),
         Parser.set_current 5
           (Parser.NewParser
              [NewToken NUMBER "1" (VNum (float_of_Z 1)) 0; NewToken STAR "*" VNil 0;
               NewToken NUMBER "2" (VNum (float_of_Z 2)) 0; NewToken PLUS "+" VNil 0;
               NewToken NUMBER "3" (VNum (float_of_Z 3)) 0; NewToken EOF EmptyString VNil 0])).
Proof.
  split.
  - apply (proj1 (ParserMoreFacts.tighter_level_binds_first
             stuck Parser.Term Parser.Factor 2
             (Parser.NewParser
                [NewToken NUMBER "1" (VNum (float_of_Z 1)) 0; NewToken PLUS "+" VNil 0;
                 NewToken NUMBER "2" (VNum (float_of_Z 2)) 0; NewToken STAR "*" VNil 0;
                 NewToken NUMBER "3" (VNum (float_of_Z 3)) 0; NewToken EOF EmptyString VNil 0])
             (Literal (VNum (float_of_Z 1))) (Parser.set_current 1 _)
             (NewToken PLUS "+" VNil 0)
             (Literal (VNum (float_of_Z 2))) (Parser.set_current 3 _)
             (NewToken STAR "*" VNil 0)
             (Literal (VNum (float_of_Z 3))) (Parser.set_current 5 _)
             (NewToken EOF EmptyString VNil 0)
             eq_refl (le_S 1 1 (le_n 1))
             ltac:(cbn; intuition discriminate) ltac:(cbn; intuition discriminate)
             eq_refl eq_refl eq_refl eq_refl eq_refl eq_refl));
      cbn; auto.
  - apply (proj2 (ParserMoreFacts.tighter_level_binds_first
             stuck Parser.Term Parser.Factor 2
             (Parser.NewParser
                [NewToken NUMBER "1" (VNum (float_of_Z 1)) 0; NewToken STAR "*" VNil 0;
                 NewToken NUMBER "2" (VNum (float_of_Z 2)) 0; NewToken PLUS "+" VNil 0;
                 NewToken NUMBER "3" (VNum (float_of_Z 3)) 0; NewToken EOF EmptyString VNil 0])
             (Literal (VNum (float_of_Z 1))) (Parser.set_current 1 _)
             (NewToken STAR "*" VNil 0)
             (Literal (VNum (float_of_Z 2))) (Parser.set_current 3 _)
             (NewToken PLUS "+" VNil 0)
             (Literal (VNum (float_of_Z 3))) (Parser.set_current 5 _)
             (NewToken EOF EmptyString VNil 0)
             eq_refl (le_S 1 1 (le_n 1))
             ltac:(cbn; intuition discriminate) ltac:(cbn; intuition discriminate)
             eq_refl eq_refl eq_refl eq_refl eq_refl eq_refl));
      cbn; auto.
Defined.

Lemma prefix_operators_nest_witness :
  Parser.unary stuck 3
    (Parser.NewParser
       [NewToken MINUS "-" VNil 0; NewToken BANG "!" VNil 0;
        NewToken TRUE "true" VNil 0; NewToken EOF EmptyString VNil 0])
  = Ret (Unary (NewToken MINUS "-" VNil 0)
           (Unary (NewToken BANG "!" VNil 0) (Literal (VBool true))),
         Parser.set_current 3
           (Parser.NewParser
              [NewToken MINUS "-" VNil 0; NewToken BANG "!" VNil 0;
               NewToken TRUE "true" VNil 0; NewToken EOF EmptyString VNil 0])).
Proof.
  apply (ParserMoreFacts.prefix_operators_nest stuck 1
           (Parser.NewParser
              [NewToken MINUS "-" VNil 0; NewToken BANG "!" VNil 0;
               NewToken TRUE "true" VNil 0; NewToken EOF EmptyString VNil 0])
           (NewToken MINUS "-" VNil 0) (NewToken BANG "!" VNil 0)
           (Literal (VBool true)) _
           eq_refl (or_introl eq_refl) eq_refl (or_intror eq_refl) eq_refl).
Defined.

Lemma expression_expected_at_other_tokens_witness :
  Parser.expression 1
    (Parser.NewParser [NewToken STAR "*" VNil 0; NewToken NUMBER "2" (VNum (float_of_Z 2)) 0;
                       NewToken EOF EmptyString VNil 0])
  = Panic (Parser.error (NewToken STAR "*" VNil 0) "Expect expression") /\
  Parser.ParseFuel 1
    (Parser.NewParser [NewToken STAR "*" VNil 0; NewToken NUMBER "2" (VNum (float_of_Z 2)) 0;
                       NewToken EOF EmptyString VNil 0])
  = Ret (None, Some (Parser.error (NewToken STAR "*" VNil 0) "Expect expression")).
Proof.
  apply (ParserMoreFacts.expression_expected_at_other_tokens 0
           (Parser.NewParser [NewToken STAR "*" VNil 0;
                              NewToken NUMBER "2" (VNum (float_of_Z 2)) 0;
                              NewToken EOF EmptyString VNil 0])
           (NewToken STAR "*" VNil 0) eq_refl).
  cbn. intuition discriminate.
Defined.

Lemma grouping_needs_right_paren_witness :
  Parser.primary (Parser.expression 5)
    (Parser.NewParser
       [NewToken LEFT_PAREN "(" VNil 0; NewToken NUMBER "1" (VNum (float_of_Z 1)) 0;
        NewToken RIGHT_PAREN ")" VNil 0; NewToken EOF EmptyString VNil 0])
  = Ret (Grouping (Literal (VNum (float_of_Z 1))),
         Parser.set_current 3
           (Parser.NewParser
              [NewToken LEFT_PAREN "(" VNil 0; NewToken NUMBER "1" (VNum (float_of_Z 1)) 0;
               NewToken RIGHT_PAREN ")" VNil 0; NewToken EOF EmptyString VNil 0])) /\
  Parser.primary (Parser.expression 5)
    (Parser.NewParser
       [NewToken LEFT_PAREN "(" VNil 0; NewToken NUMBER "1" (VNum (float_of_Z 1)) 0;
        NewToken EOF EmptyString VNil 0])
  = Panic (Parser.error (NewToken EOF EmptyString VNil 0) "Expect ')' after expression.").
Proof.
  split.
  - apply (proj1 (ParserMoreFacts.grouping_needs_right_paren (Parser.expression 5)
             (Parser.NewParser
                [NewToken LEFT_PAREN "(" VNil 0; NewToken NUMBER "1" (VNum (float_of_Z 1)) 0;
                 NewToken RIGHT_PAREN ")" VNil 0; NewToken EOF EmptyString VNil 0])
             (NewToken LEFT_PAREN "(" VNil 0) (Literal (VNum (float_of_Z 1)))
             (Parser.set_current 2 _) (NewToken RIGHT_PAREN ")" VNil 0)
             eq_refl eq_refl eq_refl eq_refl)).
    reflexivity.
  - apply (proj2 (ParserMoreFacts.grouping_needs_right_paren (Parser.expression 5)
             (Parser.NewParser
                [NewToken LEFT_PAREN "(" VNil 0; NewToken NUMBER "1" (VNum (float_of_Z 1)) 0;
                 NewToken EOF EmptyString VNil 0])
             (NewToken LEFT_PAREN "(" VNil 0) (Literal (VNum (float_of_Z 1)))
             (Parser.set_current 2 _) (NewToken EOF EmptyString VNil 0)
             eq_refl eq_refl eq_refl eq_refl)).
    discriminate.
Defined.

Lemma cursor_stays_before_EOF_witness :
  Parser.expression 5
    (Parser.NewParser [NewToken NUMBER "1" (VNum (float_of_Z 1)) 0;
                       NewToken EOF EmptyString VNil 0]) <> Fault /\
  (forall expr p',
     Parser.expression 5
       (Parser.NewParser [NewToken NUMBER "1" (VNum (float_of_Z 1)) 0;
                          NewToken EOF EmptyString VNil 0]) = Ret (expr, p') ->
     Parser.tokens p' = [NewToken NUMBER "1" (VNum (float_of_Z 1)) 0;
                         NewToken EOF EmptyString VNil 0] /\
     0 <= Parser.current p' /\ Parser.guarded p').
Proof.
  apply (ParserMoreFacts.cursor_stays_before_EOF 5
           (Parser.NewParser [NewToken NUMBER "1" (VNum (float_of_Z 1)) 0;
                              NewToken EOF EmptyString VNil 0])).
  exists 1, (NewToken EOF EmptyString VNil 0). cbn. auto.
Defined.

Lemma Parse_ignores_tokens_after_EOF_witness :
  Parser.Parse (Parser.NewParser
    [NewToken NUMBER "1" (VNum (float_of_Z 1)) 0; NewToken EOF EmptyString VNil 0;
     NewToken PLUS "+" VNil 0])
  = Parser.Parse (Parser.NewParser
    [NewToken NUMBER "1" (VNum (float_of_Z 1)) 0; NewToken EOF EmptyString VNil 0]).
Proof.
  apply (ParserMoreFacts.Parse_ignores_tokens_after_EOF
           [NewToken NUMBER "1" (VNum (float_of_Z 1)) 0]
           (NewToken EOF EmptyString VNil 0) [NewToken PLUS "+" VNil 0] eq_refl).
Defined.

Lemma scanned_expressions_never_evaluate_to_nil_witness :
  Ret (VStr "null") = Interpreter.evaluate Reference.FormatFloat (Literal (VStr "null")) /\
  ((exists v, Ret (VStr "null") = @Ret string value v /\ v <> VNil) \/
   (exists e, Ret (VStr "null") = @Panic string value e)).
Proof.
  apply (PipelineMoreFacts.scanned_expressions_never_evaluate_to_nil
           Reference.ParseFloat Reference.FormatFloat "nil"
           (Literal (VStr "null")) (Ret (VStr "null"))).
  vm_compute. reflexivity.
Defined.

End MoreWitnesses.
